(** * Payments and settlement reconciliation of the event-hosting backend

    A shallow embedding of the donation lifecycle of the backend:
    - [calculateFee] (utils/helpers),
    - the [Donation] and [Job] models (models/donation.model.ts,
      models/job.model.ts), with the part of the document store they use,
    - the [verifyPayment] and [paystackWebhook] handlers
      (controllers/payment.controller.ts),
    - the settlement reconciliation job [runPaystackSettlementReconcile]
      (paystack/paystackSettlementPoller),
    - the [chipin] and [verifyBankAccount] handlers
      (controllers/payment.controller.ts), [getTotalDonations]
      (models/donation.model.ts), [deleteEvent]
      (controllers/event.controller.ts) and the status of an event
      (models/event.model.ts),
    - the token model (models/userToken.model.ts).

    JavaScript numbers are IEEE-754 binary64 values, modelled by Rocq's
    primitive floats; dates are their time value in milliseconds (an integer);
    a collection is the list of its documents in natural order. *)

From Stdlib Require Import Floats.PrimFloat Ascii.
From stdpp Require Import gmap strings list fin_maps pretty.

Set Warnings "-inexact-float".
Local Open Scope Z_scope.
Local Open Scope string_scope.

(** ** JavaScript values used by the handlers *)

Module Js.

(** A JS [number]. *)
Abbreviation number := float.

(** [a !== b] on two numbers: IEEE inequality (NaN differs from itself). *)
Definition strict_ne (a b : number) : bool := negb (PrimFloat.eqb a b).

(** [a < b] where [b] may be [undefined]: the comparison with [undefined]
    converts it to NaN and is false. *)
Definition lt_opt (a : number) (b : option number) : bool :=
  match b with
  | Some y => PrimFloat.ltb a y
  | None => false
  end.

(** [a !== b] where [b] may be [undefined]: a number is never strictly
    equal to [undefined]. *)
Definition strict_ne_opt (a : number) (b : option number) : bool :=
  match b with
  | Some y => strict_ne a y
  | None => true
  end.

(** [!s] for a string that may be [undefined]: true when it is absent or
    empty. *)
Definition falsy_str (s : option string) : bool :=
  match s with
  | Some EmptyString | None => true
  | Some _ => false
  end.

(** [a === b] for a value that may be [undefined] against a string
    literal. *)
Definition str_is (a : option string) (lit : string) : bool :=
  match a with
  | Some s => String.eqb s lit
  | None => false
  end.

(** [a || b] on strings that may be [undefined]. *)
Definition str_or (a : option string) (b : string) : string :=
  match a with
  | Some EmptyString | None => b
  | Some s => s
  end.

End Js.

(** ** utils/helpers: the fee calculator *)

Definition feePercentage : Js.number := 0.01%float.
Definition fixedFee : Js.number := 100%float.

Definition calculateFee (amount : Js.number) : Js.number :=
  PrimFloat.add (PrimFloat.mul amount feePercentage) fixedFee.

(** ** utils/appError and thrown errors *)

(** The text of an error message.  The two messages of the pre-save hook
    interpolate the currency and a number; they are kept as templates with
    their arguments instead of a rendered string. *)
Inductive Message :=
| Msg (s : string)
| MsgAtLeast (currency : string) (minAmount : option Js.number)
| MsgExactly (currency : string) (fixedAmount : option Js.number).

Record AppError := mkAppError { message : Message; statusCode : Z }.

(** An error thrown by the runtime or by the HTTP client: its own [message]
    and, for a gateway reply, [response.data.message]. *)
Record JsError := mkJsError {
  response_message : option string;
  err_message : string
}.

Inductive Result (A : Type) : Type :=
| Ok (a : A)
| ThrowApp (e : AppError)
| ThrowJs (e : JsError).
Arguments Ok {A} a.
Arguments ThrowApp {A} e.
Arguments ThrowJs {A} e.

(** ** models: documents *)

Abbreviation ObjectId := Z.
Abbreviation Date := Z.

Inductive Status := pending | completed | refunded | failed.
Inductive PayoutStatus := payout_pending | payout_paid | payout_failed.

Definition Status_eqb (a b : Status) : bool :=
  match a, b with
  | pending, pending | completed, completed
  | refunded, refunded | failed, failed => true
  | _, _ => false
  end.

Definition PayoutStatus_eqb (a b : PayoutStatus) : bool :=
  match a, b with
  | payout_pending, payout_pending | payout_paid, payout_paid
  | payout_failed, payout_failed => true
  | _, _ => false
  end.

(** The nested [metadata] path of a donation; every field may be absent. *)
Record Metadata := mkMetadata {
  transactionId : option string;
  gateway : option string;
  gatewayResponse : option string
}.

Definition noMetadata : Metadata := mkMetadata None None None.

(** A donation document.  [fee] is [None] until the pre-save hook assigns it.
    The [createdAt]/[updatedAt] stamps the store maintains by itself are left
    out: no handler reads or writes them. *)
Record Donation := mkDonation {
  _id : ObjectId;
  event : ObjectId;
  userId : ObjectId;
  amount : Js.number;
  currency : string;
  fee : option Js.number;
  settledAt : option Date;
  status : Status;
  payoutStatus : PayoutStatus;
  paymentReference : option string;
  metadata : Metadata;
  isPayoutEligible : bool
}.

Inductive ChipInType := fixed | target | donation.

Record ChipInDetails := mkChipInDetails {
  chipInType : ChipInType;
  fixedAmount : option Js.number;
  targetAmount : option Js.number;
  minAmount : option Js.number
}.

Record Host := mkHost {
  host_name : string;
  host_email : string;
  host_photo : option string
}.

(** The fields of an event that the payment code reads. *)
Record Event := mkEvent {
  ev_id : ObjectId;
  title : string;
  slug : string;
  image_url : string;
  host : Host;
  isPrivate : bool;
  chipInDetails : option ChipInDetails
}.

(** The database: the donation and event collections in natural order, and
    the job collection, whose [name] is unique, as a map from the name to
    [lastRunAt] ([None] is the schema's default [null]). *)
Record Db := mkDb {
  donations : list Donation;
  events : list Event;
  jobs : gmap string (option Date)
}.

Definition set_donations (l : list Donation) (db : Db) : Db :=
  mkDb l (events db) (jobs db).

Definition set_jobs (j : gmap string (option Date)) (db : Db) : Db :=
  mkDb (donations db) (events db) j.

(** ** The query and update documents the code passes to the store *)

(** A filter over donations: each field, when present, is one condition of
    the query object; the conditions are conjoined. *)
Record DonationFilter := mkFilter {
  q_id : option ObjectId;
  q_paymentReference : option string;
  q_paymentReference_in : option (list string);
  q_metadata_gateway : option string;
  q_isPayoutEligible : option bool;
  q_payoutStatus : option PayoutStatus;
  q_status : option Status
}.

Definition anyDonation : DonationFilter :=
  mkFilter None None None None None None None.

Definition cond {A} (c : option A) (test : A → bool) : bool :=
  match c with
  | Some x => test x
  | None => true
  end.

Definition matches (q : DonationFilter) (d : Donation) : bool :=
  cond (q_id q) (λ i, Z.eqb (_id d) i)
  && cond (q_paymentReference q) (λ r, Js.str_is (paymentReference d) r)
  && cond (q_paymentReference_in q)
       (λ rs, existsb (λ r, Js.str_is (paymentReference d) r) rs)
  && cond (q_metadata_gateway q) (λ g, Js.str_is (gateway (metadata d)) g)
  && cond (q_isPayoutEligible q) (λ b, Bool.eqb (isPayoutEligible d) b)
  && cond (q_payoutStatus q) (λ p, PayoutStatus_eqb (payoutStatus d) p)
  && cond (q_status q) (λ s, Status_eqb (status d) s).

(** An update document: the fields it sets. *)
Record DonationUpdate := mkUpdate {
  u_status : option Status;
  u_metadata : option Metadata;
  u_settledAt : option Date;
  u_isPayoutEligible : option bool
}.

Definition applyUpdate (u : DonationUpdate) (d : Donation) : Donation :=
  {| _id := _id d;
     event := event d;
     userId := userId d;
     amount := amount d;
     currency := currency d;
     fee := fee d;
     settledAt := match u_settledAt u with Some t => Some t | None => settledAt d end;
     status := default (status d) (u_status u);
     payoutStatus := payoutStatus d;
     paymentReference := paymentReference d;
     metadata := default (metadata d) (u_metadata u);
     isPayoutEligible := default (isPayoutEligible d) (u_isPayoutEligible u) |}.

(** ** Store operations on the donation collection *)

Module Store.

(** [Donation.findOne(q)]: the first match in natural order. *)
Definition findOne (q : DonationFilter) (l : list Donation)
  : option (nat * Donation) :=
  list_find (λ d, matches q d = true) l.

(** [Donation.find(q)]: all matches. *)
Definition find (q : DonationFilter) (l : list Donation) : list Donation :=
  filter (λ d, matches q d = true) l.

(** [Donation.findOneAndUpdate(q, u, { new: true })]: updates the first
    match in place and returns the updated document; without a match the
    collection is unchanged and the result is [null]. *)
Definition findOneAndUpdate (q : DonationFilter) (u : DonationUpdate)
    (l : list Donation) : list Donation * option Donation :=
  match findOne q l with
  | Some (i, d) => (<[i := applyUpdate u d]> l, Some (applyUpdate u d))
  | None => (l, None)
  end.

(** One [updateOne] operation of a bulk write. *)
Definition updateOne (op : DonationFilter * DonationUpdate)
    (l : list Donation) : list Donation :=
  fst (findOneAndUpdate (fst op) (snd op) l).

(** [Donation.bulkWrite(ops)]: the operations in order. *)
Definition bulkWrite (ops : list (DonationFilter * DonationUpdate))
    (l : list Donation) : list Donation :=
  fold_left (λ acc op, updateOne op acc) ops l.

(** [Event.findById(id)] and the [populate] of a donation's event. *)
Definition findEvent (id : ObjectId) (es : list Event) : option Event :=
  snd <$> list_find (λ e, ev_id e = id) es.

End Store.

(** ** models/donation.model.ts: the pre-save hook and [Donation.create] *)

Definition ChipInType_eqb (a b : ChipInType) : bool :=
  match a, b with
  | fixed, fixed | target, target | donation, donation => true
  | _, _ => false
  end.

Definition setFee (f : Js.number) (d : Donation) : Donation :=
  {| _id := _id d;
     event := event d;
     userId := userId d;
     amount := amount d;
     currency := currency d;
     fee := Some f;
     settledAt := settledAt d;
     status := status d;
     payoutStatus := payoutStatus d;
     paymentReference := paymentReference d;
     metadata := metadata d;
     isPayoutEligible := isPayoutEligible d |}.

(** [donationSchema.pre("save", ...)]: [isNew] is the document's flag, [es]
    the event collection the hook queries. *)
Definition preSave (es : list Event) (isNew : bool) (d : Donation)
  : Result Donation :=
  if isNew then
    match Store.findEvent (event d) es with
    | None => ThrowApp (mkAppError (Msg "Event not found") 404)
    | Some ev =>
        match chipInDetails ev with
        | Some cd =>
            if ChipInType_eqb (chipInType cd) donation
               && Js.lt_opt (amount d) (minAmount cd)
            then ThrowApp (mkAppError (MsgAtLeast (currency d) (minAmount cd)) 400)
            else if ChipInType_eqb (chipInType cd) fixed
                    && Js.strict_ne_opt (amount d) (fixedAmount cd)
            then ThrowApp (mkAppError (MsgExactly (currency d) (fixedAmount cd)) 400)
            else Ok (setFee (calculateFee (amount d)) d)
        | None => Ok (setFee (calculateFee (amount d)) d)
        end
    end
  else Ok d.

(** The document [new Donation({event, userId, amount, paymentReference})]
    with the schema's defaults.  The reference [chipin] builds has no white
    space, so that the schema's [trim] keeps it. *)
Definition newDonation (id ev uid : ObjectId) (amt : Js.number) (ref : string)
  : Donation :=
  {| _id := id;
     event := ev;
     userId := uid;
     amount := amt;
     currency := "NGN";
     fee := None;
     settledAt := None;
     status := pending;
     payoutStatus := payout_pending;
     paymentReference := Some ref;
     metadata := noMetadata;
     isPayoutEligible := false |}.

(** A fresh [_id]: above every identifier of the collection. *)
Definition freshId (l : list Donation) : ObjectId :=
  1 + foldr Z.max 0 (_id <$> l).

Definition duplicateKey : JsError :=
  mkJsError None "E11000 duplicate key error".

(** [Donation.create(...)] as [chipin] calls it: the pre-save hook runs on
    the new document, then the insert, which the unique index on
    [paymentReference] refuses when the reference is already stored. *)
Definition Donation_create (ev uid : ObjectId) (amt : Js.number) (ref : string)
    (db : Db) : Result Donation * Db :=
  match preSave (events db) true
          (newDonation (freshId (donations db)) ev uid amt ref) with
  | Ok doc =>
      if existsb (λ d, Js.str_is (paymentReference d) ref) (donations db)
      then (ThrowJs duplicateKey, db)
      else (Ok doc, set_donations (donations db ++ [doc]) db)
  | ThrowApp e => (ThrowApp e, db)
  | ThrowJs e => (ThrowJs e, db)
  end.

(** ** The payment gateway, as the code sees it *)

(** [metadata] of a verified transaction: what [chipin] sent at
    initialisation. *)
Record PaymentMetadata := mkPaymentMetadata {
  pm_type : option string;
  originalAmount : Js.number;
  transaction_fee : Js.number
}.

(** [response.data.data] of [GET /transaction/verify/:reference]. *)
Record PaymentData := mkPaymentData {
  pd_status : string;
  pd_amount : Js.number;
  gateway_response : option string;
  pd_metadata : option PaymentMetadata
}.

Record Settlement := mkSettlement { settlement_id : Z }.

(** A settlement transaction; [reference] may be missing. *)
Record SettlementTxn := mkSettlementTxn { txn_reference : option string }.

(** The gateway: each call either throws (an HTTP or network failure) or
    returns its data; a list call may return no [data] at all. *)
Record Gateway := mkGateway {
  transactionVerify : string → JsError + PaymentData;
  listSettlements : Date → Z → JsError + option (list Settlement);
  listSettlementTransactions : Z → Z → JsError + option (list SettlementTxn)
}.

(** ** controllers/payment.controller.ts *)

Record EventView := mkEventView {
  view_title : string;
  view_slug : string;
  view_image : string;
  view_host_name : string;
  view_host_email : string;
  view_host_photo : option string
}.

(** The object [handleFormatData] returns: the donation's own fields and the
    reduced event. *)
Record FormattedData := mkFormattedData {
  fd_donation : Donation;
  fd_event : EventView
}.

Inductive Response :=
| SendStatus (code : Z)
| JsonVerified (code : Z) (data : option FormattedData) (paymentType : string)
| Next (e : AppError)
| Uncaught (e : JsError).

Definition nullEventError : JsError :=
  mkJsError None "Cannot read properties of null (reading 'title')".

(** [handleFormatData(donation)], where [ev] is the populated event
    ([None] when the event no longer exists: reading its title throws). *)
Definition handleFormatData (d : Donation) (ev : option Event)
  : JsError + FormattedData :=
  match ev with
  | None => inl nullEventError
  | Some e =>
      inr (mkFormattedData d
             (mkEventView (title e) (slug e) (image_url e)
                (host_name (host e)) (host_email (host e))
                (if Js.falsy_str (host_photo (host e)) then None
                 else host_photo (host e))))
  end.

(** The filter and the update document of the completion write, written the
    same in both handlers. *)
Definition byReference (reference : string) : DonationFilter :=
  mkFilter None (Some reference) None None None None None.

Definition completionUpdate (reference : string) (gr : option string)
  : DonationUpdate :=
  mkUpdate (Some completed)
    (Some (mkMetadata (Some reference) (Some "paystack") gr))
    None None.

(** [new AppError(error.response?.data?.message || error.message, 500)]. *)
Definition gatewayAppError (e : JsError) : AppError :=
  mkAppError (Msg (Js.str_or (response_message e) (err_message e))) 500.

Definition formatResponse (paymentType : string) (d : Donation) (db : Db)
  : Response :=
  match handleFormatData d (Store.findEvent (event d) (events db)) with
  | inl e => Next (gatewayAppError e)
  | inr data => JsonVerified 200 (Some data) paymentType
  end.

Definition expectedAmount (m : PaymentMetadata) : Js.number :=
  PrimFloat.mul
    (PrimFloat.add (originalAmount m) (transaction_fee m)) 100%float.

Definition metadataTypeError : JsError :=
  mkJsError None "Cannot read properties of undefined (reading 'type')".

(** [existingDonation && existingDonation.status === "completed"]. *)
Definition alreadyCompleted (existing : option (nat * Donation)) : bool :=
  match existing with
  | Some (_, d) => Status_eqb (status d) completed
  | None => false
  end.

Definition chipinNotFound : AppError := mkAppError (Msg "Chip-in not found") 404.

(** The [chipin] case of [verifyPayment]. *)
Definition verifyChipin (reference : string) (paymentData : PaymentData)
    (db : Db) : Response * Db :=
  if alreadyCompleted (Store.findOne (byReference reference) (donations db))
  then
    match Store.findOne (byReference reference) (donations db) with
    | None => (Next chipinNotFound, db)
    | Some (_, d) => (formatResponse "chipin" d db, db)
    end
  else
    match Store.findOneAndUpdate (byReference reference)
            (completionUpdate reference (gateway_response paymentData))
            (donations db) with
    | (l, Some d) =>
        (formatResponse "chipin" d (set_donations l db), set_donations l db)
    | (l, None) => (Next chipinNotFound, set_donations l db)
    end.

(** [verifyPayment]: [reference] is [req.query.reference]. *)
Definition verifyPayment (gw : Gateway) (reference : option string) (db : Db)
  : Response * Db :=
  match reference with
  | None | Some EmptyString =>
      (Next (mkAppError (Msg "Payment reference is required") 400), db)
  | Some ref =>
      match transactionVerify gw ref with
      | inl e => (Next (gatewayAppError e), db)
      | inr paymentData =>
          if negb (String.eqb (pd_status paymentData) "success") then
            (Next (mkAppError (Msg "Payment not successful") 400), db)
          else
            match pd_metadata paymentData with
            | None => (Next (gatewayAppError metadataTypeError), db)
            | Some md =>
                if Js.strict_ne (pd_amount paymentData) (expectedAmount md) then
                  (Next (mkAppError (Msg "Payment amount mismatch") 400), db)
                else if Js.str_is (pm_type md) "chipin" then
                  verifyChipin ref paymentData db
                else if Js.str_is (pm_type md) "ticket" then
                  (JsonVerified 200 None "ticket", db)
                else
                  (Next (mkAppError (Msg "Invalid payment type") 400), db)
            end
      end
  end.

(** The parsed body of a webhook request, as far as the handler reads it:
    [event] is [None] when the field is missing or not a string, [data] is
    [None] when it is missing or [null]. *)
Record PayloadData := mkPayloadData { reference : string }.

Record Payload := mkPayload {
  p_event : option string;
  p_data : option PayloadData
}.

(** A webhook request: the bytes received ([req.rawBody], which app.ts
    keeps when it parses the body), the parsed body and the signature
    header. *)
Record WebhookRequest := mkWebhookRequest {
  rawBody : string;
  body : Payload;
  x_paystack_signature : option string
}.

(** What the handler takes from the runtime: the secret key of the
    environment, HMAC-SHA512 in hexadecimal and [JSON.stringify]. *)
Record Runtime := mkRuntime {
  PAYSTACK_SECRET_KEY : string;
  hmacSha512Hex : string → string → string;
  JSON_stringify : Payload → string
}.

Definition dataTypeError : JsError :=
  mkJsError None "Cannot read properties of undefined (reading 'reference')".

(** The [chipin] case of [paystackWebhook]: [None] is the early
    [return res.sendStatus(200)]. *)
Definition webhookChipin (reference : string) (verifiedData : PaymentData)
    (db : Db) : option Response * Db :=
  if alreadyCompleted (Store.findOne (byReference reference) (donations db))
  then (Some (SendStatus 200), db)
  else
    (None,
     set_donations
       (fst (Store.findOneAndUpdate (byReference reference)
               (completionUpdate reference (gateway_response verifiedData))
               (donations db)))
       db).

(** The message the handler signs and the hash it compares to the header. *)
Definition signedMessage (rt : Runtime) (req : WebhookRequest) : string :=
  JSON_stringify rt (body req).

Definition computedHash (rt : Runtime) (req : WebhookRequest) : string :=
  hmacSha512Hex rt (PAYSTACK_SECRET_KEY rt) (signedMessage rt req).

Definition paystackWebhook (rt : Runtime) (gw : Gateway) (req : WebhookRequest)
    (db : Db) : Response * Db :=
  if negb (Js.str_is (x_paystack_signature req) (computedHash rt req))
     || negb (Js.str_is (p_event (body req)) "charge.success")
  then (SendStatus 400, db)
  else
    match p_data (body req) with
    | None => (Uncaught dataTypeError, db)
    | Some paymentData =>
        match transactionVerify gw (reference paymentData) with
        | inl _ => (SendStatus 500, db)
        | inr verifiedData =>
            if negb (String.eqb (pd_status verifiedData) "success") then
              (SendStatus 400, db)
            else
              match pd_metadata verifiedData with
              | None => (SendStatus 500, db)
              | Some md =>
                  if Js.str_is (pm_type md) "chipin" then
                    match webhookChipin (reference paymentData) verifiedData db with
                    | (Some r, db') => (r, db')
                    | (None, db') => (SendStatus 200, db')
                    end
                  else if Js.str_is (pm_type md) "ticket" then
                    (SendStatus 200, db)
                  else (SendStatus 400, db)
              end
        end
    end.

(** ** models/job.model.ts *)

Module Job.

(** [job ? job.lastRunAt || null : null]. *)
Definition getLastRun (name : string) (js : gmap string (option Date))
  : option Date :=
  match js !! name with
  | Some (Some t) => Some t
  | Some None | None => None
  end.

(** [findOneAndUpdate({name}, {lastRunAt: new Date()}, {upsert: true})];
    [now] is the date read. *)
Definition updateLastRun (name : string) (now : Date)
    (js : gmap string (option Date)) : gmap string (option Date) :=
  <[name := Some now]> js.

End Job.

(** ** paystack/paystackSettlementPoller *)

(** [parseInt(s, 10)]: leading ASCII white space, an optional sign, then
    the longest run of decimal digits; [None] is NaN. *)
Definition isWhiteSpace (c : Ascii.ascii) : bool :=
  let n := Ascii.nat_of_ascii c in
  ((9 <=? n)%nat && (n <=? 13)%nat) || (n =? 32)%nat.

Fixpoint skipWhiteSpace (s : string) : string :=
  match s with
  | String c r => if isWhiteSpace c then skipWhiteSpace r else s
  | EmptyString => s
  end.

Definition digitValue (c : Ascii.ascii) : option Z :=
  let n := Ascii.nat_of_ascii c in
  if (48 <=? n)%nat && (n <=? 57)%nat then Some (Z.of_nat n - 48) else None.

Fixpoint digitsPrefix (s : string) (acc : option Z) : option Z :=
  match s with
  | String c r =>
      match digitValue c with
      | Some v => digitsPrefix r (Some (10 * default 0 acc + v))
      | None => acc
      end
  | EmptyString => acc
  end.

Definition parseInt10 (s : string) : option Z :=
  match skipWhiteSpace s with
  | String "-"%char r => Z.opp <$> digitsPrefix r None
  | String "+"%char r => digitsPrefix r None
  | r => digitsPrefix r None
  end.

(** [parseInt(process.env.SETTLEMENT_LOOKBACK_DAYS || "1", 10)]. *)
Definition DEFAULT_LOOKBACK_DAYS (env : option string) : option Z :=
  parseInt10 (Js.str_or env "1").

(** [toISOString()]: a date outside the range of valid time values throws a
    RangeError.  The string is the rendering of the time value, which stands
    for it here. *)
Definition maxTimeValue : Z := 8640000000000000.

Definition invalidTime : JsError := mkJsError None "Invalid time value".

Definition toISOString (t : option Z) : JsError + Date :=
  match t with
  | Some v => if (Z.abs v <=? maxTimeValue)%Z then inr v else inl invalidTime
  | None => inl invalidTime
  end.

(** What a run of the job reads from outside the database: the gateway, the
    clock (the n-th reading of the current time) and the lookback setting
    of the environment. *)
Record JobEnv := mkJobEnv {
  paystack : Gateway;
  clock : nat → Date;
  SETTLEMENT_LOOKBACK_DAYS : option string
}.

(** The variables a run threads through its loops: the donation collection,
    [totalReconciled] and the number of clock readings made so far. *)
Record JobState := mkJobState {
  js_donations : list Donation;
  totalReconciled : Z;
  clockReads : nat
}.

(** How a loop ends: normally, by an exception, or not within the number of
    iterations allowed to the model. *)
Inductive Outcome :=
| Finished
| Raised (e : JsError)
| OutOfFuel.

Definition jobName : string := "paystack_settlement_reconcile".

(** [lastRunAt ?? new Date(Date.now() - 1000*60*60*24*DEFAULT_LOOKBACK_DAYS)],
    as a time value; [now] is read only when there is no checkpoint. *)
Definition windowStart (lastRunAt : option Date) (now : Date) (days : option Z)
  : option Z :=
  match lastRunAt with
  | Some t => Some t
  | None => (λ d, now - 1000 * 60 * 60 * 24 * d) <$> days
  end.

(** The references of a page of transactions:
    [txns.map(t => t.reference).filter(Boolean)]. *)
Definition validReferences (txns : list SettlementTxn) : list string :=
  omap (λ t, match txn_reference t with
             | Some EmptyString | None => None
             | Some r => Some r
             end) txns.

(** The batch query of the job. *)
Definition settlementFilter (references : list string) : DonationFilter :=
  mkFilter None None (Some references) (Some "paystack") (Some false)
    (Some payout_pending) (Some completed).

Definition byId (id : ObjectId) : DonationFilter :=
  mkFilter (Some id) None None None None None None.

Definition settleUpdate (now : Date) : DonationUpdate :=
  mkUpdate None None (Some now) (Some true).

(** The body of the transaction loop after the references are collected:
    query, bulk write and count. *)
Definition reconcilePage (clk : nat → Date) (references : list string)
    (st : JobState) : JobState :=
  let found := Store.find (settlementFilter references) (js_donations st) in
  if (0 <? Z.of_nat (length found))%Z then
    let now := clk (clockReads st) in
    mkJobState
      (Store.bulkWrite ((λ d, (byId (_id d), settleUpdate now)) <$> found)
         (js_donations st))
      (totalReconciled st + Z.of_nat (length found))
      (S (clockReads st))
  else st.

(** [while (hasMoreTxns)] for one settlement, from page [txnPage]. *)
Fixpoint txnLoop (fuel : nat) (env : JobEnv) (settlementId txnPage : Z)
    (st : JobState) : Outcome * JobState :=
  match fuel with
  | O => (OutOfFuel, st)
  | S fuel' =>
      match listSettlementTransactions (paystack env) settlementId txnPage with
      | inl e => (Raised e, st)
      | inr None | inr (Some []) => (Finished, st)
      | inr (Some txns) =>
          let st' :=
            match validReferences txns with
            | [] => st
            | references => reconcilePage (clock env) references st
            end in
          if (Z.of_nat (length txns) <? 100)%Z then (Finished, st')
          else txnLoop fuel' env settlementId (txnPage + 1) st'
      end
  end.

(** [for (const settlement of settlements)]. *)
Fixpoint forSettlements (txnFuel : nat) (env : JobEnv)
    (settlements : list Settlement) (st : JobState) : Outcome * JobState :=
  match settlements with
  | [] => (Finished, st)
  | s :: rest =>
      match txnLoop txnFuel env (settlement_id s) 1 st with
      | (Finished, st') => forSettlements txnFuel env rest st'
      | stopped => stopped
      end
  end.

(** [while (hasMoreSettlements)], from page [page]. *)
Fixpoint settlementLoop (fuel txnFuel : nat) (env : JobEnv) (from : Date)
    (page : Z) (st : JobState) : Outcome * JobState :=
  match fuel with
  | O => (OutOfFuel, st)
  | S fuel' =>
      match listSettlements (paystack env) from page with
      | inl e => (Raised e, st)
      | inr None | inr (Some []) => (Finished, st)
      | inr (Some settlements) =>
          match forSettlements txnFuel env settlements st with
          | (Finished, st') =>
              if (Z.of_nat (length settlements) <? 50)%Z then (Finished, st')
              else settlementLoop fuel' txnFuel env from (page + 1) st'
          | stopped => stopped
          end
      end
  end.

(** The time value of [from], and the number of clock readings it took. *)
Definition readWindowStart (env : JobEnv) (db : Db) (reads : nat)
  : (JsError + Date) * nat :=
  match Job.getLastRun jobName (jobs db) with
  | Some t => (toISOString (Some t), reads)
  | None =>
      (toISOString
         (windowStart None (clock env reads)
            (DEFAULT_LOOKBACK_DAYS (SETTLEMENT_LOOKBACK_DAYS env))),
       S reads)
  end.

(** [runPaystackSettlementReconcile]: [fuel] bounds the settlement pages and
    [txnFuel] the transaction pages of one settlement; [reads] counts the
    clock readings made before the run.  The result carries the outcome, the
    database, [totalReconciled] and the count of readings. *)
Definition runPaystackSettlementReconcile (fuel txnFuel : nat) (env : JobEnv)
    (db : Db) (reads : nat) : Outcome * Db * Z * nat :=
  match readWindowStart env db reads with
  | (inl e, reads') => (Raised e, db, 0, reads')
  | (inr from, reads') =>
      match settlementLoop fuel txnFuel env from 1
              (mkJobState (donations db) 0 reads') with
      | (Finished, st) =>
          (Finished,
           set_jobs (Job.updateLastRun jobName (clock env (clockReads st)) (jobs db))
             (set_donations (js_donations st) db),
           totalReconciled st, S (clockReads st))
      | (stopped, st) =>
          (stopped, set_donations (js_donations st) db,
           totalReconciled st, clockReads st)
      end
  end.


(** ** controllers/payment.controller.ts: [chipin] and [verifyBankAccount] *)

(** [res.locals.user], as far as the handler reads it. *)
Record LocalsUser := mkLocalsUser {
  user_id : ObjectId;
  user_email : string;
  user_role : string
}.

(** The body of [POST /transaction/initialize]. *)
Record InitRequest := mkInitRequest {
  init_email : string;
  init_amount : Js.number;
  init_reference : string;
  init_callback_url : string;
  init_eventId : ObjectId;
  init_transaction_fee : option Js.number;
  init_originalAmount : Js.number;
  init_type : string
}.

(** [response.data] of the initialisation: [status] is [None] when it is not
    a boolean, [data] is [None] when it is missing. *)
Record InitResponse := mkInitResponse {
  init_status : option bool;
  init_data : option (option string)
}.

(** [response.data] of [GET /bank/resolve]. *)
Record ResolveResponse := mkResolveResponse {
  resolve_status : bool;
  resolve_data : option (option string * option string)
}.

(** The two gateway calls of the checkout. *)
Record Checkout := mkCheckout {
  transactionInitialize : InitRequest → JsError + InitResponse;
  bankResolve : string → string → JsError + ResolveResponse
}.

(** What [chipin] answers: a JSON body with the payment link, an error
    passed to [next], or an exception thrown out of the handler. *)
Inductive ChipinResponse :=
| PaymentLink (code : Z) (paymentLink : option string)
| ChipinNext (e : AppError)
| ChipinThrowApp (e : AppError)
| ChipinThrowJs (e : JsError).

(** [`CHIP-IN_${Date.now()}_${crypto.randomBytes(8).toString("hex")}`];
    [now] is the time read and [hex] the random part. *)
Definition chipinReference (now : Date) (hex : string) : string :=
  "CHIP-IN_" +:+ pretty now +:+ "_" +:+ hex.

(** [x + donation.fee] where the fee may be [undefined]: the sum is then
    NaN. *)
Definition addFee (x : Js.number) (fee : option Js.number) : Js.number :=
  match fee with
  | Some f => PrimFloat.add x f
  | None => PrimFloat.nan
  end.

(** The request [chipin] sends to the gateway for a created donation. *)
Definition initRequest (front_url : string) (user : LocalsUser)
    (amt : Js.number) (eventId : ObjectId) (paymentReference : string)
    (created : Donation) : InitRequest :=
  {| init_email := user_email user;
     init_amount := PrimFloat.mul (addFee amt (fee created)) 100%float;
     init_reference := paymentReference;
     init_callback_url := front_url +:+ "/verify-payment";
     init_eventId := eventId;
     init_transaction_fee := fee created;
     init_originalAmount := amt;
     init_type := "chipin" |}.

Definition authorizationTypeError : JsError :=
  mkJsError None
    "Cannot read properties of undefined (reading 'authorization_url')".

(** [chipin]: [amt] and [eventId] are the fields of the body (a number and
    an identifier), [now] and [hex] the time and the random bytes read for
    the reference, [front_url] the setting [FRONT_URL]. *)
Definition chipin (co : Checkout) (front_url : string) (user : LocalsUser)
    (amt : Js.number) (eventId : ObjectId) (now : Date) (hex : string)
    (db : Db) : ChipinResponse * Db :=
  match Store.findEvent eventId (events db) with
  | None => (ChipinNext (mkAppError (Msg "Event not found") 404), db)
  | Some ev =>
      if negb (isPrivate ev) || negb (bool_decide (is_Some (chipInDetails ev)))
      then
        (ChipinNext (mkAppError (Msg "This event does not accept donations") 400),
         db)
      else if PrimFloat.leb amt 0%float then
        (ChipinNext (mkAppError (Msg "Amount must be positive") 400), db)
      else
        match Donation_create eventId (user_id user) amt
                (chipinReference now hex) db with
        | (ThrowApp e, db') => (ChipinThrowApp e, db')
        | (ThrowJs e, db') => (ChipinThrowJs e, db')
        | (Ok created, db') =>
            match transactionInitialize co
                    (initRequest front_url user amt eventId
                       (chipinReference now hex) created) with
            | inl e => (ChipinNext (gatewayAppError e), db')
            | inr response =>
                if negb (bool_decide (init_status response = Some true)) then
                  (ChipinNext
                     (mkAppError (Msg "Failed to initialize payment") 500), db')
                else
                  match init_data response with
                  | None =>
                      (ChipinNext (gatewayAppError authorizationTypeError), db')
                  | Some link => (PaymentLink 201 link, db')
                  end
            end
        end
  end.

(** What [verifyBankAccount] answers. *)
Inductive BankResponse :=
| AccountVerified (code : Z) (accountName accountNumber : option string)
| BankNext (e : AppError).

Definition accountTypeError : JsError :=
  mkJsError None
    "Cannot read properties of undefined (reading 'account_name')".

(** [verifyBankAccount]: the two fields of the body may be missing. *)
Definition verifyBankAccount (co : Checkout)
    (accountNumber bankCode : option string) : BankResponse :=
  if Js.falsy_str accountNumber || Js.falsy_str bankCode then
    BankNext (mkAppError (Msg "Account number and bank code are required") 400)
  else
    match bankResolve co (default "" accountNumber) (default "" bankCode) with
    | inl e => BankNext (gatewayAppError e)
    | inr response =>
        if negb (resolve_status response) then
          BankNext (mkAppError (Msg "Bank account verification failed") 400)
        else
          match resolve_data response with
          | None => BankNext (gatewayAppError accountTypeError)
          | Some (name, number) => AccountVerified 200 name number
          end
    end.

(** ** models/donation.model.ts: [getTotalDonations] *)

(** The document the aggregation returns. *)
Record Totals := mkTotals {
  totals_id : ObjectId;
  totalAmount : Js.number;
  totalDonations : Z
}.

(** The [$match] stage: the donations of the event that are completed. *)
Definition completedOf (eventId : ObjectId) (l : list Donation)
  : list Donation :=
  filter (λ d, Z.eqb (event d) eventId && Status_eqb (status d) completed = true)
    l.

(** [Donation.getTotalDonations(eventId)].  The store's accumulator [$sum]
    over the amounts is [sum]; the count is [$sum: 1]. *)
Definition getTotalDonations (sum : list Js.number → Js.number)
    (eventId : ObjectId) (l : list Donation) : option Totals :=
  match completedOf eventId l with
  | [] => None
  | d :: ds =>
      Some (mkTotals eventId (sum (amount <$> d :: ds))
              (Z.of_nat (length (d :: ds))))
  end.

(** ** controllers/event.controller.ts: [deleteEvent] *)

(** An event document with the fields [deleteEvent] reads besides those of
    [Event]: the populated creator ([None] when the user no longer exists)
    and the start date. *)
Record EventDoc := mkEventDoc {
  doc_event : Event;
  doc_creator : option ObjectId;
  doc_startDate : Date
}.

Inductive DeleteResponse :=
| Deleted (code : Z)
| DeleteNext (e : AppError)
| DeleteThrowJs (e : JsError).

Definition creatorTypeError : JsError :=
  mkJsError None "Cannot read properties of null (reading '_id')".

(** [deleteEvent]: [eventId] is [req.params.id], a well-formed identifier,
    and [now] the time read for the start check.  [afterDelete] is the
    outcome of the model's hook after [findOneAndDelete] (the image and the
    responses of the event are removed elsewhere): an error it raises is
    thrown out of the handler, after the event is deleted.  The result
    carries the event collection. *)
Definition deleteEvent (sum : list Js.number → Js.number)
    (afterDelete : EventDoc → option JsError) (user : LocalsUser)
    (eventId : ObjectId) (now : Date) (docs : list EventDoc)
    (l : list Donation) : DeleteResponse * list EventDoc :=
  match list_find (λ e, ev_id (doc_event e) = eventId) docs with
  | None => (DeleteNext (mkAppError (Msg "Event not found") 404), docs)
  | Some (i, ev) =>
      match doc_creator ev with
      | None => (DeleteThrowJs creatorTypeError, docs)
      | Some creator =>
          if negb (Z.eqb creator (user_id user))
             && negb (String.eqb (user_role user) "admin")
          then
            (DeleteNext
               (mkAppError
                  (Msg "You do not have permission to delete this event.") 403),
             docs)
          else if Z.eqb creator (user_id user)
                  && match getTotalDonations sum (ev_id (doc_event ev)) l with
                     | Some t => (0 <? totalDonations t)%Z
                     | None => false
                     end
          then
            (DeleteNext
               (mkAppError
                  (Msg "Cannot delete event with active donations. Please contact support.")
                  403),
             docs)
          else if Z.eqb creator (user_id user) && (doc_startDate ev <=? now)%Z
          then
            (DeleteNext
               (mkAppError
                  (Msg "Cannot delete event that has already started. Please contact support.")
                  403),
             docs)
          else
            (match afterDelete ev with
             | Some e => DeleteThrowJs e
             | None => Deleted 204
             end,
             delete i docs)
      end
  end.

(** ** models/event.model.ts: the virtual [status] *)

Inductive EventStatus := upcoming | ongoing | over.

(** The status of an event with the given start and end at the time [now];
    [over] is the status the code names ["completed"]. *)
Definition eventStatus (now startDate endDate : Date) : EventStatus :=
  if (now <? startDate)%Z then upcoming
  else if (startDate <=? now)%Z && (now <=? endDate)%Z then ongoing
  else over.

(** ** models/userToken.model.ts *)

Module Tokens.

Inductive TokenType := password_reset | email_verification.

Definition TokenType_eqb (a b : TokenType) : bool :=
  match a, b with
  | password_reset, password_reset
  | email_verification, email_verification => true
  | _, _ => false
  end.

(** A token document; [tk_token] is the hash of the token sent. *)
Record UserToken := mkUserToken {
  tk_id : ObjectId;
  tk_user : ObjectId;
  tk_token : string;
  tk_type : TokenType;
  tk_expiresAt : Date;
  tk_attempts : Z;
  tk_lastSentAt : option Date
}.

(** The two queries on users the model makes; both see active users
    only. *)
Record Users := mkUsers {
  findById : ObjectId → bool;
  findByEmail : string → option ObjectId
}.

(** [isExpired()]: [now] is the time read. *)
Definition isExpired (d : UserToken) (now : Date) : bool :=
  (tk_expiresAt d <? now)%Z.

(** [checkAttempts(maxAttempts)]. *)
Definition checkAttempts (d : UserToken) (maxAttempts : Z) : bool :=
  (maxAttempts <=? tk_attempts d)%Z.

(** The filter [{ user, type }]. *)
Definition byUserType (uid : ObjectId) (ty : TokenType) (d : UserToken)
  : bool :=
  Z.eqb (tk_user d) uid && TokenType_eqb (tk_type d) ty.

Definition findOne (uid : ObjectId) (ty : TokenType) (l : list UserToken)
  : option (nat * UserToken) :=
  list_find (λ d, byUserType uid ty d = true) l.

(** [deleteMany(q)]: the documents that do not match stay. *)
Definition deleteMany (q : UserToken → bool) (l : list UserToken)
  : list UserToken :=
  filter (λ d, q d = false) l.

(** [deleteOne({ _id })] and the [save()] of a changed document: the first
    document with the identifier is removed, or replaced. *)
Definition deleteOne (id : ObjectId) (l : list UserToken) : list UserToken :=
  match list_find (λ d, tk_id d = id) l with
  | Some (i, _) => delete i l
  | None => l
  end.

Definition save (d : UserToken) (l : list UserToken) : list UserToken :=
  match list_find (λ x, tk_id x = tk_id d) l with
  | Some (i, _) => <[i := d]> l
  | None => l
  end.

Definition freshId (l : list UserToken) : ObjectId :=
  1 + foldr Z.max 0 (tk_id <$> l).

Definition userNotFound : AppError := mkAppError (Msg "User not found") 404.

Definition sentRecently : AppError :=
  mkAppError
    (Msg "Token was sent recently. Please wait before requesting a new one.")
    429.

Definition invalidOrExpired : AppError :=
  mkAppError (Msg "Invalid or expired token") 400.

Definition tokenInvalid : AppError := mkAppError (Msg "Token is invalid") 400.

Definition validationFailed : JsError :=
  mkJsError None "UserToken validation failed".

(** [oldToken?.lastSentAt && now - oldToken.lastSentAt < 60000]. *)
Definition recentlySent (oldToken : option UserToken) (now : Date) : bool :=
  match oldToken with
  | Some d =>
      match tk_lastSentAt d with
      | Some t => (now - t <? 60000)%Z
      | None => false
      end
  | None => false
  end.

(** [createToken(userId, type, expirationMinutes)].  [hash] is SHA-256 in
    hexadecimal, [raw] the token generated (six digits for an email
    verification, 64 hexadecimal digits otherwise), and [now1], [now2],
    [now3] the three readings of the clock: for the recent-token check, the
    expiry and [lastSentAt].  The old tokens are deleted before the new one
    is created; the creation is refused when the expiry is not a valid date
    or the hash is empty (the schema's validation) or when the hash is
    already stored (the unique index). *)
Definition createToken (hash : string → string) (us : Users)
    (userId : ObjectId) (ty : TokenType) (expirationMinutes : Z)
    (now1 now2 now3 : Date) (raw : string) (l : list UserToken)
  : Result string * list UserToken :=
  if negb (findById us userId) then (ThrowApp userNotFound, l)
  else if recentlySent (snd <$> findOne userId ty l) now1 then
    (ThrowApp sentRecently, l)
  else
    let expiresAt := now2 + expirationMinutes * 60 * 1000 in
    let rest := deleteMany (byUserType userId ty) l in
    if negb (Z.abs expiresAt <=? maxTimeValue)%Z || String.eqb (hash raw) ""
    then (ThrowJs validationFailed, rest)
    else if existsb (λ d, String.eqb (tk_token d) (hash raw)) rest then
      (ThrowJs duplicateKey, rest)
    else
      (Ok raw,
       (rest ++ [mkUserToken (freshId rest) userId (hash raw) ty expiresAt 0
                   (Some now3)])%list).

(** [verifyToken(token, type, email)]; [now] is the time [isExpired]
    reads. *)
Definition verifyToken (hash : string → string) (us : Users)
    (token : string) (ty : TokenType) (email : string) (now : Date)
    (l : list UserToken) : Result unit * list UserToken :=
  match findByEmail us email with
  | None => (ThrowApp userNotFound, l)
  | Some uid =>
      match findOne uid ty l with
      | None => (ThrowApp invalidOrExpired, l)
      | Some (_, tokenDoc) =>
          if isExpired tokenDoc now || checkAttempts tokenDoc 5 then
            (ThrowApp invalidOrExpired, l)
          else if negb (String.eqb (tk_token tokenDoc) (hash token)) then
            (ThrowApp tokenInvalid,
             save (mkUserToken (tk_id tokenDoc) (tk_user tokenDoc)
                     (tk_token tokenDoc) (tk_type tokenDoc)
                     (tk_expiresAt tokenDoc) (tk_attempts tokenDoc + 1)
                     (tk_lastSentAt tokenDoc)) l)
          else (Ok tt, deleteOne (tk_id tokenDoc) l)
      end
  end.

(** [deleteUserTokens(userId, type?)]. *)
Definition deleteUserTokens (userId : ObjectId) (ty : option TokenType)
    (l : list UserToken) : list UserToken :=
  deleteMany
    (λ d, Z.eqb (tk_user d) userId
          && match ty with
             | Some t => TokenType_eqb (tk_type d) t
             | None => true
             end) l.

(** [cleanupExpired()]: the collection and [result.deletedCount || 0]. *)
Definition cleanupExpired (now : Date) (l : list UserToken)
  : list UserToken * Z :=
  let rest := deleteMany (λ d, (tk_expiresAt d <? now)%Z) l in
  (rest, Z.of_nat (length l - length rest)).

End Tokens.

(** * The vocabulary of the properties *)

(** ** Inputs of the handlers that pass their checks *)

(** The gateway verifies [ref] as a successful chip-in payment. *)
Definition verifiedChipin (gw : Gateway) (ref : string) (pd : PaymentData)
    (md : PaymentMetadata) : Prop :=
  transactionVerify gw ref = inr pd
  ∧ pd_status pd = "success"
  ∧ pd_metadata pd = Some md
  ∧ pm_type md = Some "chipin".

(** The webhook request carries the signature the handler computes, the
    event [charge.success] and the reference [ref]. *)
Definition authentic (rt : Runtime) (req : WebhookRequest) (ref : string)
  : Prop :=
  x_paystack_signature req = Some (computedHash rt req)
  ∧ p_event (body req) = Some "charge.success"
  ∧ p_data (body req) = Some (mkPayloadData ref).

(** The two entry points of a completion. *)
Inductive Path := ViaWebhook | ViaVerify.

Definition complete (p : Path) (rt : Runtime) (gw : Gateway)
    (req : WebhookRequest) (ref : string) (db : Db) : Response * Db :=
  match p with
  | ViaWebhook => paystackWebhook rt gw req db
  | ViaVerify => verifyPayment gw (Some ref) db
  end.

(** The completion write both handlers issue. *)
Definition completionWrite (ref : string) (gr : option string)
    (l : list Donation) : list Donation :=
  fst (Store.findOneAndUpdate (byReference ref) (completionUpdate ref gr) l).

(** The error of the amount check. *)
Definition amountMismatch : AppError :=
  mkAppError (Msg "Payment amount mismatch") 400.

(** The change a chip-in branch makes. *)
Definition completeOnce (ref : string) (gr : option string) (db : Db) : Db :=
  if alreadyCompleted (Store.findOne (byReference ref) (donations db))
  then db
  else set_donations (completionWrite ref gr (donations db)) db.

(** ** The job as a transformation of the collection *)

(** What a page of the job does to the collection when identifiers are
    unique: every match of the batch query is settled at [now]. *)
Definition settle (references : list string) (now : Date) (l : list Donation)
  : list Donation :=
  (λ d, if matches (settlementFilter references) d
        then applyUpdate (settleUpdate now) d else d) <$> l.

(** [settled l l']: [l'] is [l] after some pages of the job. *)
Inductive settled (l : list Donation) : list Donation → Prop :=
| settled_refl : settled l l
| settled_step l' references now :
    settled l l' → settled l (settle references now l').

(** ** Reachable states and their invariant *)

(** What holds of every stored donation. *)
Record wellFormed (d : Donation) : Prop := mkWellFormed {
  wf_payout : isPayoutEligible d = true → status d = completed;
  wf_settledAt : isPayoutEligible d = true → is_Some (settledAt d);
  wf_metadata : status d = completed →
                gateway (metadata d) = Some "paystack"
                ∧ transactionId (metadata d) = paymentReference d;
  wf_status : status d = pending ∨ status d = completed;
  wf_fee : fee d = Some (calculateFee (amount d))
}.

Definition consistent (l : list Donation) : Prop :=
  NoDup (_id <$> l) ∧ Forall wellFormed l.

(** One operation of the subsystem: a donation is created, one of the two
    handlers answers a request, or the job runs.  Other controllers may
    change the event collection. *)
Inductive step : Db → Db → Prop :=
| step_create ev uid amt ref db r db' :
    Donation_create ev uid amt ref db = (r, db') → step db db'
| step_verify gw reference db r db' :
    verifyPayment gw reference db = (r, db') → step db db'
| step_webhook rt gw req db r db' :
    paystackWebhook rt gw req db = (r, db') → step db db'
| step_reconcile fuel txnFuel env db reads o db' total reads' :
    runPaystackSettlementReconcile fuel txnFuel env db reads
    = (o, db', total, reads') →
    step db db'
| step_events es db :
    step db (mkDb (donations db) es (jobs db)).

(** The states reached from a database without donations. *)
Inductive reachable : Db → Prop :=
| reachable_initial db : donations db = [] → reachable db
| reachable_step db db' : reachable db → step db db' → reachable db'.

(** ** The window and the pages of a run *)

(** The start of the window, by the rule of the job. *)
Definition windowRule (env : JobEnv) (db : Db) (reads : nat) : JsError + Date :=
  toISOString
    match Job.getLastRun jobName (jobs db) with
    | Some t => Some t
    | None =>
        (λ days, clock env reads - days * 86400000)
          <$> DEFAULT_LOOKBACK_DAYS (SETTLEMENT_LOOKBACK_DAYS env)
    end.

(** The pages of references a loop queries, and how it ends: both depend on
    the answers of the gateway only, not on the database. *)
Definition pageReferences (txns : list SettlementTxn) : list (list string) :=
  match validReferences txns with
  | [] => []
  | references => [references]
  end.

Fixpoint txnTrace (fuel : nat)
    (tp : Z → Z → JsError + option (list SettlementTxn))
    (settlementId txnPage : Z) : Outcome * list (list string) :=
  match fuel with
  | O => (OutOfFuel, [])
  | S fuel' =>
      match tp settlementId txnPage with
      | inl e => (Raised e, [])
      | inr None | inr (Some []) => (Finished, [])
      | inr (Some txns) =>
          if (Z.of_nat (length txns) <? 100)%Z
          then (Finished, pageReferences txns)
          else
            let rest := txnTrace fuel' tp settlementId (txnPage + 1) in
            (fst rest, (pageReferences txns ++ snd rest)%list)
      end
  end.

Fixpoint forTrace (txnFuel : nat)
    (tp : Z → Z → JsError + option (list SettlementTxn))
    (settlements : list Settlement) : Outcome * list (list string) :=
  match settlements with
  | [] => (Finished, [])
  | s :: rest =>
      match txnTrace txnFuel tp (settlement_id s) 1 with
      | (Finished, pages) =>
          let more := forTrace txnFuel tp rest in
          (fst more, (pages ++ snd more)%list)
      | stopped => stopped
      end
  end.

Fixpoint settlementTrace (fuel txnFuel : nat)
    (sp : Z → JsError + option (list Settlement))
    (tp : Z → Z → JsError + option (list SettlementTxn))
    (page : Z) : Outcome * list (list string) :=
  match fuel with
  | O => (OutOfFuel, [])
  | S fuel' =>
      match sp page with
      | inl e => (Raised e, [])
      | inr None | inr (Some []) => (Finished, [])
      | inr (Some settlements) =>
          match forTrace txnFuel tp settlements with
          | (Finished, pages) =>
              if (Z.of_nat (length settlements) <? 50)%Z
              then (Finished, pages)
              else
                let more := settlementTrace fuel' txnFuel sp tp (page + 1) in
                (fst more, (pages ++ snd more)%list)
          | stopped => stopped
          end
      end
  end.

(** No donation matches the batch query for [references]. *)
Definition quiet (references : list string) (l : list Donation) : Prop :=
  Forall (λ d, matches (settlementFilter references) d = false) l.

(** A page after which a loop stops: an error, no data, or fewer entries
    than the page size. *)
Definition lastTxnPage (gw : Gateway) (sid page : Z) : bool :=
  match listSettlementTransactions gw sid page with
  | inr (Some txns) => (Z.of_nat (length txns) <? 100)%Z
  | inl _ | inr None => true
  end.

Definition lastSettlementPage (gw : Gateway) (from : Date) (page : Z) : bool :=
  match listSettlements gw from page with
  | inr (Some settlements) => (Z.of_nat (length settlements) <? 50)%Z
  | inl _ | inr None => true
  end.

(** ** Interleaved executions *)

(** The handlers and the job are asynchronous: between two store operations
    of one of them, operations of the others may run.  On the donation
    collection the operations are the insert of a new donation, the
    completion write, the batch query of the job, and each [updateOne] of
    its bulk write, for a donation the query returned.  [queried] holds the
    identifiers the last batch query returned. *)
Record Sys := mkSys {
  stored : list Donation;
  queried : list ObjectId
}.

Inductive atomic : Sys → Sys → Prop :=
| atomic_insert id ev uid amt ref s :
    id ∉ _id <$> stored s →
    atomic s
      (mkSys (stored s ++ [setFee (calculateFee amt) (newDonation id ev uid amt ref)])
         (queried s))
| atomic_complete ref gr s :
    atomic s (mkSys (completionWrite ref gr (stored s)) (queried s))
| atomic_query references s :
    atomic s
      (mkSys (stored s)
         (_id <$> Store.find (settlementFilter references) (stored s)))
| atomic_settle id now s :
    id ∈ queried s →
    atomic s
      (mkSys (Store.updateOne (byId id, settleUpdate now) (stored s))
         (queried s)).

(** The invariant of interleaved executions: the stored donations are
    consistent, and a queried identifier is the identifier of a completed
    donation. *)
Definition steady (s : Sys) : Prop :=
  consistent (stored s)
  ∧ ∀ id, id ∈ queried s →
      ∃ d, d ∈ stored s ∧ _id d = id ∧ status d = completed.

(** ** Concrete data: the end-to-end scenarios *)

Module Scenario.

Definition ref : string := "CHIP-IN_1000_abc".

Definition party : Event :=
  mkEvent 1 "House party" "house-party-0001" "party.png"
    (mkHost "Ada" "ada@example.com" None) true
    (Some (mkChipInDetails donation None None (Some 1000%float))).

(** The donation of scenario B after creation: amount 5000, fee 150. *)
Definition created : Donation :=
  {| _id := 1; event := 1; userId := 7; amount := 5000%float;
     currency := "NGN"; fee := Some 150%float; settledAt := None;
     status := pending; payoutStatus := payout_pending;
     paymentReference := Some ref; metadata := noMetadata;
     isPayoutEligible := false |}.

Definition paid (gr : option string) : Donation :=
  applyUpdate (completionUpdate ref gr) created.

Definition db0 : Db := mkDb [created] [party] ∅.

Definition chipinMetadata : PaymentMetadata :=
  mkPaymentMetadata (Some "chipin") 5000%float 150%float.

Definition verified (amt : Js.number) : PaymentData :=
  mkPaymentData "success" amt (Some "Successful") (Some chipinMetadata).

Definition noSettlements : Date → Z → JsError + option (list Settlement) :=
  λ _ _, inr (Some []).

Definition noTransactions : Z → Z → JsError + option (list SettlementTxn) :=
  λ _ _, inr (Some []).

(** A gateway that verifies every reference with the amount [amt]. *)
Definition gatewayPaying (amt : Js.number) : Gateway :=
  mkGateway (λ _, inr (verified amt)) noSettlements noTransactions.

(** A runtime whose keyed hash is a stand-in (the key followed by the
    message) and whose serialisation writes the two fields read here. *)
Definition quote : string := String "034"%char "".

Definition quoted (s : string) : string := quote +:+ s +:+ quote.

Definition stringify (p : Payload) : string :=
  "{" +:+ quoted "event" +:+ ":" +:+ quoted (default "" (p_event p))
  +:+ "," +:+ quoted "data" +:+ ":{" +:+ quoted "reference" +:+ ":"
  +:+ quoted (from_option reference "" (p_data p)) +:+ "}}".

Definition runtime : Runtime :=
  mkRuntime "sk_test" (λ key msg, key +:+ "." +:+ msg) stringify.

Definition chargeSuccess : Payload :=
  mkPayload (Some "charge.success") (Some (mkPayloadData ref)).

(** A request signed over the serialisation the handler recomputes. *)
Definition request : WebhookRequest :=
  mkWebhookRequest (stringify chargeSuccess) chargeSuccess
    (Some ("sk_test" +:+ "." +:+ stringify chargeSuccess)).

End Scenario.

(** The body of [Scenario.request] as a sender may write it, with a space
    after each colon, and the request signed over these bytes. *)
Definition spacedBody : string :=
  "{" +:+ Scenario.quoted "event" +:+ ": " +:+ Scenario.quoted "charge.success"
  +:+ ", " +:+ Scenario.quoted "data" +:+ ": {" +:+ Scenario.quoted "reference"
  +:+ ": " +:+ Scenario.quoted Scenario.ref +:+ "}}".

Definition spacedRequest : WebhookRequest :=
  mkWebhookRequest spacedBody Scenario.chargeSuccess
    (Some ("sk_test" +:+ "." +:+ spacedBody)).

(** An event with a fixed chip-in amount. *)
Definition fixedParty : Event :=
  mkEvent 2 "Dinner" "dinner-0002" "dinner.png"
    (mkHost "Bo" "bo@example.com" None) true
    (Some (mkChipInDetails fixed (Some 2500%float) None None)).

(** ** Scenario C: a run of the job *)

Module ScenarioC.

Definition settlementsFrom (first count : nat) : list Settlement :=
  (λ n, mkSettlement (Z.of_nat n)) <$> seq first count.

(** Two pages of settlements, of 50 and 30 entries. *)
Definition settlementsPage (from : Date) (page : Z)
  : JsError + option (list Settlement) :=
  if (page =? 1)%Z then inr (Some (settlementsFrom 1 50))
  else if (page =? 2)%Z then inr (Some (settlementsFrom 51 30))
  else inr (Some []).

(** Settlement 1 holds the transaction of the donation and one without a
    reference; the other settlements are empty. *)
Definition transactionsPage (sid page : Z)
  : JsError + option (list SettlementTxn) :=
  if (sid =? 1)%Z && (page =? 1)%Z
  then inr (Some [mkSettlementTxn (Some Scenario.ref); mkSettlementTxn None])
  else inr (Some []).

Definition gateway : Gateway :=
  mkGateway (λ _, inr (Scenario.verified 515000%float))
    settlementsPage transactionsPage.

Definition clock (n : nat) : Date := 1700000000000 + 1000 * Z.of_nat n.

Definition env : JobEnv := mkJobEnv gateway clock None.

Definition dbPaid : Db :=
  mkDb [Scenario.paid (Some "Successful")] [Scenario.party] ∅.

Definition settledDonation : Donation :=
  applyUpdate (settleUpdate (clock 1)) (Scenario.paid (Some "Successful")).

Definition dbSettled : Db :=
  mkDb [settledDonation] [Scenario.party] {[ jobName := Some (clock 2) ]}.

(** A gateway whose settlement list fails. *)
Definition failing : Gateway :=
  mkGateway (λ _, inr (Scenario.verified 515000%float))
    (λ _ _, inl (mkJsError None "timeout of 30000ms exceeded"))
    transactionsPage.

Definition failingEnv : JobEnv := mkJobEnv failing clock None.

End ScenarioC.

(** ** Creation and counting *)

(** The donation [chipin] stores. *)
Definition chipinDonation (user : LocalsUser) (amt : Js.number)
    (eventId : ObjectId) (now : Date) (hex : string) (db : Db) : Donation :=
  setFee (calculateFee amt)
    (newDonation (freshId (donations db)) eventId (user_id user) amt
       (chipinReference now hex)).

(** [totalDonations] of the aggregation, 0 when it returns [null]. *)
Definition donationCount (sum : list Js.number → Js.number)
    (eventId : ObjectId) (l : list Donation) : Z :=
  match getTotalDonations sum eventId l with
  | Some t => totalDonations t
  | None => 0
  end.

(** ** Sample checkout *)


Definition ada : LocalsUser := mkLocalsUser 7 "ada@example.com" "user".

(** A gateway that accepts every initialisation. *)
Definition payingCheckout : Checkout :=
  mkCheckout
    (λ _, inr (mkInitResponse (Some true)
                 (Some (Some "https://checkout.paystack.com/abc"))))
    (λ _ _, inr (mkResolveResponse true
                   (Some (Some "ADA OBI", Some "0001234567")))).

(** ** Sample answers and databases *)

(** The data of the answer for the paid donation of scenario B. *)
Definition paidData : FormattedData :=
  mkFormattedData (Scenario.paid (Some "Successful"))
    (mkEventView "House party" "house-party-0001" "party.png"
       "Ada" "ada@example.com" None).

(** The database of scenario B after the event has been deleted. *)
Definition orphanDb : Db := mkDb [Scenario.created] [] ∅.

(** ** What a handler may change *)

(** [d'] is [d] or [d] completed: no field but the status and the metadata
    differs, and a change sets the status to completed and the metadata to
    the gateway and the donation's own reference. *)
Definition sameOrCompleted (d d' : Donation) : Prop :=
  _id d' = _id d ∧ event d' = event d ∧ userId d' = userId d
  ∧ amount d' = amount d ∧ currency d' = currency d ∧ fee d' = fee d
  ∧ settledAt d' = settledAt d ∧ payoutStatus d' = payoutStatus d
  ∧ paymentReference d' = paymentReference d
  ∧ isPayoutEligible d' = isPayoutEligible d
  ∧ (d' = d
     ∨ status d' = completed
       ∧ gateway (metadata d') = Some "paystack"
       ∧ transactionId (metadata d') = paymentReference d).

(** [db'] differs from [db] in at most one donation, which is completed. *)
Definition completionFrame (db db' : Db) : Prop :=
  events db' = events db
  ∧ jobs db' = jobs db
  ∧ length (donations db') = length (donations db)
  ∧ (∃ i, ∀ j, j ≠ i → donations db' !! j = donations db !! j)
  ∧ ∀ i d d', donations db !! i = Some d → donations db' !! i = Some d' →
              sameOrCompleted d d'.

(** ** What a run of the job may change *)

(** The identifiers of the donations a run holds are unique. *)
Definition uniqueIds (st : JobState) : Prop := NoDup (_id <$> js_donations st).

(** The number of payout-eligible donations. *)
Definition eligibleCount (l : list Donation) : nat :=
  length (filter (λ d, isPayoutEligible d = true) l).

(** [totalReconciled] counts the donations that became payout-eligible. *)
Definition counted (st st' : JobState) : Prop :=
  totalReconciled st' - totalReconciled st
  = Z.of_nat (eligibleCount (js_donations st'))
    - Z.of_nat (eligibleCount (js_donations st)).

(** [d'] is [d], or [d] settled at the [n]-th reading of the clock, for a
    donation the batch query matches. *)
Definition sameOrSettled (clk : nat → Date) (lo hi : nat) (d d' : Donation)
  : Prop :=
  d' = d
  ∨ (status d = completed
     ∧ isPayoutEligible d = false
     ∧ payoutStatus d = payout_pending
     ∧ gateway (metadata d) = Some "paystack"
     ∧ ∃ n, (lo ≤ n < hi)%nat ∧ d' = applyUpdate (settleUpdate (clk n)) d).

Definition settlementFrame (clk : nat → Date) (st st' : JobState) : Prop :=
  (clockReads st ≤ clockReads st')%nat
  ∧ ∀ i d, js_donations st !! i = Some d →
      ∃ d', js_donations st' !! i = Some d'
            ∧ sameOrSettled clk (clockReads st) (clockReads st') d d'.

(** A sample accumulator: the sum from the left, starting at 0. *)
Definition sumLeft (l : list Js.number) : Js.number :=
  fold_left PrimFloat.add l 0%float.

(** ** Deleting an event *)

(** The rule of [deleteEvent]: the creator may delete an event that has no
    completed donation and has not started; another user must be an
    administrator. *)
Definition mayDelete (user : LocalsUser) (now : Date) (ev : EventDoc)
    (creator : ObjectId) (l : list Donation) : Prop :=
  (creator = user_id user
   ∧ completedOf (ev_id (doc_event ev)) l = []
   ∧ now < doc_startDate ev)
  ∨ (creator ≠ user_id user ∧ user_role user = "admin").

(** A hook that succeeds. *)
Definition quietHook : EventDoc → option JsError := λ _, None.

(** The event of scenario B, created by the user who pays. *)
Definition partyDoc : EventDoc := mkEventDoc Scenario.party (Some 7) 5000.

(** A job whose lookback setting is not a number. *)
Definition misconfigured : JobEnv :=
  mkJobEnv ScenarioC.gateway ScenarioC.clock (Some "one").

(** ** The course of an event *)

Definition statusRank (s : EventStatus) : Z :=
  match s with
  | upcoming => 0
  | ongoing => 1
  | over => 2
  end.

(** ** Tokens *)

(** The tokens of one user and type. *)
Definition tokensOf (uid : ObjectId) (ty : Tokens.TokenType)
    (l : list Tokens.UserToken) : list Tokens.UserToken :=
  filter (λ d, Tokens.byUserType uid ty d = true) l.

(** No user holds two tokens of one type. *)
Definition atMostOne (l : list Tokens.UserToken) : Prop :=
  ∀ uid ty, (length (tokensOf uid ty l) ≤ 1)%nat.

(** A sequence of attempts to verify, each with the token tried and the time
    of the attempt: the collection after the last. *)
Definition attempt (hash : string → string) (us : Tokens.Users)
    (ty : Tokens.TokenType) (email : string) (l : list Tokens.UserToken)
    (a : string * Date) : list Tokens.UserToken :=
  snd (Tokens.verifyToken hash us (fst a) ty email (snd a) l).

Definition attempts (hash : string → string) (us : Tokens.Users)
    (ty : Tokens.TokenType) (email : string) (tries : list (string * Date))
    (l : list Tokens.UserToken) : list Tokens.UserToken :=
  fold_left (attempt hash us ty email) tries l.

(** A token document with another count of attempts. *)
Definition withAttempts (n : Z) (d : Tokens.UserToken) : Tokens.UserToken :=
  Tokens.mkUserToken (Tokens.tk_id d) (Tokens.tk_user d) (Tokens.tk_token d)
    (Tokens.tk_type d) (Tokens.tk_expiresAt d) n (Tokens.tk_lastSentAt d).

Module TokenScenario.

(** A stand-in for the hash, and one active user. *)
Definition hash (s : string) : string := "#" +:+ s.

Definition users : Tokens.Users :=
  Tokens.mkUsers (λ id, (id =? 7)%Z)
    (λ email, if String.eqb email "ada@example.com" then Some 7 else None).

(** The token of the user after [createToken] at the times 1000, 1001 and
    1002, valid for 10 minutes. *)
Definition otp : Tokens.UserToken :=
  Tokens.mkUserToken 1 7 (hash "493817") Tokens.email_verification 601001 0
    (Some 1002).

End TokenScenario.

(** The invariant of the token collection. *)
Definition tokensConsistent (l : list Tokens.UserToken) : Prop :=
  NoDup (Tokens.tk_id <$> l) ∧ atMostOne l.

(** * Properties *)

(** ** Basic facts on strings and the store *)

Lemma str_is_Some (s lit : string) : Js.str_is (Some s) lit = true ↔ s = lit.
Proof. apply String.eqb_eq. Qed.


Lemma matches_byReference (ref : string) (d : Donation) :
  matches (byReference ref) d = Js.str_is (paymentReference d) ref.
Proof.
  unfold matches, byReference; simpl. by rewrite !andb_true_r.
Qed.

Lemma findOne_Some (q : DonationFilter) (l : list Donation) i d :
  Store.findOne q l = Some (i, d) → l !! i = Some d ∧ matches q d = true.
Proof. unfold Store.findOne. by intros (? & ? & _)%list_find_Some. Qed.

Lemma findOne_None (q : DonationFilter) (l : list Donation) :
  Store.findOne q l = None → Forall (λ d, matches q d = false) l.
Proof.
  unfold Store.findOne. intros H%list_find_None.
  eapply Forall_impl; [exact H|]. intros d Hd; simpl in Hd.
  by destruct (matches q d).
Qed.

Lemma findOneAndUpdate_None (q : DonationFilter) u (l : list Donation) :
  Store.findOne q l = None → Store.findOneAndUpdate q u l = (l, None).
Proof. unfold Store.findOneAndUpdate. by intros ->. Qed.

Lemma findOneAndUpdate_Some (q : DonationFilter) u (l : list Donation) i d :
  Store.findOne q l = Some (i, d) →
  Store.findOneAndUpdate q u l = (<[i := applyUpdate u d]> l, Some (applyUpdate u d)).
Proof. unfold Store.findOneAndUpdate. by intros ->. Qed.

(** An update that keeps the document a match of the filter leaves it the
    first match. *)
Lemma findOne_after_update (q : DonationFilter) u (l : list Donation) i d :
  Store.findOne q l = Some (i, d) →
  matches q (applyUpdate u d) = true →
  Store.findOne q (<[i := applyUpdate u d]> l) = Some (i, applyUpdate u d).
Proof.
  unfold Store.findOne. intros (Hi & Hm & Hleast)%list_find_Some Hm'.
  apply list_find_Some. split_and!.
  - rewrite list_lookup_insert_eq; [done|]. by eapply lookup_lt_Some.
  - done.
  - intros j y Hj Hlt. rewrite list_lookup_insert_ne in Hj by lia. eauto.
Qed.

Lemma applyUpdate_completion_reference ref gr d :
  paymentReference (applyUpdate (completionUpdate ref gr) d) = paymentReference d.
Proof. done. Qed.

Lemma completionWrite_found ref gr (l : list Donation) i d :
  Store.findOne (byReference ref) l = Some (i, d) →
  completionWrite ref gr l = <[i := applyUpdate (completionUpdate ref gr) d]> l
  ∧ Store.findOne (byReference ref) (completionWrite ref gr l)
    = Some (i, applyUpdate (completionUpdate ref gr) d).
Proof.
  intros Hf. unfold completionWrite.
  rewrite (findOneAndUpdate_Some _ _ _ _ _ Hf); simpl. split; [done|].
  apply findOne_after_update; [done|].
  rewrite matches_byReference, applyUpdate_completion_reference.
  rewrite <- matches_byReference. by apply findOne_Some in Hf as [_ ?].
Qed.

Lemma completionWrite_missing ref gr (l : list Donation) :
  Store.findOne (byReference ref) l = None → completionWrite ref gr l = l.
Proof.
  intros Hf. unfold completionWrite. by rewrite findOneAndUpdate_None.
Qed.

Lemma set_donations_id (db : Db) : set_donations (donations db) db = db.
Proof. by destruct db. Qed.

(** ** The handlers on inputs that pass their checks *)

Lemma verifyPayment_chipin gw ref pd md db :
  ref ≠ "" →
  verifiedChipin gw ref pd md →
  Js.strict_ne (pd_amount pd) (expectedAmount md) = false →
  verifyPayment gw (Some ref) db = verifyChipin ref pd db.
Proof.
  intros Hne (Hv & Hs & Hm & Ht) Ha. unfold verifyPayment.
  destruct ref as [|c r]; [done|].
  rewrite Hv, Hs, Hm, Ha, Ht. done.
Qed.

Lemma paystackWebhook_chipin rt gw req ref pd md db :
  authentic rt req ref →
  verifiedChipin gw ref pd md →
  paystackWebhook rt gw req db
  = match webhookChipin ref pd db with
    | (Some r, db') => (r, db')
    | (None, db') => (SendStatus 200, db')
    end.
Proof.
  intros (Hsig & Hev & Hdata) (Hv & Hs & Hm & Ht). unfold paystackWebhook.
  rewrite Hsig, Hev, Hdata; simpl. rewrite String.eqb_refl; simpl.
  rewrite Hv, Hs, Hm, Ht. done.
Qed.

(** The state after either chip-in branch: untouched when the read finds the
    donation completed, the completion write otherwise. *)
Lemma webhookChipin_state ref pd db :
  snd (webhookChipin ref pd db)
  = if alreadyCompleted (Store.findOne (byReference ref) (donations db))
    then db
    else set_donations (completionWrite ref (gateway_response pd) (donations db)) db.
Proof. unfold webhookChipin. by case_match. Qed.

Lemma verifyChipin_state ref pd db :
  snd (verifyChipin ref pd db)
  = if alreadyCompleted (Store.findOne (byReference ref) (donations db))
    then db
    else set_donations (completionWrite ref (gateway_response pd) (donations db)) db.
Proof.
  unfold verifyChipin, completionWrite.
  destruct (alreadyCompleted _); [by repeat case_match|].
  destruct (Store.findOneAndUpdate _ _ _) as [l [d|]]; done.
Qed.



(** ** The scenarios A and B, evaluated *)

Module OnScenario.
Import Scenario.

Lemma ref_nonempty : ref ≠ "".
Proof. discriminate. Qed.

Lemma request_authentic : authentic runtime request ref.
Proof. by repeat split. Qed.

Lemma gateway_verifies amt :
  verifiedChipin (gatewayPaying amt) ref (verified amt) chipinMetadata.
Proof. by repeat split. Qed.

(** Scenario B: the fee of 5000 is 150 and the expected amount 515000. *)
Example fee_5000 : calculateFee 5000%float = 150%float.
Proof. reflexivity. Qed.

Example expected_515000 : expectedAmount chipinMetadata = 515000%float.
Proof. reflexivity. Qed.

Example verify_515000_accepted :
  verifyPayment (gatewayPaying 515000%float) (Some ref) db0
  = (formatResponse "chipin" (paid (Some "Successful"))
       (mkDb [paid (Some "Successful")] [party] ∅),
     mkDb [paid (Some "Successful")] [party] ∅).
Proof. reflexivity. Qed.

Example verify_514000_rejected :
  verifyPayment (gatewayPaying 514000%float) (Some ref) db0
  = (Next (mkAppError (Msg "Payment amount mismatch") 400), db0).
Proof. reflexivity. Qed.

(** Scenario A: the webhook completes the donation, the later verification
    returns the completed record and writes nothing. *)
Example webhook_then_verify :
  paystackWebhook runtime (gatewayPaying 515000%float) request db0
  = (SendStatus 200, mkDb [paid (Some "Successful")] [party] ∅)
  ∧ verifyPayment (gatewayPaying 515000%float) (Some ref)
      (mkDb [paid (Some "Successful")] [party] ∅)
    = (formatResponse "chipin" (paid (Some "Successful"))
         (mkDb [paid (Some "Successful")] [party] ∅),
       mkDb [paid (Some "Successful")] [party] ∅).
Proof. split; reflexivity. Qed.

End OnScenario.

(** ** Completion of a chip-in *)






(** On an amount that differs from the expected one, verify-payment stops
    at its status check or at its amount check. *)
Lemma verifyPayment_mismatch gw ref pd md db :
  ref ≠ "" →
  transactionVerify gw ref = inr pd →
  pd_metadata pd = Some md →
  Js.strict_ne (pd_amount pd) (expectedAmount md) = true →
  verifyPayment gw (Some ref) db
  = if String.eqb (pd_status pd) "success"
    then (Next amountMismatch, db)
    else (Next (mkAppError (Msg "Payment not successful") 400), db).
Proof.
  intros Hne Hv Hm Ha. unfold verifyPayment. destruct ref as [|c r]; [done|].
  rewrite Hv, Hm, Ha. by destruct (String.eqb _ _).
Qed.

(** C4: when the amount the gateway returns differs from
    [(originalAmount + transaction_fee) * 100], verify-payment answers with a
    400 error and leaves the database as it was, so a pending donation stays
    pending; for a successful transaction the error is the amount mismatch.
    The fee is [amount * 0.01 + 100]. *)
Theorem verifyPayment_amount_mismatch gw ref pd md db :
  ref ≠ "" →
  transactionVerify gw ref = inr pd →
  pd_metadata pd = Some md →
  Js.strict_ne (pd_amount pd)
    (PrimFloat.mul (PrimFloat.add (originalAmount md) (transaction_fee md))
       100%float) = true →
  snd (verifyPayment gw (Some ref) db) = db
  ∧ (∃ e, fst (verifyPayment gw (Some ref) db) = Next e ∧ statusCode e = 400)
  ∧ (pd_status pd = "success" →
       verifyPayment gw (Some ref) db = (Next amountMismatch, db))
  ∧ (∀ i d, donations db !! i = Some d → status d = pending →
       donations (snd (verifyPayment gw (Some ref) db)) !! i = Some d)
  ∧ (∀ amt, calculateFee amt
            = PrimFloat.add (PrimFloat.mul amt 0.01%float) 100%float).
Proof.
  intros Hne Hv Hm Ha.
  pose proof (verifyPayment_mismatch gw ref pd md db Hne Hv Hm Ha) as H.
  split_and!.
  - rewrite H. by destruct (String.eqb _ _).
  - rewrite H. destruct (String.eqb _ _); eexists; split; done.
  - intros Hs. by rewrite H, Hs.
  - intros i d Hi _. rewrite H. by destruct (String.eqb _ _).
  - done.
Qed.

Lemma verifyPayment_amount_mismatch_witness :
  verifyPayment (Scenario.gatewayPaying 514000%float) (Some Scenario.ref)
    Scenario.db0
  = (Next amountMismatch, Scenario.db0).
Proof.
  exact (proj1 (proj2 (proj2
    (verifyPayment_amount_mismatch (Scenario.gatewayPaying 514000%float)
       Scenario.ref (Scenario.verified 514000%float) Scenario.chipinMetadata
       Scenario.db0 OnScenario.ref_nonempty eq_refl eq_refl eq_refl))) eq_refl).
Defined.

(** C3 (the code at the failing input): for a successful chip-in
    transaction whose amount differs from the expected one and whose donation
    is pending, verify-payment rejects the payment and changes nothing, while
    the webhook, which makes no amount check, completes the donation and
    answers 200. *)
Theorem webhook_completes_what_verify_rejects rt gw req ref pd md db i d :
  ref ≠ "" →
  authentic rt req ref →
  verifiedChipin gw ref pd md →
  Js.strict_ne (pd_amount pd) (expectedAmount md) = true →
  Store.findOne (byReference ref) (donations db) = Some (i, d) →
  status d = pending →
  verifyPayment gw (Some ref) db = (Next amountMismatch, db)
  ∧ paystackWebhook rt gw req db
    = (SendStatus 200,
       set_donations
         (<[i := applyUpdate (completionUpdate ref (gateway_response pd)) d]>
            (donations db)) db).
Proof.
  intros Hne Hauth Hv Ha Hf Hs. split.
  - destruct Hv as (Hv & Hst & Hm & Ht).
    by rewrite (verifyPayment_mismatch gw ref pd md db Hne Hv Hm Ha), Hst.
  - rewrite (paystackWebhook_chipin _ _ _ _ _ _ _ Hauth Hv).
    unfold webhookChipin. rewrite Hf; simpl. rewrite Hs; simpl.
    by rewrite (findOneAndUpdate_Some _ _ _ _ _ Hf).
Qed.

Lemma webhook_completes_what_verify_rejects_witness :
  verifyPayment (Scenario.gatewayPaying 514000%float) (Some Scenario.ref)
    Scenario.db0
  = (Next amountMismatch, Scenario.db0)
  ∧ paystackWebhook Scenario.runtime (Scenario.gatewayPaying 514000%float)
      Scenario.request Scenario.db0
    = (SendStatus 200,
       mkDb [Scenario.paid (Some "Successful")] [Scenario.party] ∅).
Proof.
  exact (webhook_completes_what_verify_rejects Scenario.runtime
           (Scenario.gatewayPaying 514000%float) Scenario.request Scenario.ref
           (Scenario.verified 514000%float) Scenario.chipinMetadata
           Scenario.db0 0%nat Scenario.created OnScenario.ref_nonempty
           OnScenario.request_authentic (OnScenario.gateway_verifies 514000%float)
           eq_refl eq_refl eq_refl).
Defined.

(** When the amount matches, the two chip-in branches make the same change
    to the database. *)
Lemma chipin_branches_agree ref pd db :
  snd (verifyChipin ref pd db) = snd (webhookChipin ref pd db).
Proof. by rewrite verifyChipin_state, webhookChipin_state. Qed.

(** Whether a handler reaches its chip-in branch is decided by the request
    and the gateway, not by the database. *)
Lemma verifyPayment_decides gw reference :
  (∀ db, snd (verifyPayment gw reference db) = db)
  ∨ ∃ ref pd,
      reference = Some ref ∧ transactionVerify gw ref = inr pd
      ∧ ∀ db, snd (verifyPayment gw reference db)
              = completeOnce ref (gateway_response pd) db.
Proof.
  unfold verifyPayment.
  destruct reference as [[|c r]|]; [by left| |by left].
  destruct (transactionVerify gw _) as [e|pd] eqn:Hv; [by left|].
  destruct (negb _); [by left|].
  destruct (pd_metadata pd) as [md|]; [|by left].
  destruct (Js.strict_ne _ _); [by left|].
  destruct (Js.str_is (pm_type md) "chipin").
  - right. exists (String c r), pd. split_and!; [done..|].
    intros db. apply verifyChipin_state.
  - destruct (Js.str_is (pm_type md) "ticket"); by left.
Qed.

Lemma paystackWebhook_decides rt gw req :
  (∀ db, snd (paystackWebhook rt gw req db) = db)
  ∨ ∃ ref pd,
      p_data (body req) = Some (mkPayloadData ref)
      ∧ transactionVerify gw ref = inr pd
      ∧ ∀ db, snd (paystackWebhook rt gw req db)
              = completeOnce ref (gateway_response pd) db.
Proof.
  unfold paystackWebhook.
  destruct (_ || _); [by left|].
  destruct (p_data (body req)) as [[ref]|]; [|by left]. simpl.
  destruct (transactionVerify gw ref) as [e|pd] eqn:Hv; [by left|].
  destruct (negb _); [by left|].
  destruct (pd_metadata pd) as [md|]; [|by left].
  destruct (Js.str_is (pm_type md) "chipin").
  - right. exists ref, pd. split_and!; [done..|].
    intros db. unfold completeOnce. rewrite <- webhookChipin_state.
    by destruct (webhookChipin ref pd db) as [[r|] db'].
  - destruct (Js.str_is (pm_type md) "ticket"); by left.
Qed.

(** For one reference and one answer of the gateway, the database after
    both handlers have run does not depend on which ran first. *)
Lemma handlers_commute rt gw req ref db :
  p_data (body req) = Some (mkPayloadData ref) →
  snd (paystackWebhook rt gw req (snd (verifyPayment gw (Some ref) db)))
  = snd (verifyPayment gw (Some ref) (snd (paystackWebhook rt gw req db))).
Proof.
  intros Hdata.
  destruct (verifyPayment_decides gw (Some ref))
    as [Hv|(r1 & pd1 & Hr1 & Hv1 & Hv)];
    destruct (paystackWebhook_decides rt gw req)
      as [Hw|(r2 & pd2 & Hr2 & Hv2 & Hw)];
    rewrite ?Hv, ?Hw; try done.
  injection Hr1 as <-. rewrite Hdata in Hr2. injection Hr2 as <-.
  rewrite Hv1 in Hv2. by injection Hv2 as <-.
Qed.

(** C9: a webhook with a valid signature and event [charge.success], for a
    transaction the gateway verifies as a successful chip-in but whose
    reference no donation carries, is answered 200; nothing is written. *)
Theorem webhook_unknown_reference_acknowledged rt gw req ref pd md db :
  authentic rt req ref →
  verifiedChipin gw ref pd md →
  Store.findOne (byReference ref) (donations db) = None →
  paystackWebhook rt gw req db = (SendStatus 200, db).
Proof.
  intros Hauth Hv Hf.
  rewrite (paystackWebhook_chipin _ _ _ _ _ _ _ Hauth Hv).
  unfold webhookChipin. rewrite (findOneAndUpdate_None _ _ _ Hf), Hf.
  cbn [alreadyCompleted fst]. by rewrite set_donations_id.
Qed.

Lemma webhook_unknown_reference_acknowledged_witness :
  paystackWebhook Scenario.runtime (Scenario.gatewayPaying 515000%float)
    Scenario.request (mkDb [] [Scenario.party] ∅)
  = (SendStatus 200, mkDb [] [Scenario.party] ∅).
Proof.
  exact (webhook_unknown_reference_acknowledged Scenario.runtime
           (Scenario.gatewayPaying 515000%float) Scenario.request Scenario.ref
           (Scenario.verified 515000%float) Scenario.chipinMetadata
           (mkDb [] [Scenario.party] ∅) OnScenario.request_authentic
           (OnScenario.gateway_verifies 515000%float) eq_refl).
Defined.

(** ** The signature check of the webhook *)

(** A request is refused with a bare 400, and nothing else happens, when
    the header differs from the hash the handler computes or the event is
    not [charge.success]. *)
Lemma webhook_refused rt gw req db :
  x_paystack_signature req ≠ Some (computedHash rt req)
  ∨ p_event (body req) ≠ Some "charge.success" →
  paystackWebhook rt gw req db = (SendStatus 400, db).
Proof.
  intros H. unfold paystackWebhook.
  destruct (Js.str_is (x_paystack_signature req) (computedHash rt req)) eqn:E1;
    [|done].
  destruct (Js.str_is (p_event (body req)) "charge.success") eqn:E2; [|done].
  destruct (x_paystack_signature req) as [s|]; [|done].
  destruct (p_event (body req)) as [e|]; [|done].
  apply str_is_Some in E1 as ->. apply str_is_Some in E2 as ->.
  by destruct H.
Qed.

(** The handler never reads the bytes received. *)
Lemma webhook_ignores_rawBody rt gw req raw db :
  paystackWebhook rt gw
    (mkWebhookRequest raw (body req) (x_paystack_signature req)) db
  = paystackWebhook rt gw req db.
Proof. done. Qed.

(** C8 (the code at the failing input): a request whose header is the hash
    of the bytes received is refused with 400 whenever that hash differs from
    the hash of the re-serialised body, which is the one the handler computes. *)
Theorem webhook_refuses_signature_of_received_bytes rt gw req db :
  x_paystack_signature req
  = Some (hmacSha512Hex rt (PAYSTACK_SECRET_KEY rt) (rawBody req)) →
  hmacSha512Hex rt (PAYSTACK_SECRET_KEY rt) (rawBody req)
  ≠ hmacSha512Hex rt (PAYSTACK_SECRET_KEY rt) (JSON_stringify rt (body req)) →
  paystackWebhook rt gw req db = (SendStatus 400, db).
Proof.
  intros Hsig Hne. apply webhook_refused. left. rewrite Hsig.
  unfold computedHash, signedMessage. congruence.
Qed.

Lemma webhook_refuses_signature_of_received_bytes_witness :
  paystackWebhook Scenario.runtime (Scenario.gatewayPaying 515000%float)
    spacedRequest Scenario.db0
  = (SendStatus 400, Scenario.db0).
Proof.
  refine (webhook_refuses_signature_of_received_bytes Scenario.runtime
            (Scenario.gatewayPaying 515000%float) spacedRequest Scenario.db0
            eq_refl _).
  apply String.eqb_neq. reflexivity.
Defined.

(** ** Creation of a donation *)




Example create_fixed_wrong_amount :
  fst (Donation_create 2 7 2000%float "CHIP-IN_2000_def"
         (mkDb [] [Scenario.party; fixedParty] ∅))
  = ThrowApp (mkAppError (MsgExactly "NGN" (Some 2500%float)) 400).
Proof. reflexivity. Qed.

Example create_scenario_B :
  Donation_create 1 7 5000%float Scenario.ref (mkDb [] [Scenario.party] ∅)
  = (Ok Scenario.created, Scenario.db0).
Proof. reflexivity. Qed.

(** ** The bulk write of the reconciliation job *)

Lemma matches_byId id d : matches (byId id) d = Z.eqb (_id d) id.
Proof. unfold matches, byId; simpl. by rewrite !andb_true_r. Qed.

Lemma findOneAndUpdate_cons q u x (l : list Donation) :
  fst (Store.findOneAndUpdate q u (x :: l))
  = if matches q x then applyUpdate u x :: l
    else x :: fst (Store.findOneAndUpdate q u l).
Proof.
  unfold Store.findOneAndUpdate, Store.findOne; simpl.
  destruct (matches q x) eqn:E; simpl; [done|].
  by destruct (list_find _ l) as [[i d]|].
Qed.

Lemma unique_by_id (l : list Donation) x y :
  NoDup (_id <$> l) → x ∈ l → y ∈ l → _id x = _id y → x = y.
Proof.
  induction l as [|z l IH]; [by intros _ ?%elem_of_nil|].
  rewrite fmap_cons. intros [Hz Hl]%NoDup_cons.
  intros [->|Hx]%elem_of_cons [->|Hy]%elem_of_cons Hid; auto.
  - exfalso. apply Hz. rewrite Hid. by apply list_elem_of_fmap_2.
  - exfalso. apply Hz. rewrite <- Hid. by apply list_elem_of_fmap_2.
Qed.

Lemma updateOne_byId id u (l : list Donation) :
  NoDup (_id <$> l) →
  Store.updateOne (byId id, u) l
  = (λ x, if Z.eqb (_id x) id then applyUpdate u x else x) <$> l.
Proof.
  unfold Store.updateOne; simpl.
  induction l as [|x l IH]; [done|].
  rewrite fmap_cons. intros [Hx Hl]%NoDup_cons.
  rewrite findOneAndUpdate_cons, matches_byId, fmap_cons.
  destruct (Z.eqb (_id x) id) eqn:E.
  - f_equal. apply Z.eqb_eq in E. symmetry.
    rewrite <- (list_fmap_id l) at 2. apply Forall_fmap_ext, Forall_forall.
    intros y Hy. destruct (Z.eqb (_id y) id) eqn:E'; [|done].
    apply Z.eqb_eq in E'. exfalso. apply Hx. rewrite E, <- E'.
    by apply list_elem_of_fmap_2.
  - f_equal. by apply IH.
Qed.

Lemma settle_ids references now l : _id <$> settle references now l = _id <$> l.
Proof.
  unfold settle. rewrite <- list_fmap_compose.
  apply Forall_fmap_ext, Forall_forall. intros d _; simpl.
  by destruct (matches _ d).
Qed.

Lemma settleUpdate_twice now d :
  applyUpdate (settleUpdate now) (applyUpdate (settleUpdate now) d)
  = applyUpdate (settleUpdate now) d.
Proof. done. Qed.

Lemma bulkWrite_settle now (found l : list Donation) :
  NoDup (_id <$> l) →
  Store.bulkWrite ((λ d, (byId (_id d), settleUpdate now)) <$> found) l
  = (λ x, if bool_decide (_id x ∈ _id <$> found)
          then applyUpdate (settleUpdate now) x else x) <$> l.
Proof.
  revert l. induction found as [|d found IH]; intros l Hl.
  - simpl. rewrite <- (list_fmap_id l) at 1.
    by apply Forall_fmap_ext, Forall_forall.
  - rewrite !fmap_cons.
    change (Store.bulkWrite (?op :: ?ops) l)
      with (Store.bulkWrite ops (Store.updateOne op l)).
    rewrite (updateOne_byId _ _ _ Hl).
    set (f := λ x, if Z.eqb (_id x) (_id d)
                   then applyUpdate (settleUpdate now) x else x).
    assert (Hids : _id <$> (f <$> l) = _id <$> l).
    { rewrite <- list_fmap_compose. apply Forall_fmap_ext, Forall_forall.
      intros x _; simpl. unfold f. by destruct (Z.eqb _ _). }
    rewrite IH by (by rewrite Hids).
    rewrite <- list_fmap_compose. apply Forall_fmap_ext, Forall_forall.
    intros x _; simpl. unfold f.
    destruct (Z.eqb (_id x) (_id d)) eqn:E.
    + apply Z.eqb_eq in E.
      rewrite (bool_decide_eq_true_2 (_id x ∈ _id d :: _))
        by (rewrite E; apply elem_of_cons; by left).
      by destruct (bool_decide _).
    + apply Z.eqb_neq in E.
      destruct (bool_decide (_id x ∈ _id <$> found)) eqn:E'.
      * apply bool_decide_eq_true in E'.
        rewrite bool_decide_eq_true_2; [done|]. apply elem_of_cons; by right.
      * apply bool_decide_eq_false in E'.
        rewrite bool_decide_eq_false_2; [done|].
        intros [?|?]%elem_of_cons; done.
Qed.

Lemma reconcilePage_settle clk references st :
  NoDup (_id <$> js_donations st) →
  js_donations (reconcilePage clk references st)
  = settle references (clk (clockReads st)) (js_donations st).
Proof.
  intros Hnd. unfold reconcilePage, Store.find.
  set (found := filter _ _).
  assert (Hin : ∀ x, x ∈ js_donations st →
                 (_id x ∈ _id <$> found
                  ↔ matches (settlementFilter references) x = true)).
  { intros x Hx. split.
    - intros (y & Hid & [Hy Hyl]%list_elem_of_filter)%list_elem_of_fmap.
      by rewrite (unique_by_id _ x y Hnd Hx Hyl Hid).
    - intros Hm. apply list_elem_of_fmap_2, list_elem_of_filter. done. }
  destruct (0 <? Z.of_nat (length found))%Z eqn:E; simpl.
  - rewrite (bulkWrite_settle _ _ _ Hnd). unfold settle.
    apply Forall_fmap_ext, Forall_forall. intros x Hx.
    destruct (matches (settlementFilter references) x) eqn:Hm.
    + rewrite bool_decide_eq_true_2; [done|]. by apply (Hin x Hx).
    + rewrite bool_decide_eq_false_2; [done|].
      intros H. apply (Hin x Hx) in H. congruence.
  - assert (found = []) as Hnil.
    { apply Z.ltb_ge in E. destruct found; [done|]. simpl in E. lia. }
    unfold settle. rewrite <- (list_fmap_id (js_donations st)) at 1.
    apply Forall_fmap_ext, Forall_forall. intros x Hx.
    destruct (matches (settlementFilter references) x) eqn:Hm; [|done].
    pose proof (proj2 (Hin x Hx) Hm) as Hc. rewrite Hnil in Hc.
    by apply elem_of_nil in Hc.
Qed.

(** What the batch query requires of a donation. *)
Lemma matches_settlementFilter references d :
  matches (settlementFilter references) d = true →
  status d = completed
  ∧ isPayoutEligible d = false
  ∧ payoutStatus d = payout_pending
  ∧ gateway (metadata d) = Some "paystack"
  ∧ ∃ r, paymentReference d = Some r ∧ r ∈ references.
Proof.
  unfold matches, settlementFilter; simpl.
  rewrite !andb_true_iff. intros [[[[Hr Hg] He] Hp] Hs].
  split_and!.
  - by destruct (status d).
  - by destruct (isPayoutEligible d).
  - by destruct (payoutStatus d).
  - destruct (gateway (metadata d)) as [g|]; [|done].
    by apply str_is_Some in Hg as ->.
  - apply existsb_exists in Hr as (r & Hin & Hr).
    destruct (paymentReference d) as [r'|]; [|done].
    apply str_is_Some in Hr as ->. exists r. split; [done|].
    by apply list_elem_of_In.
Qed.

(** A settled donation no longer matches any batch query. *)
Lemma settled_not_matched references now d :
  matches (settlementFilter references) (applyUpdate (settleUpdate now) d)
  = false.
Proof.
  unfold matches, settlementFilter; simpl. by rewrite !andb_false_r.
Qed.

Lemma settled_trans l1 l2 l3 : settled l1 l2 → settled l2 l3 → settled l1 l3.
Proof. intros H12 H23. induction H23; [done|]. by constructor. Qed.

Lemma settled_ids l l' : settled l l' → _id <$> l' = _id <$> l.
Proof. induction 1 as [|??? _ IH]; [done|]. by rewrite settle_ids. Qed.

Lemma reconcilePage_settled clk references st :
  NoDup (_id <$> js_donations st) →
  settled (js_donations st) (js_donations (reconcilePage clk references st)).
Proof.
  intros Hnd. rewrite (reconcilePage_settle _ _ _ Hnd).
  constructor. constructor.
Qed.

Lemma txnLoop_settled fuel env sid page st o st' :
  NoDup (_id <$> js_donations st) →
  txnLoop fuel env sid page st = (o, st') →
  settled (js_donations st) (js_donations st').
Proof.
  revert page st. induction fuel as [|fuel IH]; intros page st Hnd; simpl.
  { intros [= _ <-]. constructor. }
  destruct (listSettlementTransactions _ _ _) as [e|[[|t txns]|]];
    try (intros [= _ <-]; constructor).
  set (st1 := match validReferences (t :: txns) with
              | [] => st
              | _ => reconcilePage (clock env) (validReferences (t :: txns)) st
              end).
  assert (H1 : settled (js_donations st) (js_donations st1)).
  { unfold st1. destruct (validReferences (t :: txns)) eqn:E;
      [constructor|]. rewrite <- E. by apply reconcilePage_settled. }
  assert (Heq : match validReferences (t :: txns) with
                | [] => st
                | r :: rs => reconcilePage (clock env) (r :: rs) st
                end = st1).
  { unfold st1. by destruct (validReferences (t :: txns)). }
  rewrite Heq.
  destruct (Z.of_nat (length (t :: txns)) <? 100)%Z.
  - by intros [= _ <-].
  - intros H. eapply settled_trans; [exact H1|].
    eapply IH; [|exact H]. by rewrite (settled_ids _ _ H1).
Qed.

Lemma forSettlements_settled txnFuel env ss st o st' :
  NoDup (_id <$> js_donations st) →
  forSettlements txnFuel env ss st = (o, st') →
  settled (js_donations st) (js_donations st').
Proof.
  revert st. induction ss as [|s ss IH]; intros st Hnd; simpl.
  { intros [= _ <-]. constructor. }
  destruct (txnLoop txnFuel env (settlement_id s) 1 st) as [o1 st1] eqn:E1.
  pose proof (txnLoop_settled _ _ _ _ _ _ _ Hnd E1) as H1.
  destruct o1.
  - intros H. eapply settled_trans; [exact H1|].
    eapply IH; [|exact H]. by rewrite (settled_ids _ _ H1).
  - by intros [= _ <-].
  - by intros [= _ <-].
Qed.

Lemma settlementLoop_settled fuel txnFuel env from page st o st' :
  NoDup (_id <$> js_donations st) →
  settlementLoop fuel txnFuel env from page st = (o, st') →
  settled (js_donations st) (js_donations st').
Proof.
  revert page st. induction fuel as [|fuel IH]; intros page st Hnd; simpl.
  { intros [= _ <-]. constructor. }
  destruct (listSettlements _ _ _) as [e|[[|s ss]|]];
    try (intros [= _ <-]; constructor).
  destruct (forSettlements txnFuel env (s :: ss) st) as [o1 st1] eqn:E1.
  pose proof (forSettlements_settled _ _ _ _ _ _ Hnd E1) as H1.
  destruct o1.
  - destruct (Z.of_nat (length (s :: ss)) <? 50)%Z.
    + by intros [= _ <-].
    + intros H. eapply settled_trans; [exact H1|].
      eapply IH; [|exact H]. by rewrite (settled_ids _ _ H1).
  - by intros [= _ <-].
  - by intros [= _ <-].
Qed.

(** The donations after a run of the job, whatever its outcome. *)
Lemma run_settled fuel txnFuel env db reads o db' total reads' :
  NoDup (_id <$> donations db) →
  runPaystackSettlementReconcile fuel txnFuel env db reads
  = (o, db', total, reads') →
  settled (donations db) (donations db') ∧ events db' = events db.
Proof.
  intros Hnd. unfold runPaystackSettlementReconcile.
  destruct (readWindowStart env db reads) as [[e|from] r].
  { intros [= _ <- _ _]. split; [constructor|done]. }
  destruct (settlementLoop _ _ _ _ _ _) as [o1 st1] eqn:E1.
  apply settlementLoop_settled in E1; [|done]. simpl in E1.
  destruct o1; intros [= _ <- _ _]; by split.
Qed.

(** Each donation is settled at most once by a sequence of pages, and only
    when it was completed and not yet payout-eligible. *)
Lemma settled_lookup l l' i d :
  settled l l' → l !! i = Some d →
  ∃ d', l' !! i = Some d'
        ∧ (d' = d
           ∨ (status d = completed ∧ isPayoutEligible d = false
              ∧ ∃ now, d' = applyUpdate (settleUpdate now) d)).
Proof.
  intros Hs Hi. induction Hs as [|l' references now _ (d' & Hi' & Hd')].
  { exists d. auto. }
  unfold settle. rewrite list_lookup_fmap, Hi'; simpl.
  eexists; split; [done|].
  destruct Hd' as [->|(Hst & He & now' & ->)].
  - destruct (matches (settlementFilter references) d) eqn:Hm; [|by left].
    apply matches_settlementFilter in Hm as (? & ? & _). right. eauto.
  - rewrite settled_not_matched. right. eauto.
Qed.

Lemma settled_lookup_inv l l' i d' :
  settled l l' → l' !! i = Some d' → ∃ d, l !! i = Some d.
Proof.
  intros Hs Hi. apply settled_ids in Hs.
  apply (f_equal (λ k, k !! i)) in Hs.
  rewrite !list_lookup_fmap, Hi in Hs. simpl in Hs.
  destruct (l !! i) as [d|]; [eauto|done].
Qed.

(** A donation that is payout-eligible is not touched by the job. *)
Lemma settled_eligible_fixed l l' i d :
  settled l l' → l !! i = Some d → isPayoutEligible d = true →
  l' !! i = Some d.
Proof.
  intros Hs Hi He.
  destruct (settled_lookup _ _ _ _ Hs Hi) as (d' & Hi' & [->|(_ & He' & _)]);
    [done|congruence].
Qed.

(** ** The invariant of the reachable states *)

Lemma wellFormed_settle now d :
  status d = completed → wellFormed d →
  wellFormed (applyUpdate (settleUpdate now) d).
Proof.
  intros Hs [H1 H2 H3 H4 H5]. split; simpl; eauto.
Qed.

Lemma wellFormed_completion ref gr d :
  paymentReference d = Some ref → wellFormed d →
  wellFormed (applyUpdate (completionUpdate ref gr) d).
Proof.
  intros Hr [H1 H2 H3 H4 H5]. split; simpl; auto.
Qed.

Lemma consistent_settled l l' : settled l l' → consistent l → consistent l'.
Proof.
  intros Hs [Hnd Hwf]. split; [by rewrite (settled_ids _ _ Hs)|].
  apply Forall_lookup. intros i d' Hi'.
  destruct (settled_lookup_inv _ _ _ _ Hs Hi') as [d Hi].
  pose proof (Forall_lookup_1 _ _ _ _ Hwf Hi) as Hd.
  destruct (settled_lookup _ _ _ _ Hs Hi) as (d'' & Hi'' & Hd'').
  rewrite Hi' in Hi''. injection Hi'' as <-.
  destruct Hd'' as [->|(Hst & _ & now & ->)]; [done|].
  by apply wellFormed_settle.
Qed.

Lemma completionWrite_cases ref gr l :
  completionWrite ref gr l = l
  ∨ ∃ i d, l !! i = Some d ∧ paymentReference d = Some ref
           ∧ completionWrite ref gr l
             = <[i := applyUpdate (completionUpdate ref gr) d]> l.
Proof.
  destruct (Store.findOne (byReference ref) l) as [[i d]|] eqn:Hf.
  - right. exists i, d.
    destruct (completionWrite_found ref gr _ _ _ Hf) as [Hw _].
    apply findOne_Some in Hf as [Hi Hm].
    rewrite matches_byReference in Hm.
    destruct (paymentReference d) as [r|]; [|done].
    by apply str_is_Some in Hm as ->.
  - left. by apply completionWrite_missing.
Qed.

Lemma consistent_completionWrite ref gr l :
  consistent l → consistent (completionWrite ref gr l).
Proof.
  intros [Hnd Hwf].
  destruct (completionWrite_cases ref gr l) as [->|(i & d & Hi & Hr & ->)];
    [done|].
  split.
  - rewrite list_fmap_insert; simpl. rewrite list_insert_id; [done|].
    by rewrite list_lookup_fmap, Hi.
  - apply Forall_insert; [done|]. apply wellFormed_completion; [done|].
    by eapply Forall_lookup_1.
Qed.

(** Whatever the request, a handler leaves the donations as they are or
    issues one completion write. *)
Lemma verifyPayment_effect gw reference db :
  snd (verifyPayment gw reference db) = db
  ∨ ∃ ref gr, snd (verifyPayment gw reference db)
              = set_donations (completionWrite ref gr (donations db)) db.
Proof.
  unfold verifyPayment.
  destruct reference as [[|c r]|]; [by left| |by left].
  destruct (transactionVerify gw _) as [e|pd]; [by left|].
  destruct (negb _); [by left|].
  destruct (pd_metadata pd) as [md|]; [|by left].
  destruct (Js.strict_ne _ _); [by left|].
  destruct (Js.str_is (pm_type md) "chipin").
  - rewrite verifyChipin_state. destruct (alreadyCompleted _); eauto.
  - destruct (Js.str_is (pm_type md) "ticket"); by left.
Qed.

Lemma paystackWebhook_effect rt gw req db :
  snd (paystackWebhook rt gw req db) = db
  ∨ ∃ ref gr, snd (paystackWebhook rt gw req db)
              = set_donations (completionWrite ref gr (donations db)) db.
Proof.
  unfold paystackWebhook.
  destruct (_ || _); [by left|].
  destruct (p_data (body req)) as [pdata|]; [|by left].
  destruct (transactionVerify gw _) as [e|pd]; [by left|].
  destruct (negb _); [by left|].
  destruct (pd_metadata pd) as [md|]; [|by left].
  destruct (Js.str_is (pm_type md) "chipin").
  - pose proof (webhookChipin_state (reference pdata) pd db) as Hst.
    destruct (webhookChipin (reference pdata) pd db) as [[r|] db'];
      simpl in *; rewrite Hst; destruct (alreadyCompleted _); eauto.
  - destruct (Js.str_is (pm_type md) "ticket"); by left.
Qed.

Lemma preSave_Ok es d d' :
  preSave es true d = Ok d' → d' = setFee (calculateFee (amount d)) d.
Proof.
  unfold preSave. destruct (Store.findEvent _ _) as [ev|]; [|done].
  destruct (chipInDetails ev) as [cd|]; [|by intros [= <-]].
  destruct (_ && _); [done|]. destruct (_ && _); [done|]. by intros [= <-].
Qed.

Lemma freshId_above (l : list Donation) x : x ∈ _id <$> l → x < freshId l.
Proof.
  unfold freshId. induction l as [|d l IH]; [by intros ?%elem_of_nil|].
  rewrite fmap_cons. simpl. intros [->|Hx]%elem_of_cons; [lia|].
  specialize (IH Hx). lia.
Qed.

Lemma consistent_create ev uid amt ref db r db' :
  Donation_create ev uid amt ref db = (r, db') →
  consistent (donations db) → consistent (donations db').
Proof.
  unfold Donation_create.
  destruct (preSave _ _ _) as [doc|e|e] eqn:Hpre; try by intros [= _ <-].
  destruct (existsb _ _); [by intros [= _ <-]|].
  intros [= _ <-] [Hnd Hwf]; simpl.
  apply preSave_Ok in Hpre as ->. split.
  - rewrite fmap_app. apply NoDup_app. split_and!; [done| |apply NoDup_singleton].
    simpl. intros x Hx ->%list_elem_of_singleton.
    apply freshId_above in Hx. lia.
  - apply Forall_app. split; [done|]. apply Forall_singleton.
    split; simpl; auto; done.
Qed.

Lemma consistent_step db db' :
  step db db' → consistent (donations db) → consistent (donations db').
Proof.
  intros Hstep Hc. destruct Hstep as
    [ev uid amt ref db r db' H | gw reference db r db' H
    | rt gw req db r db' H | fuel txnFuel env db reads o db' total reads' H
    | es db ].
  - by eapply consistent_create.
  - assert (db' = snd (verifyPayment gw reference db)) as ->
      by (by rewrite H).
    destruct (verifyPayment_effect gw reference db) as [->|(x & gr & ->)];
      [done|].
    by apply consistent_completionWrite.
  - assert (db' = snd (paystackWebhook rt gw req db)) as ->
      by (by rewrite H).
    destruct (paystackWebhook_effect rt gw req db) as [->|(x & gr & ->)];
      [done|].
    by apply consistent_completionWrite.
  - destruct Hc as [Hnd Hwf].
    destruct (run_settled _ _ _ _ _ _ _ _ _ Hnd H) as [Hs _].
    by apply (consistent_settled _ _ Hs).
  - done.
Qed.

Lemma reachable_consistent db : reachable db → consistent (donations db).
Proof.
  induction 1 as [db H|db db' _ IH Hstep].
  - rewrite H. split; [apply NoDup_nil_2|apply Forall_nil_2].
  - by eapply consistent_step.
Qed.

(** C5: in every reachable state, a donation that is payout-eligible is
    completed. *)
Theorem payout_eligible_implies_completed db d :
  reachable db → d ∈ donations db → isPayoutEligible d = true →
  status d = completed.
Proof.
  intros Hr Hd. apply reachable_consistent in Hr as [_ Hwf].
  rewrite Forall_forall in Hwf. by apply Hwf.
Qed.

(** Eligibility is false at creation, and the batch query of the job, the
    only write that sets it, selects completed donations only. *)
Lemma newDonation_not_eligible id ev uid amt ref :
  isPayoutEligible (newDonation id ev uid amt ref) = false.
Proof. done. Qed.

Lemma completionWrite_keeps_eligibility ref gr l :
  isPayoutEligible <$> completionWrite ref gr l = isPayoutEligible <$> l.
Proof.
  destruct (completionWrite_cases ref gr l) as [->|(i & d & Hi & Hr & ->)];
    [done|].
  rewrite list_fmap_insert; simpl. rewrite list_insert_id; [done|].
  by rewrite list_lookup_fmap, Hi.
Qed.

(** ** Scenario C, evaluated *)

Module OnScenarioC.
Import ScenarioC.

(** No checkpoint: the window starts one day before the first reading of
    the clock; the donation is settled at the second reading and the
    checkpoint set to the third. *)
Example window :
  readWindowStart env dbPaid 0 = (inr (clock 0 - 86400000), 1%nat).
Proof. reflexivity. Qed.

Example run_once :
  runPaystackSettlementReconcile 5 5 env dbPaid 0
  = (Finished, dbSettled, 1, 3%nat).
Proof. vm_compute. reflexivity. Qed.

(** The run again, from the new checkpoint: nothing is reconciled. *)
Example run_again :
  runPaystackSettlementReconcile 5 5 env dbSettled 3
  = (Finished,
     mkDb [settledDonation] [Scenario.party] {[ jobName := Some (clock 3) ]},
     0, 4%nat).
Proof. vm_compute. reflexivity. Qed.

Example run_raises :
  runPaystackSettlementReconcile 5 5 failingEnv dbPaid 0
  = (Raised (mkJsError None "timeout of 30000ms exceeded"), dbPaid, 0, 1%nat).
Proof. vm_compute. reflexivity. Qed.

Lemma dbSettled_reachable : reachable dbSettled.
Proof.
  eapply reachable_step; [eapply reachable_step; [eapply reachable_step|]|].
  - apply (reachable_initial (mkDb [] [Scenario.party] ∅)). done.
  - eapply step_create. exact create_scenario_B.
  - eapply (step_webhook Scenario.runtime (Scenario.gatewayPaying 515000%float)
              Scenario.request).
    exact (proj1 OnScenario.webhook_then_verify).
  - eapply step_reconcile. exact run_once.
Qed.

End OnScenarioC.

Lemma payout_eligible_implies_completed_witness :
  status ScenarioC.settledDonation = completed.
Proof.
  refine (payout_eligible_implies_completed ScenarioC.dbSettled
            ScenarioC.settledDonation OnScenarioC.dbSettled_reachable _ eq_refl).
  apply list_elem_of_singleton. reflexivity.
Defined.

(** ** The checkpoint of the job *)

Lemma readWindowStart_rule env db reads :
  fst (readWindowStart env db reads) = windowRule env db reads.
Proof.
  unfold readWindowStart, windowRule, windowStart.
  destruct (Job.getLastRun jobName (jobs db)); simpl; [done|].
  destruct (DEFAULT_LOOKBACK_DAYS _) as [days|]; simpl; [|done].
  by replace (clock env reads - 1000 * 60 * 60 * 24 * days)
    with (clock env reads - days * 86400000) by lia.
Qed.

(** C6, counterexample: without a checkpoint, the window of the run after a
    failed run starts later than the window of the failed run.  The run of
    [ScenarioC.failingEnv] raises and leaves no checkpoint, and the two
    windows start a second apart, as the two readings of the clock. *)
Lemma window_moves_without_checkpoint :
  runPaystackSettlementReconcile 5 5 ScenarioC.failingEnv ScenarioC.dbPaid 0
  = (Raised (mkJsError None "timeout of 30000ms exceeded"),
     ScenarioC.dbPaid, 0, 1%nat)
  ∧ Job.getLastRun jobName (jobs ScenarioC.dbPaid) = None
  ∧ fst (readWindowStart ScenarioC.failingEnv ScenarioC.dbPaid 0)
    = inr 1699913600000
  ∧ fst (readWindowStart ScenarioC.failingEnv ScenarioC.dbPaid 1)
    = inr 1699913601000.
Proof. split_and!; vm_compute; reflexivity. Qed.

(** C6 (as amended): the window of a run starts at the checkpoint when there
    is one, and otherwise at the reading of the clock less the lookback days
    (1 when the setting is absent).  The checkpoint is set, to the reading of
    the clock at that moment, only when every page has been processed; a run
    that stops before leaves the checkpoints as they were, so that, when a
    checkpoint exists, the next run starts its window at the same time. *)
Theorem checkpoint_advances_only_on_success
    fuel txnFuel env db reads o db' total reads' :
  runPaystackSettlementReconcile fuel txnFuel env db reads
  = (o, db', total, reads') →
  fst (readWindowStart env db reads) = windowRule env db reads
  ∧ DEFAULT_LOOKBACK_DAYS None = Some 1
  ∧ (o = Finished →
       ∃ from r st,
         readWindowStart env db reads = (inr from, r)
         ∧ settlementLoop fuel txnFuel env from 1
             (mkJobState (donations db) 0 r) = (Finished, st)
         ∧ jobs db'
           = <[jobName := Some (clock env (clockReads st))]> (jobs db))
  ∧ (o ≠ Finished →
       jobs db' = jobs db
       ∧ ∀ t env2 reads2,
           Job.getLastRun jobName (jobs db) = Some t →
           fst (readWindowStart env2 db' reads2)
           = fst (readWindowStart env db reads)).
Proof.
  intros Hrun. split_and!.
  - apply readWindowStart_rule.
  - reflexivity.
  - intros ->. unfold runPaystackSettlementReconcile in Hrun.
    destruct (readWindowStart env db reads) as [[e|from] r]; [done|].
    destruct (settlementLoop _ _ _ _ _ _) as [o1 st1] eqn:E1.
    destruct o1; [|done..]. injection Hrun as <- _ _.
    exists from, r, st1. done.
  - intros Hne.
    assert (Hjobs : jobs db' = jobs db).
    { unfold runPaystackSettlementReconcile in Hrun.
      destruct (readWindowStart env db reads) as [[e|from] r];
        [by injection Hrun as _ <- _ _|].
      destruct (settlementLoop _ _ _ _ _ _) as [o1 st1].
      destruct o1; injection Hrun as Ho <- _ _; [by destruct Hne|done..]. }
    split; [done|]. intros t env2 reads2 Ht.
    rewrite !readWindowStart_rule. unfold windowRule.
    by rewrite Hjobs, Ht.
Qed.

Lemma checkpoint_advances_only_on_success_witness :
  jobs ScenarioC.dbSettled = jobs ScenarioC.dbSettled
  ∧ fst (readWindowStart ScenarioC.env ScenarioC.dbSettled 7)
    = fst (readWindowStart ScenarioC.failingEnv ScenarioC.dbSettled 3).
Proof.
  assert (Hrun : runPaystackSettlementReconcile 5 5 ScenarioC.failingEnv
                   ScenarioC.dbSettled 3
                 = (Raised (mkJsError None "timeout of 30000ms exceeded"),
                    ScenarioC.dbSettled, 0, 3%nat))
    by (vm_compute; reflexivity).
  assert (Hne : Raised (mkJsError None "timeout of 30000ms exceeded")
                ≠ Finished) by discriminate.
  destruct (proj2 (proj2 (proj2
    (checkpoint_advances_only_on_success 5 5 ScenarioC.failingEnv
       ScenarioC.dbSettled 3 _ ScenarioC.dbSettled 0 3%nat Hrun))) Hne)
    as [Hjobs Hnext].
  split; [exact Hjobs|].
  apply (Hnext (ScenarioC.clock 2) ScenarioC.env 7%nat).
  vm_compute. reflexivity.
Defined.

(** ** Running the job again *)

Lemma quiet_settle references now l : quiet references (settle references now l).
Proof.
  unfold quiet, settle. apply Forall_fmap, Forall_forall. intros d _; simpl.
  destruct (matches (settlementFilter references) d) eqn:E; [|done].
  apply settled_not_matched.
Qed.

Lemma quiet_settled references l l' :
  settled l l' → quiet references l → quiet references l'.
Proof.
  intros Hs Hq. induction Hs as [|l' references' now _ IH]; [done|].
  unfold quiet, settle. apply Forall_fmap.
  eapply Forall_impl; [exact IH|]. intros d Hd; simpl.
  destruct (matches (settlementFilter references') d); [|done].
  apply settled_not_matched.
Qed.

Lemma reconcilePage_quiet clk references st :
  quiet references (js_donations st) → reconcilePage clk references st = st.
Proof.
  intros Hq. unfold reconcilePage, Store.find.
  replace (filter _ (js_donations st)) with (@nil Donation); [done|].
  symmetry. induction Hq as [|d l Hd _ IH]; [done|].
  rewrite filter_cons_False; [done|]. by rewrite Hd.
Qed.

Lemma txnLoop_step fuel env sid page st t txns :
  listSettlementTransactions (paystack env) sid page = inr (Some (t :: txns)) →
  txnLoop (S fuel) env sid page st
  = let st' := match pageReferences (t :: txns) with
               | [] => st
               | references :: _ => reconcilePage (clock env) references st
               end in
    if (Z.of_nat (length (t :: txns)) <? 100)%Z then (Finished, st')
    else txnLoop fuel env sid (page + 1) st'.
Proof.
  intros H. simpl txnLoop. rewrite H. unfold pageReferences.
  by destruct (validReferences (t :: txns)).
Qed.

(** After a loop, no donation matches the query of a page it went through;
    the outcome is the one of the trace. *)
Lemma txnLoop_quiet fuel env sid page st o st' :
  NoDup (_id <$> js_donations st) →
  txnLoop fuel env sid page st = (o, st') →
  o = fst (txnTrace fuel (listSettlementTransactions (paystack env)) sid page)
  ∧ Forall (λ references, quiet references (js_donations st'))
      (snd (txnTrace fuel (listSettlementTransactions (paystack env)) sid page)).
Proof.
  revert page st. induction fuel as [|fuel IH]; intros page st Hnd.
  { simpl. intros ?; simplify_eq. split; [done|apply Forall_nil_2]. }
  destruct (listSettlementTransactions (paystack env) sid page)
    as [e|[[|t txns]|]] eqn:Hp.
  1,2,4: simpl; rewrite Hp; simpl; intros ?; simplify_eq; split;
    [done|apply Forall_nil_2].
  rewrite (txnLoop_step _ _ _ _ _ _ _ Hp). simpl txnTrace. rewrite Hp.
  set (st1 := match pageReferences (t :: txns) with
              | [] => st
              | references :: _ => reconcilePage (clock env) references st
              end).
  assert (H1 : settled (js_donations st) (js_donations st1)
               ∧ Forall (λ references, quiet references (js_donations st1))
                   (pageReferences (t :: txns))).
  { unfold st1, pageReferences.
    destruct (validReferences (t :: txns)) as [|r rs];
      [split; constructor|].
    split; [by apply reconcilePage_settled|].
    apply Forall_singleton. rewrite (reconcilePage_settle _ _ _ Hnd).
    apply quiet_settle. }
  destruct H1 as [Hs1 Hq1]. cbv zeta.
  destruct (Z.of_nat (length (t :: txns)) <? 100)%Z.
  - intros ?; simplify_eq. by split.
  - intros H.
    assert (Hnd1 : NoDup (_id <$> js_donations st1))
      by (by rewrite (settled_ids _ _ Hs1)).
    destruct (IH _ _ Hnd1 H) as [-> Hq]. split; [done|].
    apply Forall_app. split; [|done].
    eapply Forall_impl; [exact Hq1|]. intros references.
    apply quiet_settled. by eapply txnLoop_settled.
Qed.

(** A loop whose pages are all quiet changes nothing. *)
Lemma txnLoop_noop fuel env sid page st :
  Forall (λ references, quiet references (js_donations st))
    (snd (txnTrace fuel (listSettlementTransactions (paystack env)) sid page)) →
  txnLoop fuel env sid page st
  = (fst (txnTrace fuel (listSettlementTransactions (paystack env)) sid page),
     st).
Proof.
  revert page. induction fuel as [|fuel IH]; intros page; [done|].
  destruct (listSettlementTransactions (paystack env) sid page)
    as [e|[[|t txns]|]] eqn:Hp.
  1,2,4: simpl; by rewrite Hp.
  rewrite (txnLoop_step _ _ _ _ _ _ _ Hp). simpl txnTrace. rewrite Hp.
  cbv zeta. intros Hq.
  assert (Hst : match pageReferences (t :: txns) with
                | [] => st
                | references :: _ => reconcilePage (clock env) references st
                end = st).
  { destruct (Z.of_nat (length (t :: txns)) <? 100)%Z; simpl in Hq;
      [|apply Forall_app in Hq as [Hq _]];
      (destruct (pageReferences (t :: txns)) as [|r rs]; [done|];
       apply Forall_cons in Hq as [Hq _]; by apply reconcilePage_quiet). }
  rewrite Hst.
  destruct (Z.of_nat (length (t :: txns)) <? 100)%Z; [done|].
  simpl in Hq. apply Forall_app in Hq as [_ Hq]. by apply IH.
Qed.

Lemma forSettlements_quiet txnFuel env ss st o st' :
  NoDup (_id <$> js_donations st) →
  forSettlements txnFuel env ss st = (o, st') →
  o = fst (forTrace txnFuel (listSettlementTransactions (paystack env)) ss)
  ∧ Forall (λ references, quiet references (js_donations st'))
      (snd (forTrace txnFuel (listSettlementTransactions (paystack env)) ss)).
Proof.
  revert st. induction ss as [|s ss IH]; intros st Hnd; simpl.
  { intros ?; simplify_eq. split; [done|apply Forall_nil_2]. }
  destruct (txnLoop txnFuel env (settlement_id s) 1 st) as [o1 st1] eqn:E1.
  destruct (txnLoop_quiet _ _ _ _ _ _ _ Hnd E1) as [Ho1 Hq1].
  pose proof (txnLoop_settled _ _ _ _ _ _ _ Hnd E1) as Hs1.
  destruct (txnTrace txnFuel _ (settlement_id s) 1) as [o1' pages1].
  simpl in Ho1, Hq1. subst o1'.
  destruct o1; [|intros ?; by simplify_eq..].
  intros H.
  assert (Hnd1 : NoDup (_id <$> js_donations st1))
    by (by rewrite (settled_ids _ _ Hs1)).
  destruct (IH _ Hnd1 H) as [-> Hq]. split; [done|]. simpl.
  apply Forall_app. split; [|done].
  eapply Forall_impl; [exact Hq1|]. intros references.
  apply quiet_settled. by eapply forSettlements_settled.
Qed.

Lemma forSettlements_noop txnFuel env ss st :
  Forall (λ references, quiet references (js_donations st))
    (snd (forTrace txnFuel (listSettlementTransactions (paystack env)) ss)) →
  forSettlements txnFuel env ss st
  = (fst (forTrace txnFuel (listSettlementTransactions (paystack env)) ss), st).
Proof.
  induction ss as [|s ss IH]; simpl; [done|].
  pose proof (txnLoop_noop txnFuel env (settlement_id s) 1 st) as H1.
  destruct (txnTrace txnFuel _ (settlement_id s) 1) as [o1 pages1].
  simpl in H1. destruct o1; simpl.
  - intros [Hq1 Hq]%Forall_app. rewrite (H1 Hq1). by apply IH.
  - intros Hq. by rewrite (H1 Hq).
  - intros Hq. by rewrite (H1 Hq).
Qed.

Lemma settlementLoop_quiet fuel txnFuel env from page st o st' :
  NoDup (_id <$> js_donations st) →
  settlementLoop fuel txnFuel env from page st = (o, st') →
  o = fst (settlementTrace fuel txnFuel (listSettlements (paystack env) from)
             (listSettlementTransactions (paystack env)) page)
  ∧ Forall (λ references, quiet references (js_donations st'))
      (snd (settlementTrace fuel txnFuel (listSettlements (paystack env) from)
              (listSettlementTransactions (paystack env)) page)).
Proof.
  revert page st. induction fuel as [|fuel IH]; intros page st Hnd; simpl.
  { intros ?; simplify_eq. split; [done|apply Forall_nil_2]. }
  destruct (listSettlements (paystack env) from page) as [e|[[|s ss]|]].
  1,2,4: intros ?; simplify_eq; split; [done|apply Forall_nil_2].
  destruct (forSettlements txnFuel env (s :: ss) st) as [o1 st1] eqn:E1.
  destruct (forSettlements_quiet _ _ _ _ _ _ Hnd E1) as [Ho1 Hq1].
  pose proof (forSettlements_settled _ _ _ _ _ _ Hnd E1) as Hs1.
  destruct (forTrace txnFuel _ (s :: ss)) as [o1' pages1].
  simpl in Ho1, Hq1. subst o1'.
  destruct o1; [|intros ?; by simplify_eq..].
  destruct (Z.of_nat (length (s :: ss)) <? 50)%Z.
  { intros ?; by simplify_eq. }
  intros H.
  assert (Hnd1 : NoDup (_id <$> js_donations st1))
    by (by rewrite (settled_ids _ _ Hs1)).
  destruct (IH _ _ Hnd1 H) as [-> Hq]. split; [done|]. simpl.
  apply Forall_app. split; [|done].
  eapply Forall_impl; [exact Hq1|]. intros references.
  apply quiet_settled. by eapply settlementLoop_settled.
Qed.

Lemma settlementLoop_noop fuel txnFuel env from page st :
  Forall (λ references, quiet references (js_donations st))
    (snd (settlementTrace fuel txnFuel (listSettlements (paystack env) from)
            (listSettlementTransactions (paystack env)) page)) →
  settlementLoop fuel txnFuel env from page st
  = (fst (settlementTrace fuel txnFuel (listSettlements (paystack env) from)
            (listSettlementTransactions (paystack env)) page), st).
Proof.
  revert page. induction fuel as [|fuel IH]; intros page; [done|].
  cbn [settlementLoop settlementTrace].
  destruct (listSettlements (paystack env) from page) as [e|[[|s ss]|]];
    [done..| |done].
  pose proof (forSettlements_noop txnFuel env (s :: ss) st) as H1.
  destruct (forTrace txnFuel _ (s :: ss)) as [o1 pages1].
  cbn [fst snd] in H1. destruct o1.
  - destruct (Z.of_nat (length (s :: ss)) <? 50)%Z; cbn [fst snd].
    + intros Hq. by rewrite (H1 Hq).
    + intros [Hq1 Hq]%Forall_app. rewrite (H1 Hq1). by apply IH.
  - intros Hq. by rewrite (H1 Hq).
  - intros Hq. by rewrite (H1 Hq).
Qed.

(** Gateways that give the same answers give the same traces. *)
Lemma txnTrace_ext fuel tp1 tp2 sid page :
  (∀ s p, tp2 s p = tp1 s p) →
  txnTrace fuel tp2 sid page = txnTrace fuel tp1 sid page.
Proof.
  intros H. revert page. induction fuel as [|fuel IH]; intros page; [done|].
  simpl. rewrite H. destruct (tp1 sid page) as [e|[[|t txns]|]]; try done.
  by rewrite IH.
Qed.

Lemma forTrace_ext txnFuel tp1 tp2 ss :
  (∀ s p, tp2 s p = tp1 s p) →
  forTrace txnFuel tp2 ss = forTrace txnFuel tp1 ss.
Proof.
  intros H. induction ss as [|s ss IH]; [done|].
  simpl. by rewrite (txnTrace_ext _ _ _ _ _ H), IH.
Qed.

Lemma settlementTrace_ext fuel txnFuel sp1 sp2 tp1 tp2 page :
  (∀ p, sp2 p = sp1 p) → (∀ s p, tp2 s p = tp1 s p) →
  settlementTrace fuel txnFuel sp2 tp2 page
  = settlementTrace fuel txnFuel sp1 tp1 page.
Proof.
  intros Hs Ht. revert page. induction fuel as [|fuel IH]; intros page; [done|].
  simpl. rewrite Hs. destruct (sp1 page) as [e|[[|s ss]|]]; try done.
  by rewrite (forTrace_ext _ _ _ _ Ht), IH.
Qed.

(** A run in terms of its loop. *)
Lemma run_loop fuel txnFuel env db reads from r o st :
  readWindowStart env db reads = (inr from, r) →
  settlementLoop fuel txnFuel env from 1 (mkJobState (donations db) 0 r)
  = (o, st) →
  ∃ db' reads',
    runPaystackSettlementReconcile fuel txnFuel env db reads
    = (o, db', totalReconciled st, reads')
    ∧ donations db' = js_donations st.
Proof.
  intros Hw Hl. unfold runPaystackSettlementReconcile. rewrite Hw, Hl.
  destruct o; eauto.
Qed.

(** C7: a second run of the job leaves every donation that is payout-eligible
    as it is, [settledAt] included; and when the gateway reports to the
    second run the settlements and transactions it reported to the first,
    the second run changes no donation and reconciles none. *)
Theorem reconcile_rerun_changes_nothing
    fuel txnFuel env1 env2 db0 reads1 reads2 o1 db1 total1 n1 o2 db2 total2 n2 :
  NoDup (_id <$> donations db0) →
  runPaystackSettlementReconcile fuel txnFuel env1 db0 reads1
  = (o1, db1, total1, n1) →
  runPaystackSettlementReconcile fuel txnFuel env2 db1 reads2
  = (o2, db2, total2, n2) →
  (∀ i d, donations db1 !! i = Some d → isPayoutEligible d = true →
          donations db2 !! i = Some d)
  ∧ (∀ from1 from2,
       fst (readWindowStart env1 db0 reads1) = inr from1 →
       fst (readWindowStart env2 db1 reads2) = inr from2 →
       (∀ page, listSettlements (paystack env2) from2 page
                = listSettlements (paystack env1) from1 page) →
       (∀ sid page, listSettlementTransactions (paystack env2) sid page
                    = listSettlementTransactions (paystack env1) sid page) →
       donations db2 = donations db1 ∧ total2 = 0 ∧ o2 = o1).
Proof.
  intros Hnd Hrun1 Hrun2.
  destruct (run_settled _ _ _ _ _ _ _ _ _ Hnd Hrun1) as [Hs1 _].
  assert (Hnd1 : NoDup (_id <$> donations db1))
    by (by rewrite (settled_ids _ _ Hs1)).
  split.
  - intros i d Hi He.
    destruct (run_settled _ _ _ _ _ _ _ _ _ Hnd1 Hrun2) as [Hs2 _].
    by eapply settled_eligible_fixed.
  - intros from1 from2 Hw1 Hw2 Hsp Htp.
    destruct (readWindowStart env1 db0 reads1) as [w1 r1] eqn:E1.
    destruct (readWindowStart env2 db1 reads2) as [w2 r2] eqn:E2.
    simpl in Hw1, Hw2. subst w1 w2.
    destruct (settlementLoop fuel txnFuel env1 from1 1
                (mkJobState (donations db0) 0 r1)) as [o1' st1] eqn:L1.
    destruct (run_loop _ _ _ _ _ _ _ _ _ E1 L1) as (db1' & n1' & R1 & D1).
    rewrite Hrun1 in R1. injection R1 as -> -> _ _.
    destruct (settlementLoop_quiet fuel txnFuel env1 from1 1
                (mkJobState (donations db0) 0 r1) o1' st1 Hnd L1) as [Ho1 Hq1].
    simpl in Hq1. rewrite <- D1 in Hq1.
    rewrite <- (settlementTrace_ext _ _ _ _ _ _ _ Hsp Htp) in Ho1, Hq1.
    pose proof (settlementLoop_noop fuel txnFuel env2 from2 1
                  (mkJobState (donations db1') 0 r2) Hq1) as L2.
    rewrite <- Ho1 in L2.
    destruct (run_loop _ _ _ _ _ _ _ _ _ E2 L2) as (db2' & n2' & R2 & D2).
    rewrite Hrun2 in R2. injection R2 as -> -> -> _. done.
Qed.

Lemma reconcile_rerun_changes_nothing_witness :
  [ScenarioC.settledDonation] = donations ScenarioC.dbSettled
  ∧ 0 = 0 ∧ Finished = Finished.
Proof.
  refine (proj2
    (reconcile_rerun_changes_nothing 5 5 ScenarioC.env ScenarioC.env
       ScenarioC.dbPaid 0 3 Finished ScenarioC.dbSettled 1 3%nat Finished
       (mkDb [ScenarioC.settledDonation] [Scenario.party]
          {[ jobName := Some (ScenarioC.clock 3) ]}) 0 4%nat
       (NoDup_singleton _) OnScenarioC.run_once OnScenarioC.run_again)
    (ScenarioC.clock 0 - 86400000) (ScenarioC.clock 2) _ _ _ _).
  - vm_compute. reflexivity.
  - vm_compute. reflexivity.
  - intros page. reflexivity.
  - intros sid page. reflexivity.
Defined.

(** ** Fuel *)

(** A loop that ends within its fuel ends the same with more fuel: the
    bound of the model plays no part in a result other than [OutOfFuel]. *)
Lemma txnLoop_more_fuel fuel fuel' env sid page st o st' :
  txnLoop fuel env sid page st = (o, st') → o ≠ OutOfFuel →
  (fuel ≤ fuel')%nat →
  txnLoop fuel' env sid page st = (o, st').
Proof.
  revert fuel' page st. induction fuel as [|fuel IH]; intros fuel' page st.
  { simpl. intros ?; by simplify_eq. }
  intros H Ho Hle. destruct fuel' as [|fuel']; [lia|].
  simpl in *.
  destruct (listSettlementTransactions _ _ _) as [e|[[|t txns]|]]; try done.
  destruct (Z.of_nat (length (t :: txns)) <? 100)%Z; [done|].
  apply IH; [done|done|lia].
Qed.

Lemma forSettlements_more_fuel txnFuel txnFuel' env ss st o st' :
  forSettlements txnFuel env ss st = (o, st') → o ≠ OutOfFuel →
  (txnFuel ≤ txnFuel')%nat →
  forSettlements txnFuel' env ss st = (o, st').
Proof.
  revert st. induction ss as [|s ss IH]; intros st; [done|].
  simpl. intros H Ho Hle.
  destruct (txnLoop txnFuel env (settlement_id s) 1 st) as [o1 st1] eqn:E1.
  assert (Ho1 : o1 ≠ OutOfFuel). { destruct o1; [done|done|by simplify_eq]. }
  rewrite (txnLoop_more_fuel _ _ _ _ _ _ _ _ E1 Ho1 Hle).
  destruct o1; [by apply IH|done|done].
Qed.

Lemma settlementLoop_more_fuel fuel fuel' txnFuel txnFuel' env from page st o st' :
  settlementLoop fuel txnFuel env from page st = (o, st') → o ≠ OutOfFuel →
  (fuel ≤ fuel')%nat → (txnFuel ≤ txnFuel')%nat →
  settlementLoop fuel' txnFuel' env from page st = (o, st').
Proof.
  revert fuel' page st. induction fuel as [|fuel IH]; intros fuel' page st.
  { simpl. intros ?; by simplify_eq. }
  intros H Ho Hle Hle'. destruct fuel' as [|fuel']; [lia|].
  cbn [settlementLoop] in *.
  destruct (listSettlements _ _ _) as [e|[[|s ss]|]]; try done.
  destruct (forSettlements txnFuel env (s :: ss) st) as [o1 st1] eqn:E1.
  assert (Ho1 : o1 ≠ OutOfFuel). { destruct o1; [done|done|by simplify_eq]. }
  rewrite (forSettlements_more_fuel _ _ _ _ _ _ _ E1 Ho1 Hle').
  destruct o1; [|done|done].
  destruct (Z.of_nat (length (s :: ss)) <? 50)%Z; [done|].
  apply IH; [done|done|lia|done].
Qed.

Lemma run_more_fuel fuel fuel' txnFuel txnFuel' env db reads o db' total reads' :
  runPaystackSettlementReconcile fuel txnFuel env db reads
  = (o, db', total, reads') →
  o ≠ OutOfFuel → (fuel ≤ fuel')%nat → (txnFuel ≤ txnFuel')%nat →
  runPaystackSettlementReconcile fuel' txnFuel' env db reads
  = (o, db', total, reads').
Proof.
  unfold runPaystackSettlementReconcile. intros H Ho Hle Hle'.
  destruct (readWindowStart env db reads) as [[e|from] r]; [done|].
  destruct (settlementLoop fuel _ _ _ _ _) as [o1 st1] eqn:E1.
  assert (Ho1 : o1 ≠ OutOfFuel). { destruct o1; [done|done|by simplify_eq]. }
  by rewrite (settlementLoop_more_fuel _ _ _ _ _ _ _ _ _ _ E1 Ho1 Hle Hle').
Qed.

(** When the gateway's lists end, the loops end: with fuel beyond the last
    page the outcome is not [OutOfFuel]. *)
Lemma txnLoop_terminates fuel env sid page st k :
  (k < fuel)%nat →
  lastTxnPage (paystack env) sid (page + Z.of_nat k) = true →
  fst (txnLoop fuel env sid page st) ≠ OutOfFuel.
Proof.
  revert page st k. induction fuel as [|fuel IH]; intros page st k Hk Hlast;
    [lia|].
  simpl. unfold lastTxnPage in Hlast.
  destruct (listSettlementTransactions (paystack env) sid page)
    as [e|[[|t txns]|]] eqn:Hp; try done.
  destruct (Z.of_nat (length (t :: txns)) <? 100)%Z eqn:Hlen; [done|].
  destruct k as [|k].
  { replace (page + Z.of_nat 0) with page in Hlast by lia.
    rewrite Hp in Hlast. congruence. }
  apply (IH _ _ k); [lia|].
  by replace (page + 1 + Z.of_nat k) with (page + Z.of_nat (S k)) by lia.
Qed.

Lemma forSettlements_terminates txnFuel env ss st :
  (∀ sid, ∃ k, (k < txnFuel)%nat
               ∧ lastTxnPage (paystack env) sid (1 + Z.of_nat k) = true) →
  fst (forSettlements txnFuel env ss st) ≠ OutOfFuel.
Proof.
  intros Hend. revert st. induction ss as [|s ss IH]; intros st; [done|].
  simpl. destruct (Hend (settlement_id s)) as (k & Hk & Hlast).
  pose proof (txnLoop_terminates txnFuel env (settlement_id s) 1 st k Hk Hlast)
    as Ht.
  destruct (txnLoop txnFuel env (settlement_id s) 1 st) as [[|e|] st1];
    [apply IH|done|done].
Qed.

Lemma settlementLoop_terminates fuel txnFuel env from page st k :
  (k < fuel)%nat →
  lastSettlementPage (paystack env) from (page + Z.of_nat k) = true →
  (∀ sid, ∃ j, (j < txnFuel)%nat
               ∧ lastTxnPage (paystack env) sid (1 + Z.of_nat j) = true) →
  fst (settlementLoop fuel txnFuel env from page st) ≠ OutOfFuel.
Proof.
  intros Hk Hlast Hend. revert page st k Hk Hlast.
  induction fuel as [|fuel IH]; intros page st k Hk Hlast; [lia|].
  cbn [settlementLoop]. unfold lastSettlementPage in Hlast.
  destruct (listSettlements (paystack env) from page)
    as [e|[[|s ss]|]] eqn:Hp; try done.
  pose proof (forSettlements_terminates txnFuel env (s :: ss) st Hend) as Hf.
  destruct (forSettlements txnFuel env (s :: ss) st) as [[|e|] st1];
    [|done|done].
  destruct (Z.of_nat (length (s :: ss)) <? 50)%Z eqn:Hlen; [done|].
  destruct k as [|k].
  { replace (page + Z.of_nat 0) with page in Hlast by lia.
    rewrite Hp in Hlast. congruence. }
  apply (IH _ _ k); [lia|].
  by replace (page + 1 + Z.of_nat k) with (page + Z.of_nat (S k)) by lia.
Qed.

(** A run over a gateway whose lists end, with enough fuel, finishes or
    raises. *)
Lemma run_terminates fuel txnFuel env db reads from r k :
  readWindowStart env db reads = (inr from, r) →
  (k < fuel)%nat →
  lastSettlementPage (paystack env) from (1 + Z.of_nat k) = true →
  (∀ sid, ∃ j, (j < txnFuel)%nat
               ∧ lastTxnPage (paystack env) sid (1 + Z.of_nat j) = true) →
  fst (fst (fst (runPaystackSettlementReconcile fuel txnFuel env db reads)))
  ≠ OutOfFuel.
Proof.
  intros Hw Hk Hlast Hend. unfold runPaystackSettlementReconcile. rewrite Hw.
  pose proof (settlementLoop_terminates fuel txnFuel env from 1
                (mkJobState (donations db) 0 r) k Hk Hlast Hend) as Hl.
  by destruct (settlementLoop _ _ _ _ _ _) as [[|e|] st1].
Qed.

(** ** Interleaved executions: the invariant *)

Lemma steady_atomic s s' : atomic s s' → steady s → steady s'.
Proof.
  intros Hstep [[Hnd Hwf] Hq].
  destruct Hstep as [id ev uid amt ref s Hfresh|ref gr s|references s
                    |id now s Hid]; simpl.
  - split; [split|]; simpl.
    + rewrite fmap_app. apply NoDup_app. split_and!; [done| |apply NoDup_singleton].
      simpl. intros x Hx ->%list_elem_of_singleton. done.
    + apply Forall_app. split; [done|]. apply Forall_singleton.
      split; simpl; auto; done.
    + intros x Hx. destruct (Hq x Hx) as (d & Hd & Hi & Hs).
      exists d. split_and!; [|done..]. apply elem_of_app. by left.
  - split; [by apply consistent_completionWrite|]; simpl.
    intros x Hx. destruct (Hq x Hx) as (d & Hd & Hi & Hs).
    destruct (completionWrite_cases ref gr (stored s))
      as [->|(i & d0 & Hi0 & Hr & ->)]; [eauto|].
    apply list_elem_of_lookup in Hd as [j Hj].
    destruct (decide (i = j)) as [->|Hne].
    + exists (applyUpdate (completionUpdate ref gr) d0).
      rewrite Hj in Hi0. injection Hi0 as <-. split_and!; [|done..].
      apply list_elem_of_lookup. exists j.
      apply list_lookup_insert_eq. by eapply lookup_lt_Some.
    + exists d. split_and!; [|done..].
      apply list_elem_of_lookup. exists j. by rewrite list_lookup_insert_ne.
  - split; [done|]; simpl.
    intros x (d & -> & [Hm Hd]%list_elem_of_filter)%list_elem_of_fmap.
    exists d. split_and!; [done..|].
    by apply matches_settlementFilter in Hm as [? _].
  - rewrite (updateOne_byId _ _ _ Hnd).
    set (f := λ x, if Z.eqb (_id x) id
                   then applyUpdate (settleUpdate now) x else x).
    assert (Hf : ∀ x, _id (f x) = _id x ∧ status (f x) = status x).
    { intros x. unfold f. by destruct (Z.eqb _ _). }
    split; [split|]; simpl.
    + rewrite <- list_fmap_compose.
      replace (_id ∘ f <$> stored s) with (_id <$> stored s); [done|].
      apply Forall_fmap_ext, Forall_forall. intros x _. symmetry. apply Hf.
    + apply Forall_fmap, Forall_forall. intros x Hx; simpl.
      rewrite Forall_forall in Hwf. unfold f.
      destruct (Z.eqb (_id x) id) eqn:E; [|by apply Hwf].
      apply Z.eqb_eq in E. apply wellFormed_settle; [|by apply Hwf].
      destruct (Hq id Hid) as (d & Hd & Hi & Hs).
      by rewrite (unique_by_id _ x d Hnd Hx Hd) by congruence.
    + intros x Hx. destruct (Hq x Hx) as (d & Hd & Hi & Hs).
      exists (f d). destruct (Hf d) as [-> ->]. split_and!; [|done..].
      by apply list_elem_of_fmap_2.
Qed.

Lemma steady_rtc s s' : rtc atomic s s' → steady s → steady s'.
Proof. induction 1; eauto using steady_atomic. Qed.

(** In every state of an interleaved execution from the empty collection,
    a payout-eligible donation is completed. *)
Lemma interleaved_payout_eligible_completed s d :
  rtc atomic (mkSys [] []) s → d ∈ stored s → isPayoutEligible d = true →
  status d = completed.
Proof.
  intros Hr Hd He.
  assert (Hs : steady (mkSys [] [])).
  { split; [split; [apply NoDup_nil_2|apply Forall_nil_2]|].
    by intros id ?%elem_of_nil. }
  destruct (steady_rtc _ _ Hr Hs) as [[_ Hwf] _].
  rewrite Forall_forall in Hwf. by apply (wf_payout d (Hwf d Hd)).
Qed.

(** The bulk write of a page is the settlement of its matches. *)
Lemma bulkWrite_find_settle references now (l : list Donation) :
  NoDup (_id <$> l) →
  Store.bulkWrite
    ((λ d, (byId (_id d), settleUpdate now))
       <$> Store.find (settlementFilter references) l) l
  = settle references now l.
Proof.
  intros Hnd. rewrite (bulkWrite_settle _ _ _ Hnd). unfold settle, Store.find.
  apply Forall_fmap_ext, Forall_forall. intros x Hx.
  destruct (matches (settlementFilter references) x) eqn:Hm.
  - rewrite bool_decide_eq_true_2; [done|].
    by apply list_elem_of_fmap_2, list_elem_of_filter.
  - rewrite bool_decide_eq_false_2; [done|].
    intros (y & Hid & [Hy Hyl]%list_elem_of_filter)%list_elem_of_fmap.
    rewrite (unique_by_id _ x y Hnd Hx Hyl Hid) in Hm. congruence.
Qed.

Lemma bulkWrite_atomic now (found : list Donation) q (l : list Donation) :
  (∀ d, d ∈ found → _id d ∈ q) →
  rtc atomic (mkSys l q)
    (mkSys (Store.bulkWrite ((λ d, (byId (_id d), settleUpdate now)) <$> found) l)
       q).
Proof.
  revert l. induction found as [|d found IH]; intros l Hq; [done|].
  rewrite fmap_cons.
  change (Store.bulkWrite (?op :: ?ops) l)
    with (Store.bulkWrite ops (Store.updateOne op l)).
  eapply rtc_l.
  - apply (atomic_settle (_id d) now (mkSys l q)). apply Hq, elem_of_cons.
    by left.
  - apply IH. intros x Hx. apply Hq, elem_of_cons. by right.
Qed.

Lemma settle_atomic references now q (l : list Donation) :
  NoDup (_id <$> l) →
  rtc atomic (mkSys l q)
    (mkSys (settle references now l)
       (_id <$> Store.find (settlementFilter references) l)).
Proof.
  intros Hnd. eapply rtc_l; [apply (atomic_query references)|]. simpl.
  rewrite <- (bulkWrite_find_settle _ _ _ Hnd).
  apply bulkWrite_atomic. intros d Hd. by apply list_elem_of_fmap_2.
Qed.

Lemma settled_atomic l l' q :
  NoDup (_id <$> l) → settled l l' →
  ∃ q', rtc atomic (mkSys l q) (mkSys l' q').
Proof.
  intros Hnd Hs. induction Hs as [|l' references now Hs [q' IH]].
  { by exists q. }
  eexists. etrans; [exact IH|]. apply settle_atomic.
  by rewrite (settled_ids _ _ Hs).
Qed.

(** Every operation of the sequential model is an interleaved execution. *)
Lemma step_atomic db db' q :
  step db db' → NoDup (_id <$> donations db) →
  ∃ q', rtc atomic (mkSys (donations db) q) (mkSys (donations db') q').
Proof.
  intros Hstep Hnd. destruct Hstep as
    [ev uid amt ref db r db' H | gw reference db r db' H
    | rt gw req db r db' H | fuel txnFuel env db reads o db' total reads' H
    | es db ].
  - unfold Donation_create in H.
    destruct (preSave _ _ _) as [doc|e|e] eqn:Hpre;
      [|simplify_eq; by exists q..].
    destruct (existsb _ _); [simplify_eq; by exists q|].
    simplify_eq. apply preSave_Ok in Hpre as ->. exists q. simpl.
    apply rtc_once.
    apply (atomic_insert (freshId (donations db)) ev uid amt ref
             (mkSys (donations db) q)).
    simpl. intros Hin%freshId_above. lia.
  - assert (db' = snd (verifyPayment gw reference db)) as ->
      by (by rewrite H).
    destruct (verifyPayment_effect gw reference db) as [->|(x & gr & ->)];
      [by exists q|].
    exists q. apply rtc_once. apply (atomic_complete x gr (mkSys _ q)).
  - assert (db' = snd (paystackWebhook rt gw req db)) as ->
      by (by rewrite H).
    destruct (paystackWebhook_effect rt gw req db) as [->|(x & gr & ->)];
      [by exists q|].
    exists q. apply rtc_once. apply (atomic_complete x gr (mkSys _ q)).
  - destruct (run_settled _ _ _ _ _ _ _ _ _ Hnd H) as [Hs _].
    by apply settled_atomic.
  - by exists q.
Qed.

Lemma reachable_interleaved db :
  reachable db → ∃ q, rtc atomic (mkSys [] []) (mkSys (donations db) q).
Proof.
  induction 1 as [db H|db db' Hr [q IH] Hstep].
  - rewrite H. by exists [].
  - destruct (step_atomic db db' q Hstep) as [q' Hq'].
    { by apply reachable_consistent in Hr as [? _]. }
    exists q'. by etrans.
Qed.

(** * Further properties *)

(** ** [chipin] *)

Lemma Donation_create_cases ev uid amt ref db :
  (∃ r, Donation_create ev uid amt ref db = (r, db)
        ∧ ∀ d, r ≠ Ok d)
  ∨ (preSave (events db) true (newDonation (freshId (donations db)) ev uid amt ref)
     = Ok (setFee (calculateFee amt)
             (newDonation (freshId (donations db)) ev uid amt ref))
     ∧ existsb (λ d, Js.str_is (paymentReference d) ref) (donations db) = false
     ∧ Donation_create ev uid amt ref db
       = (Ok (setFee (calculateFee amt)
                (newDonation (freshId (donations db)) ev uid amt ref)),
          set_donations
            (donations db
             ++ [setFee (calculateFee amt)
                   (newDonation (freshId (donations db)) ev uid amt ref)]) db)).
Proof.
  unfold Donation_create.
  destruct (preSave _ _ _) as [doc|e|e] eqn:Hpre.
  - pose proof (preSave_Ok _ _ _ Hpre) as ->. simpl.
    destruct (existsb _ _) eqn:Hex.
    + left. eexists. split; [done|]. by intros d.
    + right. done.
  - left. eexists. split; [done|]. by intros d.
  - left. eexists. split; [done|]. by intros d.
Qed.

(** X1: [chipin] either leaves the database as it is or appends exactly one
    donation; it appends only for an existing private event with chip-in
    details, an amount that is not [<= 0], a passing pre-save hook and a
    reference not yet stored, and the donation appended is pending, not
    payout-eligible, and carries the amount, its fee and the reference. *)
Theorem chipin_appends_one_pending co front user amt eventId now hex db :
  snd (chipin co front user amt eventId now hex db) = db
  ∨ (∃ ev, Store.findEvent eventId (events db) = Some ev
           ∧ isPrivate ev = true ∧ is_Some (chipInDetails ev))
    ∧ PrimFloat.leb amt 0%float = false
    ∧ preSave (events db) true
        (newDonation (freshId (donations db)) eventId (user_id user) amt
           (chipinReference now hex))
      = Ok (chipinDonation user amt eventId now hex db)
    ∧ existsb (λ d, Js.str_is (paymentReference d) (chipinReference now hex))
        (donations db) = false
    ∧ snd (chipin co front user amt eventId now hex db)
      = set_donations
          (donations db ++ [chipinDonation user amt eventId now hex db]) db
    ∧ status (chipinDonation user amt eventId now hex db) = pending
    ∧ isPayoutEligible (chipinDonation user amt eventId now hex db) = false
    ∧ fee (chipinDonation user amt eventId now hex db) = Some (calculateFee amt)
    ∧ paymentReference (chipinDonation user amt eventId now hex db)
      = Some (chipinReference now hex).
Proof.
  unfold chipin.
  destruct (Store.findEvent eventId (events db)) as [ev|] eqn:Hev; [|by left].
  destruct (isPrivate ev) eqn:Hp; [|by left]. simpl.
  case_bool_decide as Hc; [|by left]. simpl.
  destruct (PrimFloat.leb amt 0) eqn:Hle; [by left|].
  destruct (Donation_create_cases eventId (user_id user) amt
              (chipinReference now hex) db)
    as [(r & -> & Hr)|(Hpre & Hnew & ->)].
  - left. destruct r as [d|e|e]; [by destruct (Hr d)|done..].
  - right. split_and!; try done; [by eauto|].
    by repeat case_match.
Qed.







(** ** [verifyPayment]: what an answer tells *)

Lemma Status_eqb_completed s : Status_eqb s completed = true ↔ s = completed.
Proof. by destruct s. Qed.

(** The donation the chip-in branch answers with is stored, completed, and
    carries the reference. *)
Lemma verifyChipin_donation ref pd db :
  match Store.findOne (byReference ref) (donations db) with
  | None =>
      verifyChipin ref pd db = (Next chipinNotFound, db)
  | Some (i, d) =>
      ∃ d' db',
        verifyChipin ref pd db = (formatResponse "chipin" d' db', db')
        ∧ donations db' !! i = Some d'
        ∧ status d' = completed
        ∧ paymentReference d' = Some ref
        ∧ event d' = event d
        ∧ events db' = events db
  end.
Proof.
  destruct (Store.findOne _ _) as [[i d]|] eqn:Hf.
  - pose proof (findOne_Some _ _ _ _ Hf) as [Hi Hm].
    rewrite matches_byReference in Hm.
    assert (Hr : paymentReference d = Some ref).
    { destruct (paymentReference d) as [r|]; [|done].
      by apply str_is_Some in Hm as ->. }
    unfold verifyChipin. rewrite Hf; simpl.
    destruct (Status_eqb (status d) completed) eqn:Hs.
    + exists d, db. apply Status_eqb_completed in Hs. done.
    + rewrite (findOneAndUpdate_Some _ _ _ _ _ Hf); simpl.
      do 2 eexists. split_and!; try done.
      simpl. rewrite list_lookup_insert_eq; [done|]. by eapply lookup_lt_Some.
  - unfold verifyChipin. rewrite Hf; simpl.
    by rewrite (findOneAndUpdate_None _ _ _ Hf), set_donations_id.
Qed.

(** X4: a success answer of verify-payment with data is sound.  It is sent
    with status 200 and payment type [chipin], only for a reference the
    gateway verifies as successful with exactly the expected amount, and the
    donation in the answer is stored after the request, completed, under that
    reference, with the view of its stored event. *)
Theorem verifyPayment_success_sound gw reference db code data pt :
  fst (verifyPayment gw reference db) = JsonVerified code (Some data) pt →
  code = 200 ∧ pt = "chipin"
  ∧ ∃ ref pd md ev,
      reference = Some ref ∧ ref ≠ ""
      ∧ verifiedChipin gw ref pd md
      ∧ PrimFloat.eqb (pd_amount pd) (expectedAmount md) = true
      ∧ fd_donation data ∈ donations (snd (verifyPayment gw reference db))
      ∧ status (fd_donation data) = completed
      ∧ paymentReference (fd_donation data) = Some ref
      ∧ Store.findEvent (event (fd_donation data)) (events db) = Some ev
      ∧ handleFormatData (fd_donation data) (Some ev) = inr data.
Proof.
  unfold verifyPayment.
  destruct reference as [[|c r]|]; [done| |done].
  destruct (transactionVerify gw (String c r)) as [e|pd] eqn:Hv; [done|].
  destruct (String.eqb (pd_status pd) "success") eqn:Hs; [|done]. simpl.
  apply String.eqb_eq in Hs.
  destruct (pd_metadata pd) as [md|] eqn:Hm; [|done].
  destruct (Js.strict_ne _ _) eqn:Ha; [done|].
  apply negb_false_iff in Ha.
  destruct (Js.str_is (pm_type md) "chipin") eqn:Ht.
  - assert (Ht' : pm_type md = Some "chipin").
    { destruct (pm_type md) as [t|]; [|done]. by apply str_is_Some in Ht as ->. }
    pose proof (verifyChipin_donation (String c r) pd db) as H.
    destruct (Store.findOne _ _) as [[i d]|].
    + destruct H as (d' & db' & -> & Hi & Hst & Hr & Hev & Hes). simpl.
      unfold formatResponse. rewrite Hes.
      destruct (Store.findEvent (event d') (events db)) as [ev|] eqn:He;
        [|done].
      simpl. intros [= <- <- <-]. split_and!; [done..|].
      exists (String c r), pd, md, ev. simpl. split_and!; try done.
      by eapply list_elem_of_lookup_2.
    + by rewrite H.
  - by destruct (Js.str_is (pm_type md) "ticket").
Qed.

Lemma verifyPayment_success_sound_witness :
  200 = 200 ∧ "chipin" = "chipin"
  ∧ ∃ ref pd md ev,
      Some Scenario.ref = Some ref ∧ ref ≠ ""
      ∧ verifiedChipin (Scenario.gatewayPaying 515000%float) ref pd md
      ∧ PrimFloat.eqb (pd_amount pd) (expectedAmount md) = true
      ∧ fd_donation paidData
        ∈ donations (snd (verifyPayment (Scenario.gatewayPaying 515000%float)
                            (Some Scenario.ref) Scenario.db0))
      ∧ status (fd_donation paidData) = completed
      ∧ paymentReference (fd_donation paidData) = Some ref
      ∧ Store.findEvent (event (fd_donation paidData)) (events Scenario.db0)
        = Some ev
      ∧ handleFormatData (fd_donation paidData) (Some ev) = inr paidData.
Proof.
  exact (verifyPayment_success_sound (Scenario.gatewayPaying 515000%float)
           (Some Scenario.ref) Scenario.db0 200 paidData "chipin" eq_refl).
Defined.

(** The chip-in branch for a pending donation whose event is gone. *)
Lemma verifyChipin_orphan ref pd db i d :
  Store.findOne (byReference ref) (donations db) = Some (i, d) →
  status d ≠ completed →
  Store.findEvent (event d) (events db) = None →
  verifyChipin ref pd db
  = (Next (gatewayAppError nullEventError),
     set_donations
       (<[i := applyUpdate (completionUpdate ref (gateway_response pd)) d]>
          (donations db)) db).
Proof.
  intros Hf Hs He.
  assert (Hnc : Status_eqb (status d) completed = false).
  { destruct (Status_eqb _ _) eqn:E; [|done].
    by apply Status_eqb_completed in E. }
  unfold verifyChipin. rewrite Hf; simpl. rewrite Hnc.
  rewrite (findOneAndUpdate_Some _ _ _ _ _ Hf).
  unfold formatResponse; simpl. by rewrite He.
Qed.

(** X5: when the event of a donation no longer exists, verify-payment
    completes the donation and then fails: the completion write is made, and
    the answer is an error with status 500; a retry answers 500 again and
    changes nothing. *)
Theorem verifyPayment_missing_event gw ref pd md db i d :
  ref ≠ "" →
  verifiedChipin gw ref pd md →
  Js.strict_ne (pd_amount pd) (expectedAmount md) = false →
  Store.findOne (byReference ref) (donations db) = Some (i, d) →
  status d ≠ completed →
  Store.findEvent (event d) (events db) = None →
  let db' := snd (verifyPayment gw (Some ref) db) in
  fst (verifyPayment gw (Some ref) db) = Next (gatewayAppError nullEventError)
  ∧ statusCode (gatewayAppError nullEventError) = 500
  ∧ donations db'
    = <[i := applyUpdate (completionUpdate ref (gateway_response pd)) d]>
        (donations db)
  ∧ verifyPayment gw (Some ref) db'
    = (Next (gatewayAppError nullEventError), db').
Proof.
  intros Hne Hv Ha Hf Hs He db'. subst db'.
  rewrite !(verifyPayment_chipin _ _ _ _ _ Hne Hv Ha).
  rewrite (verifyChipin_orphan _ _ _ _ _ Hf Hs He); simpl.
  split_and!; [done..|].
  destruct (completionWrite_found ref (gateway_response pd) _ _ _ Hf)
    as [_ Hf'].
  unfold completionWrite in Hf'.
  rewrite (findOneAndUpdate_Some _ _ _ _ _ Hf) in Hf'; simpl in Hf'.
  unfold verifyChipin; simpl. rewrite Hf'; simpl.
  unfold formatResponse; simpl. by rewrite He.
Qed.

Lemma verifyPayment_missing_event_witness :
  fst (verifyPayment (Scenario.gatewayPaying 515000%float) (Some Scenario.ref)
         orphanDb)
  = Next (gatewayAppError nullEventError)
  ∧ statusCode (gatewayAppError nullEventError) = 500
  ∧ donations (snd (verifyPayment (Scenario.gatewayPaying 515000%float)
                      (Some Scenario.ref) orphanDb))
    = <[0%nat := applyUpdate
                   (completionUpdate Scenario.ref
                      (gateway_response (Scenario.verified 515000%float)))
                   Scenario.created]> (donations orphanDb)
  ∧ verifyPayment (Scenario.gatewayPaying 515000%float) (Some Scenario.ref)
      (snd (verifyPayment (Scenario.gatewayPaying 515000%float)
              (Some Scenario.ref) orphanDb))
    = (Next (gatewayAppError nullEventError),
       snd (verifyPayment (Scenario.gatewayPaying 515000%float)
              (Some Scenario.ref) orphanDb)).
Proof.
  apply (verifyPayment_missing_event (Scenario.gatewayPaying 515000%float)
           Scenario.ref (Scenario.verified 515000%float)
           Scenario.chipinMetadata orphanDb 0%nat Scenario.created
           OnScenario.ref_nonempty (OnScenario.gateway_verifies 515000%float)).
  - reflexivity.
  - reflexivity.
  - discriminate.
  - reflexivity.
Defined.

(** ** What the handlers leave alone *)

Lemma sameOrCompleted_refl d : sameOrCompleted d d.
Proof. unfold sameOrCompleted. split_and!; auto. Qed.

Lemma completionFrame_refl db : completionFrame db db.
Proof.
  split_and!; [done..|by exists 0%nat|].
  intros i d d' H1 H2. simplify_eq. apply sameOrCompleted_refl.
Qed.

Lemma completionFrame_write ref gr db :
  completionFrame db (set_donations (completionWrite ref gr (donations db)) db).
Proof.
  destruct (completionWrite_cases ref gr (donations db))
    as [->|(i & d & Hi & Hr & ->)].
  { rewrite set_donations_id. apply completionFrame_refl. }
  split_and!; simpl; [done|done|by rewrite length_insert| |].
  - exists i. intros j Hj. by rewrite list_lookup_insert_ne.
  - intros j x x' Hx Hx'. destruct (decide (j = i)) as [->|Hj].
    + rewrite list_lookup_insert_eq in Hx' by (by eapply lookup_lt_Some).
      simplify_eq. unfold sameOrCompleted; simpl. split_and!; auto.
    + rewrite list_lookup_insert_ne in Hx' by done. simplify_eq.
      apply sameOrCompleted_refl.
Qed.

(** X6: whatever the request, each of the two handlers leaves the events and
    the checkpoints as they are, adds and removes no donation, and changes
    at most one donation; of that donation it changes the status, to
    completed, and the metadata, to the gateway and the donation's own
    reference, and no other field: not the amount, the fee, the reference,
    the payout status, the settlement date or the payout eligibility. *)
Theorem handlers_frame rt gw req reference db :
  completionFrame db (snd (verifyPayment gw reference db))
  ∧ completionFrame db (snd (paystackWebhook rt gw req db)).
Proof.
  split.
  - destruct (verifyPayment_effect gw reference db) as [->|(ref & gr & ->)];
      [apply completionFrame_refl|apply completionFrame_write].
  - destruct (paystackWebhook_effect rt gw req db) as [->|(ref & gr & ->)];
      [apply completionFrame_refl|apply completionFrame_write].
Qed.

(** ** The job: invariants of its loops *)

Lemma reconcilePage_ids clk references st :
  NoDup (_id <$> js_donations st) →
  _id <$> js_donations (reconcilePage clk references st)
  = _id <$> js_donations st.
Proof. intros Hnd. by apply settled_ids, reconcilePage_settled. Qed.

Section LoopInvariant.

Variable env : JobEnv.
Variable P : JobState → Prop.
Variable R : JobState → JobState → Prop.
Hypothesis P_page : ∀ references st,
  P st → P (reconcilePage (clock env) references st).
Hypothesis R_refl : ∀ st, R st st.
Hypothesis R_trans : ∀ a b c, R a b → R b c → R a c.
Hypothesis R_page : ∀ references st,
  P st → R st (reconcilePage (clock env) references st).

Lemma txnLoop_invariant fuel sid page st o st' :
  P st → txnLoop fuel env sid page st = (o, st') → R st st' ∧ P st'.
Proof using P_page R_refl R_trans R_page.
  revert page st. induction fuel as [|fuel IH]; intros page st HP; simpl.
  { by intros [= _ <-]. }
  destruct (listSettlementTransactions _ _ _) as [e|[[|t txns]|]];
    try (by intros [= _ <-]).
  set (st1 := match validReferences (t :: txns) with
              | [] => st
              | _ => reconcilePage (clock env) (validReferences (t :: txns)) st
              end).
  assert (H1 : R st st1 ∧ P st1).
  { unfold st1. destruct (validReferences (t :: txns)) eqn:E; [done|].
    rewrite <- E. split; [by apply R_page|by apply P_page]. }
  assert (Heq : match validReferences (t :: txns) with
                | [] => st
                | r :: rs => reconcilePage (clock env) (r :: rs) st
                end = st1).
  { unfold st1. by destruct (validReferences (t :: txns)). }
  rewrite Heq. destruct H1 as [H1 HP1].
  destruct (Z.of_nat (length (t :: txns)) <? 100)%Z.
  - by intros [= _ <-].
  - intros H. destruct (IH _ _ HP1 H) as [H2 HP2]. eauto.
Qed.

Lemma forSettlements_invariant txnFuel ss st o st' :
  P st → forSettlements txnFuel env ss st = (o, st') → R st st' ∧ P st'.
Proof using P_page R_refl R_trans R_page.
  revert st. induction ss as [|s ss IH]; intros st HP; simpl.
  { by intros [= _ <-]. }
  destruct (txnLoop txnFuel env (settlement_id s) 1 st) as [o1 st1] eqn:E1.
  destruct (txnLoop_invariant _ _ _ _ _ _ HP E1) as [H1 HP1].
  destruct o1.
  - intros H. destruct (IH _ HP1 H) as [H2 HP2]. eauto.
  - by intros [= _ <-].
  - by intros [= _ <-].
Qed.

Lemma settlementLoop_invariant fuel txnFuel from page st o st' :
  P st →
  settlementLoop fuel txnFuel env from page st = (o, st') → R st st' ∧ P st'.
Proof using P_page R_refl R_trans R_page.
  revert page st. induction fuel as [|fuel IH]; intros page st HP; simpl.
  { by intros [= _ <-]. }
  destruct (listSettlements _ _ _) as [e|[[|s ss]|]];
    try (by intros [= _ <-]).
  destruct (forSettlements txnFuel env (s :: ss) st) as [o1 st1] eqn:E1.
  destruct (forSettlements_invariant _ _ _ _ _ HP E1) as [H1 HP1].
  destruct o1.
  - destruct (Z.of_nat (length (s :: ss)) <? 50)%Z.
    + by intros [= _ <-].
    + intros H. destruct (IH _ _ HP1 H) as [H2 HP2]. eauto.
  - by intros [= _ <-].
  - by intros [= _ <-].
Qed.

End LoopInvariant.

Lemma uniqueIds_page clk references st :
  uniqueIds st → uniqueIds (reconcilePage clk references st).
Proof. unfold uniqueIds. intros H. by rewrite reconcilePage_ids. Qed.

(** ** The job: what [totalReconciled] counts *)

Lemma settle_count references now l :
  eligibleCount (settle references now l)
  = (eligibleCount l
     + length (Store.find (settlementFilter references) l))%nat.
Proof.
  unfold eligibleCount, settle, Store.find.
  induction l as [|d l IH]; [done|].
  rewrite fmap_cons, !filter_cons.
  destruct (matches (settlementFilter references) d) eqn:Hm.
  - apply matches_settlementFilter in Hm as (_ & He & _).
    repeat case_decide; simpl in *; try congruence.
    rewrite IH. lia.
  - repeat case_decide; simpl in *; try congruence; rewrite IH; lia.
Qed.

Lemma counted_refl st : counted st st.
Proof. unfold counted. lia. Qed.

Lemma counted_trans a b c : counted a b → counted b c → counted a c.
Proof. unfold counted. lia. Qed.

Lemma counted_page clk references st :
  NoDup (_id <$> js_donations st) →
  counted st (reconcilePage clk references st).
Proof.
  intros Hnd. unfold counted.
  rewrite (reconcilePage_settle _ _ _ Hnd), settle_count.
  unfold reconcilePage.
  destruct (0 <? Z.of_nat (length (Store.find _ _)))%Z eqn:E; simpl; [lia|].
  apply Z.ltb_ge in E. lia.
Qed.

(** X8: the total a run reports is the number of donations the run made
    payout-eligible: the count of payout-eligible donations after the run
    less the count before, whatever the outcome of the run. *)
Theorem run_total_counts_settled
    fuel txnFuel env db reads o db' total reads' :
  NoDup (_id <$> donations db) →
  runPaystackSettlementReconcile fuel txnFuel env db reads
  = (o, db', total, reads') →
  total = Z.of_nat (eligibleCount (donations db'))
          - Z.of_nat (eligibleCount (donations db)).
Proof.
  intros Hnd. unfold runPaystackSettlementReconcile.
  destruct (readWindowStart env db reads) as [[e|from] r].
  { intros [= _ <- <- _]. lia. }
  destruct (settlementLoop _ _ _ _ _ _) as [o1 st1] eqn:E1.
  apply (settlementLoop_invariant env uniqueIds counted
           (uniqueIds_page (clock env)) counted_refl counted_trans
           (counted_page (clock env))) in E1 as [E1 _]; [|done].
  unfold counted in E1; simpl in E1.
  destruct o1; intros [= _ <- <- _]; simpl; lia.
Qed.

Lemma run_total_counts_settled_witness :
  1 = Z.of_nat (eligibleCount (donations ScenarioC.dbSettled))
      - Z.of_nat (eligibleCount (donations ScenarioC.dbPaid)).
Proof.
  apply (run_total_counts_settled 5 5 ScenarioC.env ScenarioC.dbPaid 0
           Finished ScenarioC.dbSettled 1 3%nat).
  - apply NoDup_singleton.
  - vm_compute. reflexivity.
Defined.

(** ** The job: what a run leaves alone *)

Lemma sameOrSettled_mono clk lo hi lo' hi' d d' :
  (lo' ≤ lo)%nat → (hi ≤ hi')%nat →
  sameOrSettled clk lo hi d d' → sameOrSettled clk lo' hi' d d'.
Proof.
  intros Hlo Hhi [->|(H1 & H2 & H3 & H4 & n & Hn & ->)]; [by left|].
  right. split_and!; [done..|]. exists n. split; [lia|done].
Qed.

Lemma settlementFrame_refl clk st : settlementFrame clk st st.
Proof. split; [done|]. intros i d Hi. exists d. split; [done|by left]. Qed.

Lemma settlementFrame_trans clk a b c :
  settlementFrame clk a b → settlementFrame clk b c → settlementFrame clk a c.
Proof.
  intros [Hab Fab] [Hbc Fbc]. split; [lia|].
  intros i d Hi. destruct (Fab i d Hi) as (d' & Hi' & Hd').
  destruct (Fbc i d' Hi') as (d'' & Hi'' & Hd'').
  exists d''. split; [done|].
  destruct Hd' as [->|(H1 & H2 & H3 & H4 & n & Hn & ->)].
  - eapply sameOrSettled_mono; [| |exact Hd'']; lia.
  - destruct Hd'' as [->|(_ & He & _)]; [|done].
    right. split_and!; [done..|]. exists n. split; [lia|done].
Qed.

Lemma settlementFrame_page clk references st :
  NoDup (_id <$> js_donations st) →
  settlementFrame clk st (reconcilePage clk references st).
Proof.
  intros Hnd. pose proof (reconcilePage_settle clk references st Hnd) as Hd.
  assert (Hr : reconcilePage clk references st = st
               ∨ clockReads (reconcilePage clk references st)
                 = S (clockReads st)).
  { unfold reconcilePage. destruct (0 <? _)%Z; [by right|by left]. }
  destruct Hr as [->|Hr]; [apply settlementFrame_refl|].
  split; [lia|]. intros i d Hi. rewrite Hd, Hr.
  unfold settle. rewrite list_lookup_fmap, Hi; simpl.
  eexists; split; [done|].
  destruct (matches (settlementFilter references) d) eqn:Hm; [|by left].
  apply matches_settlementFilter in Hm as (H1 & H2 & H3 & H4 & _).
  right. split_and!; [done..|]. exists (clockReads st). split; [lia|done].
Qed.

(** X9: a run of the job changes nothing but the settlement of donations.
    It leaves the events and every checkpoint but its own as they are and
    keeps the number of donations; a donation it changes was completed, not
    payout-eligible, with payout pending and paid through the gateway, and
    the change sets the settlement date, to a reading of the clock made
    during the run, and the payout eligibility, and no other field. *)
Theorem run_changes_only_settlement
    fuel txnFuel env db reads o db' total reads' :
  NoDup (_id <$> donations db) →
  runPaystackSettlementReconcile fuel txnFuel env db reads
  = (o, db', total, reads') →
  events db' = events db
  ∧ (∀ name, name ≠ jobName → jobs db' !! name = jobs db !! name)
  ∧ length (donations db') = length (donations db)
  ∧ ∀ i d, donations db !! i = Some d →
      ∃ d', donations db' !! i = Some d'
            ∧ sameOrSettled (clock env) reads reads' d d'.
Proof.
  intros Hnd Hrun.
  destruct (run_settled _ _ _ _ _ _ _ _ _ Hnd Hrun) as [Hs Hev].
  split; [done|].
  assert (Hlen : length (donations db') = length (donations db)).
  { apply settled_ids in Hs. apply (f_equal length) in Hs.
    by rewrite !length_fmap in Hs. }
  revert Hrun. unfold runPaystackSettlementReconcile.
  assert (Hw : (reads ≤ snd (readWindowStart env db reads))%nat).
  { unfold readWindowStart. destruct (Job.getLastRun _ _); simpl; lia. }
  destruct (readWindowStart env db reads) as [[e|from] r]; simpl in Hw.
  { intros [= _ <- _ <-]. split_and!; [done..|].
    intros i d Hi. exists d. split; [done|by left]. }
  destruct (settlementLoop _ _ _ _ _ _) as [o1 st1] eqn:E1.
  apply (settlementLoop_invariant env uniqueIds (settlementFrame (clock env))
           (uniqueIds_page (clock env))
           (settlementFrame_refl _) (settlementFrame_trans _)
           (settlementFrame_page _)) in E1 as [E1 _]; [|done].
  destruct E1 as [Hle Hframe]; simpl in Hle, Hframe.
  assert (Hgoal : ∀ hi, (clockReads st1 ≤ hi)%nat →
            ∀ i d, donations db !! i = Some d →
              ∃ d', js_donations st1 !! i = Some d'
                    ∧ sameOrSettled (clock env) reads hi d d').
  { intros hi Hhi i d Hi. destruct (Hframe i d Hi) as (d' & Hi' & Hd').
    exists d'. split; [done|].
    eapply sameOrSettled_mono; [| |exact Hd']; lia. }
  destruct o1; intros [= _ <- _ <-]; simpl.
  - split_and!; [|done|apply Hgoal; lia].
    intros name Hname. unfold Job.updateLastRun.
    by rewrite lookup_insert_ne.
  - split_and!; [done..|apply Hgoal; lia].
  - split_and!; [done..|apply Hgoal; lia].
Qed.

Lemma run_changes_only_settlement_witness :
  events ScenarioC.dbSettled = events ScenarioC.dbPaid
  ∧ (∀ name, name ≠ jobName →
       jobs ScenarioC.dbSettled !! name = jobs ScenarioC.dbPaid !! name)
  ∧ length (donations ScenarioC.dbSettled) = length (donations ScenarioC.dbPaid)
  ∧ ∀ i d, donations ScenarioC.dbPaid !! i = Some d →
      ∃ d', donations ScenarioC.dbSettled !! i = Some d'
            ∧ sameOrSettled (clock ScenarioC.env) 0 3 d d'.
Proof.
  apply (run_changes_only_settlement 5 5 ScenarioC.env ScenarioC.dbPaid 0
           Finished ScenarioC.dbSettled 1 3%nat).
  - apply NoDup_singleton.
  - vm_compute. reflexivity.
Defined.

(** ** The job: the bound on its loops *)

(** X10: the bound on the iterations of the model is immaterial.  When the
    window start is valid, the settlement list ends within the bound and
    every transaction list ends within the bound, the run finishes or
    raises, and it gives the same outcome, database, total and clock
    readings under every larger bound. *)
Theorem run_independent_of_bound fuel txnFuel env db reads from r k :
  readWindowStart env db reads = (inr from, r) →
  (k < fuel)%nat →
  lastSettlementPage (paystack env) from (1 + Z.of_nat k) = true →
  (∀ sid, ∃ j, (j < txnFuel)%nat
               ∧ lastTxnPage (paystack env) sid (1 + Z.of_nat j) = true) →
  ∃ o db' total reads',
    o ≠ OutOfFuel
    ∧ ∀ fuel' txnFuel', (fuel ≤ fuel')%nat → (txnFuel ≤ txnFuel')%nat →
        runPaystackSettlementReconcile fuel' txnFuel' env db reads
        = (o, db', total, reads').
Proof.
  intros Hw Hk Hlast Hend.
  pose proof (run_terminates fuel txnFuel env db reads from r k Hw Hk Hlast Hend)
    as Ho.
  destruct (runPaystackSettlementReconcile fuel txnFuel env db reads)
    as [[[o db'] total] reads'] eqn:Hrun.
  exists o, db', total, reads'. split; [done|].
  intros fuel' txnFuel' Hf Ht. by eapply run_more_fuel.
Qed.

Lemma run_independent_of_bound_witness :
  ∃ o db' total reads',
    o ≠ OutOfFuel
    ∧ ∀ fuel' txnFuel', (5 ≤ fuel')%nat → (5 ≤ txnFuel')%nat →
        runPaystackSettlementReconcile fuel' txnFuel' ScenarioC.env
          ScenarioC.dbPaid 0
        = (o, db', total, reads').
Proof.
  apply (run_independent_of_bound 5 5 ScenarioC.env ScenarioC.dbPaid 0
           (ScenarioC.clock 0 - 86400000) 1%nat 1%nat).
  - reflexivity.
  - lia.
  - reflexivity.
  - intros sid. exists 0%nat. split; [lia|].
    unfold lastTxnPage; simpl. unfold ScenarioC.transactionsPage.
    destruct (sid =? 1)%Z; reflexivity.
Defined.

(** ** [getTotalDonations] *)

Lemma getTotalDonations_amounts sum e l :
  getTotalDonations sum e l
  = match amount <$> completedOf e l with
    | [] => None
    | a => Some (mkTotals e (sum a) (Z.of_nat (length a)))
    end.
Proof.
  unfold getTotalDonations. destruct (completedOf e l) as [|d ds]; [done|].
  by rewrite !fmap_cons, !length_cons, length_fmap.
Qed.

Lemma donationCount_length sum e l :
  donationCount sum e l = Z.of_nat (length (completedOf e l)).
Proof.
  unfold donationCount, getTotalDonations.
  by destruct (completedOf e l).
Qed.

Lemma completedOf_app e l1 l2 :
  completedOf e (l1 ++ l2) = (completedOf e l1 ++ completedOf e l2)%list.
Proof. apply filter_app. Qed.

(** The completed donations of an event after one donation is replaced. *)
Lemma completedOf_insert e l i d d' :
  l !! i = Some d →
  completedOf e l
  = (completedOf e (take i l) ++ completedOf e [d]
     ++ completedOf e (drop (S i) l))%list
  ∧ completedOf e (<[i := d']> l)
    = (completedOf e (take i l) ++ completedOf e [d']
       ++ completedOf e (drop (S i) l))%list.
Proof.
  intros Hi. split.
  - rewrite <- (take_drop_middle l i d Hi) at 1.
    rewrite completedOf_app.
    change (d :: drop (S i) l) with ([d] ++ drop (S i) l)%list.
    by rewrite completedOf_app.
  - rewrite insert_take_drop by (by eapply lookup_lt_Some).
    rewrite completedOf_app.
    change (d' :: drop (S i) l) with ([d'] ++ drop (S i) l)%list.
    by rewrite completedOf_app.
Qed.

Lemma completedOf_singleton e d :
  completedOf e [d]
  = if Z.eqb (event d) e && Status_eqb (status d) completed then [d] else [].
Proof.
  unfold completedOf. rewrite filter_cons, filter_nil.
  destruct (_ && _); by case_decide.
Qed.

Lemma complete_state_path p rt gw req ref pd md db :
  ref ≠ "" →
  authentic rt req ref →
  verifiedChipin gw ref pd md →
  (p = ViaVerify → Js.strict_ne (pd_amount pd) (expectedAmount md) = false) →
  snd (complete p rt gw req ref db) = completeOnce ref (gateway_response pd) db.
Proof.
  intros Hne Hauth Hv Ha. unfold completeOnce. destruct p; unfold complete.
  - rewrite (paystackWebhook_chipin _ _ _ _ _ _ _ Hauth Hv).
    rewrite <- webhookChipin_state.
    by destruct (webhookChipin ref pd db) as [[r|] db'].
  - rewrite (verifyPayment_chipin _ _ _ _ _ Hne Hv (Ha eq_refl)).
    apply verifyChipin_state.
Qed.

(** X11: a completed payment counts once.  When a handler completes a
    pending donation, the number of completed donations that
    [getTotalDonations] reports for its event grows by exactly one, the
    totals of every other event stay as they are, and a second delivery, by
    either handler, adds nothing. *)
Theorem completion_counts_once sum p1 p2 rt gw req ref pd md db i d :
  ref ≠ "" →
  authentic rt req ref →
  verifiedChipin gw ref pd md →
  (p1 = ViaVerify ∨ p2 = ViaVerify →
   Js.strict_ne (pd_amount pd) (expectedAmount md) = false) →
  Store.findOne (byReference ref) (donations db) = Some (i, d) →
  status d ≠ completed →
  let db1 := snd (complete p1 rt gw req ref db) in
  let db2 := snd (complete p2 rt gw req ref db1) in
  donationCount sum (event d) (donations db1)
  = donationCount sum (event d) (donations db) + 1
  ∧ (∀ e, e ≠ event d →
       getTotalDonations sum e (donations db1)
       = getTotalDonations sum e (donations db))
  ∧ donationCount sum (event d) (donations db2)
    = donationCount sum (event d) (donations db) + 1.
Proof.
  intros Hne Hauth Hv Ha Hf Hs db1 db2.
  assert (Hnc : Status_eqb (status d) completed = false).
  { destruct (Status_eqb _ _) eqn:E; [|done].
    by apply Status_eqb_completed in E. }
  assert (H1 : db1 = set_donations
                 (<[i := applyUpdate (completionUpdate ref (gateway_response pd)) d]>
                    (donations db)) db).
  { unfold db1. rewrite (complete_state_path _ _ _ _ _ _ _ _ Hne Hauth Hv)
      by (intros ?; apply Ha; by left).
    unfold completeOnce. rewrite Hf; simpl. rewrite Hnc.
    by destruct (completionWrite_found ref (gateway_response pd) _ _ _ Hf)
      as [-> _]. }
  assert (H2 : db2 = db1).
  { unfold db2. rewrite (complete_state_path _ _ _ _ _ _ _ _ Hne Hauth Hv)
      by (intros ?; apply Ha; by right).
    unfold completeOnce. rewrite H1; simpl.
    destruct (completionWrite_found ref (gateway_response pd) _ _ _ Hf)
      as [Hw Hf']. rewrite Hw in Hf'. by rewrite Hf'. }
  pose proof (findOne_Some _ _ _ _ Hf) as [Hi _].
  assert (Hcount : donationCount sum (event d) (donations db1)
                   = donationCount sum (event d) (donations db) + 1).
  { rewrite H1, !donationCount_length; simpl.
    destruct (completedOf_insert (event d) _ i d
                (applyUpdate (completionUpdate ref (gateway_response pd)) d) Hi)
      as [-> ->].
    rewrite !completedOf_singleton; simpl.
    rewrite Z.eqb_refl, Hnc; simpl. rewrite !length_app; simpl. lia. }
  split_and!; [done| |by rewrite H2].
  intros e He. rewrite H1, !getTotalDonations_amounts; simpl.
  destruct (completedOf_insert e _ i d
              (applyUpdate (completionUpdate ref (gateway_response pd)) d) Hi)
    as [-> ->].
  rewrite !completedOf_singleton; simpl.
  assert (Z.eqb (event d) e = false) as -> by (apply Z.eqb_neq; congruence).
  done.
Qed.

Lemma completion_counts_once_witness :
  donationCount sumLeft (event Scenario.created)
    (donations (snd (complete ViaWebhook Scenario.runtime
                       (Scenario.gatewayPaying 515000%float) Scenario.request
                       Scenario.ref Scenario.db0)))
  = donationCount sumLeft (event Scenario.created) (donations Scenario.db0) + 1
  ∧ (∀ e, e ≠ event Scenario.created →
       getTotalDonations sumLeft e
         (donations (snd (complete ViaWebhook Scenario.runtime
                            (Scenario.gatewayPaying 515000%float)
                            Scenario.request Scenario.ref Scenario.db0)))
       = getTotalDonations sumLeft e (donations Scenario.db0))
  ∧ donationCount sumLeft (event Scenario.created)
      (donations
         (snd (complete ViaVerify Scenario.runtime
                 (Scenario.gatewayPaying 515000%float) Scenario.request
                 Scenario.ref
                 (snd (complete ViaWebhook Scenario.runtime
                         (Scenario.gatewayPaying 515000%float)
                         Scenario.request Scenario.ref Scenario.db0)))))
    = donationCount sumLeft (event Scenario.created) (donations Scenario.db0) + 1.
Proof.
  apply (completion_counts_once sumLeft ViaWebhook ViaVerify Scenario.runtime
           (Scenario.gatewayPaying 515000%float) Scenario.request Scenario.ref
           (Scenario.verified 515000%float) Scenario.chipinMetadata
           Scenario.db0 0%nat Scenario.created OnScenario.ref_nonempty
           OnScenario.request_authentic
           (OnScenario.gateway_verifies 515000%float)).
  - intros _. reflexivity.
  - reflexivity.
  - discriminate.
Defined.

Lemma completedOf_settle e references now l :
  amount <$> completedOf e (settle references now l)
  = amount <$> completedOf e l.
Proof.
  unfold completedOf, settle. induction l as [|d l IH]; [done|].
  rewrite fmap_cons, !filter_cons.
  destruct (matches (settlementFilter references) d); simpl;
    case_decide; by rewrite ?fmap_cons, IH.
Qed.

Lemma settled_amounts e l l' :
  settled l l' → amount <$> completedOf e l' = amount <$> completedOf e l.
Proof.
  induction 1 as [|l' references now _ IH]; [done|].
  by rewrite completedOf_settle.
Qed.

(** X12: a run of the job changes no total: for every event, what
    [getTotalDonations] returns after the run is what it returned before,
    the amounts in the same order, whatever the accumulator and whatever the
    outcome of the run. *)
Theorem run_keeps_totals
    sum eventId fuel txnFuel env db reads o db' total reads' :
  NoDup (_id <$> donations db) →
  runPaystackSettlementReconcile fuel txnFuel env db reads
  = (o, db', total, reads') →
  getTotalDonations sum eventId (donations db')
  = getTotalDonations sum eventId (donations db).
Proof.
  intros Hnd Hrun.
  destruct (run_settled _ _ _ _ _ _ _ _ _ Hnd Hrun) as [Hs _].
  by rewrite !getTotalDonations_amounts, (settled_amounts _ _ _ Hs).
Qed.

Lemma run_keeps_totals_witness :
  getTotalDonations sumLeft 1 (donations ScenarioC.dbSettled)
  = getTotalDonations sumLeft 1 (donations ScenarioC.dbPaid).
Proof.
  apply (run_keeps_totals sumLeft 1 5 5 ScenarioC.env ScenarioC.dbPaid 0
           Finished ScenarioC.dbSettled 1 3%nat).
  - apply NoDup_singleton.
  - vm_compute. reflexivity.
Defined.

(** ** [deleteEvent] *)

Lemma getTotalDonations_positive sum e l :
  match getTotalDonations sum e l with
  | Some t => (0 <? totalDonations t)%Z
  | None => false
  end = negb (bool_decide (completedOf e l = [])).
Proof.
  unfold getTotalDonations. destruct (completedOf e l) as [|d ds]; [done|].
  rewrite bool_decide_eq_false_2 by done. simpl. apply Z.ltb_lt. lia.
Qed.

(** X13: who may delete an event.  [deleteEvent] answers 204, and with no
    other success status, exactly when the event exists, its creator exists,
    the rule allows the user (the creator when the event has no completed
    donation and has not started, pending donations notwithstanding; an
    administrator when the creator is someone else) and the hook succeeds;
    and it changes the event collection only by removing that event, and
    only when the rule allows. *)
Theorem deleteEvent_guard sum afterDelete user eventId now docs l :
  let r := deleteEvent sum afterDelete user eventId now docs l in
  let allowed i ev :=
    list_find (λ e, ev_id (doc_event e) = eventId) docs = Some (i, ev)
    ∧ ∃ creator, doc_creator ev = Some creator
                 ∧ mayDelete user now ev creator l in
  ((∃ code, fst r = Deleted code)
   ↔ ∃ i ev, allowed i ev ∧ afterDelete ev = None)
  ∧ (∀ code, fst r = Deleted code → code = 204)
  ∧ (snd r = docs ∨ ∃ i ev, allowed i ev ∧ snd r = delete i docs).
Proof.
  intros r allowed. unfold r, allowed, deleteEvent, mayDelete.
  destruct (list_find _ docs) as [[i ev]|] eqn:Hfind.
  2:{ split_and!; [|done|by left].
      split; [by intros [? ?]|by intros (? & ? & [? _] & _)]. }
  destruct (doc_creator ev) as [creator|] eqn:Hc.
  2:{ split_and!; [|done|by left].
      split; [by intros [? ?]|].
      intros (? & ? & [[= <- <-] (? & ? & _)] & _). congruence. }
  rewrite getTotalDonations_positive.
  destruct (Z.eqb creator (user_id user)) eqn:Hu;
    [apply Z.eqb_eq in Hu|apply Z.eqb_neq in Hu]; simpl.
  - case_bool_decide as Hd; simpl.
    + destruct (doc_startDate ev <=? now)%Z eqn:Hs;
        [apply Z.leb_le in Hs|apply Z.leb_gt in Hs].
      * split_and!; [|done|by left].
        split; [by intros [? ?]|].
        intros (? & ? & [[= <- <-] (c & Hc' & Hm)] & _).
        rewrite Hc in Hc'. injection Hc' as <-.
        destruct Hm as [(_ & _ & ?)|[? _]]; [lia|done].
      * assert (Hall : ∃ c, Some creator = Some c
                  ∧ (c = user_id user
                     ∧ completedOf (ev_id (doc_event ev)) l = []
                     ∧ now < doc_startDate ev
                     ∨ c ≠ user_id user ∧ user_role user = "admin"))
          by (exists creator; split; [done|left; done]).
        split_and!.
        -- split.
           ++ intros [code Hcode]. exists i, ev.
              rewrite Hc. split; [done|].
              simpl in Hcode. by destruct (afterDelete ev).
           ++ intros (? & ? & [[= <- <-] _] & ->). by exists 204.
        -- intros code. simpl. destruct (afterDelete ev); [done|].
           by intros [= <-].
        -- right. exists i, ev. rewrite Hc. done.
    + split_and!; [|done|by left].
      split; [by intros [? ?]|].
      intros (? & ? & [[= <- <-] (c & Hc' & Hm)] & _).
      rewrite Hc in Hc'. injection Hc' as <-.
      destruct Hm as [(_ & ? & _)|[? _]]; done.
  - destruct (String.eqb (user_role user) "admin") eqn:Ha;
      [apply String.eqb_eq in Ha|apply String.eqb_neq in Ha]; simpl.
    + assert (Hall : ∃ c, Some creator = Some c
                  ∧ (c = user_id user
                     ∧ completedOf (ev_id (doc_event ev)) l = []
                     ∧ now < doc_startDate ev
                     ∨ c ≠ user_id user ∧ user_role user = "admin"))
        by (exists creator; split; [done|right; done]).
      split_and!.
      * split.
        -- intros [code Hcode]. exists i, ev.
           rewrite Hc. split; [done|].
           simpl in Hcode. by destruct (afterDelete ev).
        -- intros (? & ? & [[= <- <-] _] & ->). by exists 204.
      * intros code. simpl. destruct (afterDelete ev); [done|].
        by intros [= <-].
      * right. exists i, ev. rewrite Hc. done.
    + split_and!; [|done|by left].
      split; [by intros [? ?]|].
      intros (? & ? & [[= <- <-] (c & Hc' & Hm)] & _).
      rewrite Hc in Hc'. injection Hc' as <-.
      destruct Hm as [(? & _)|[_ ?]]; done.
Qed.

(** With unique identifiers, a document found by its identifier is not
    found once it is deleted. *)
Lemma list_find_delete {A} (f : A → Z) (l : list A) id i x :
  NoDup (f <$> l) →
  list_find (λ e, f e = id) l = Some (i, x) →
  list_find (λ e, f e = id) (delete i l) = None.
Proof.
  intros Hnd (Hi & Hx & _)%list_find_Some.
  apply list_find_None, Forall_forall. intros y Hy Hid.
  apply list_elem_of_lookup in Hy as [j Hj].
  assert (Hi' : (f <$> l) !! i = Some id)
    by (by rewrite list_lookup_fmap, Hi; simpl; rewrite Hx).
  destruct (decide (j < i)%nat) as [Hlt|Hge].
  - rewrite list_lookup_delete_lt in Hj by done.
    assert (Hj' : (f <$> l) !! j = Some id)
      by (by rewrite list_lookup_fmap, Hj; simpl; rewrite Hid).
    pose proof (NoDup_lookup _ _ _ _ Hnd Hi' Hj'). lia.
  - rewrite list_lookup_delete_ge in Hj by lia.
    assert (Hj' : (f <$> l) !! S j = Some id)
      by (by rewrite list_lookup_fmap, Hj; simpl; rewrite Hid).
    pose proof (NoDup_lookup _ _ _ _ Hnd Hi' Hj'). lia.
Qed.

Lemma findEvent_docs id (docs : list EventDoc) :
  Store.findEvent id (doc_event <$> docs)
  = doc_event ∘ snd <$> list_find (λ e, ev_id (doc_event e) = id) docs.
Proof.
  unfold Store.findEvent. rewrite list_find_fmap.
  by destruct (list_find _ docs) as [[i e]|].
Qed.

Lemma deleteEvent_deleted sum afterDelete user eventId now docs l code docs' :
  deleteEvent sum afterDelete user eventId now docs l = (Deleted code, docs') →
  ∃ i ev, list_find (λ e, ev_id (doc_event e) = eventId) docs = Some (i, ev)
          ∧ docs' = delete i docs.
Proof.
  unfold deleteEvent. intros H.
  destruct (list_find _ docs) as [[i ev]|]; [|done].
  exists i, ev. split; [done|].
  repeat case_match; by simplify_eq.
Qed.

(** X14: deleting an event leaves its donations behind.  After
    [deleteEvent] has answered 204, with identifiers unique, the event is no
    longer found: a new chip-in for it is refused with 404, and the
    verification of a payment made for a pending donation of the event
    completes the donation and answers 500. *)
Theorem deleted_event_orphans_donation
    sum afterDelete user now docs db code docs' gw ref pd md i d
    co front payer amt t hex :
  NoDup ((λ e, ev_id (doc_event e)) <$> docs) →
  events db = doc_event <$> docs →
  deleteEvent sum afterDelete user (event d) now docs (donations db)
  = (Deleted code, docs') →
  ref ≠ "" →
  verifiedChipin gw ref pd md →
  Js.strict_ne (pd_amount pd) (expectedAmount md) = false →
  Store.findOne (byReference ref) (donations db) = Some (i, d) →
  status d ≠ completed →
  let db' := mkDb (donations db) (doc_event <$> docs') (jobs db) in
  Store.findEvent (event d) (events db') = None
  ∧ chipin co front payer amt (event d) t hex db'
    = (ChipinNext (mkAppError (Msg "Event not found") 404), db')
  ∧ fst (verifyPayment gw (Some ref) db')
    = Next (gatewayAppError nullEventError)
  ∧ statusCode (gatewayAppError nullEventError) = 500
  ∧ donations (snd (verifyPayment gw (Some ref) db')) !! i
    = Some (applyUpdate (completionUpdate ref (gateway_response pd)) d).
Proof.
  intros Hnd Hev Hdel Hne Hv Ha Hf Hs db'.
  destruct (deleteEvent_deleted _ _ _ _ _ _ _ _ _ Hdel) as (j & ev & Hj & ->).
  assert (Hgone : Store.findEvent (event d) (events db') = None).
  { unfold db'; simpl. rewrite findEvent_docs.
    by rewrite (list_find_delete _ _ _ _ _ Hnd Hj). }
  split_and!; [done| | |done|].
  - unfold chipin. by rewrite Hgone.
  - rewrite (verifyPayment_chipin _ _ _ _ _ Hne Hv Ha).
    by rewrite (verifyChipin_orphan ref pd db' i d Hf Hs Hgone).
  - rewrite (verifyPayment_chipin _ _ _ _ _ Hne Hv Ha).
    rewrite (verifyChipin_orphan ref pd db' i d Hf Hs Hgone); simpl.
    apply list_lookup_insert_eq.
    apply findOne_Some in Hf as [Hi _]. by eapply lookup_lt_Some.
Qed.

Lemma deleted_event_orphans_donation_witness :
  Store.findEvent (event Scenario.created) (events orphanDb) = None
  ∧ chipin payingCheckout "https://meetro.live" ada 5000%float
      (event Scenario.created) 2000 "def" orphanDb
    = (ChipinNext (mkAppError (Msg "Event not found") 404), orphanDb)
  ∧ fst (verifyPayment (Scenario.gatewayPaying 515000%float)
           (Some Scenario.ref) orphanDb)
    = Next (gatewayAppError nullEventError)
  ∧ statusCode (gatewayAppError nullEventError) = 500
  ∧ donations (snd (verifyPayment (Scenario.gatewayPaying 515000%float)
                      (Some Scenario.ref) orphanDb)) !! 0%nat
    = Some (applyUpdate
              (completionUpdate Scenario.ref
                 (gateway_response (Scenario.verified 515000%float)))
              Scenario.created).
Proof.
  apply (deleted_event_orphans_donation sumLeft quietHook ada 1000 [partyDoc]
           Scenario.db0 204 [] (Scenario.gatewayPaying 515000%float)
           Scenario.ref (Scenario.verified 515000%float)
           Scenario.chipinMetadata 0%nat Scenario.created
           payingCheckout "https://meetro.live" ada 5000%float 2000 "def").
  - apply NoDup_singleton.
  - reflexivity.
  - reflexivity.
  - discriminate.
  - apply OnScenario.gateway_verifies.
  - reflexivity.
  - reflexivity.
  - discriminate.
Defined.

(** ** The job: its window *)



(** X16: the window of the next run starts where a finished run set its
    checkpoint.  After a run that finished, the checkpoint of the job is the
    last reading of the clock the run made, the other checkpoints are as
    they were, and a later run, whatever its clock and its lookback setting,
    starts its window at that reading without reading the clock. *)
Theorem next_window_starts_at_checkpoint
    fuel txnFuel env db reads db' total reads' env2 reads2 :
  runPaystackSettlementReconcile fuel txnFuel env db reads
  = (Finished, db', total, reads') →
  (Z.abs (clock env (reads' - 1)) <= maxTimeValue)%Z →
  (reads < reads')%nat
  ∧ Job.getLastRun jobName (jobs db') = Some (clock env (reads' - 1))
  ∧ (∀ name, name ≠ jobName →
       Job.getLastRun name (jobs db') = Job.getLastRun name (jobs db))
  ∧ readWindowStart env2 db' reads2 = (inr (clock env (reads' - 1)), reads2).
Proof.
  unfold runPaystackSettlementReconcile. intros Hrun Hvalid.
  assert (Hw : (reads ≤ snd (readWindowStart env db reads))%nat).
  { unfold readWindowStart. destruct (Job.getLastRun _ _); simpl; lia. }
  destruct (readWindowStart env db reads) as [[e|from] r]; [done|].
  simpl in Hw.
  destruct (settlementLoop _ _ _ _ _ _) as [o1 st1] eqn:E1.
  apply (settlementLoop_invariant env (λ _, True)
           (λ st st', (clockReads st ≤ clockReads st')%nat)) in E1
    as [Hle _]; [|done|lia|lia| |done].
  2:{ intros references st _. unfold reconcilePage.
      destruct (0 <? _)%Z; simpl; lia. }
  simpl in Hle.
  destruct o1; [|done..]. injection Hrun as <- _ <-.
  replace (S (clockReads st1) - 1)%nat with (clockReads st1) in * by lia.
  assert (Hget : Job.getLastRun jobName
                   (Job.updateLastRun jobName (clock env (clockReads st1))
                      (jobs db))
                 = Some (clock env (clockReads st1))).
  { unfold Job.getLastRun, Job.updateLastRun. by rewrite lookup_insert_eq. }
  split_and!; simpl.
  - lia.
  - done.
  - intros name Hname. unfold Job.getLastRun, Job.updateLastRun.
    by rewrite lookup_insert_ne.
  - unfold readWindowStart; simpl. rewrite Hget. unfold toISOString.
    by rewrite (proj2 (Z.leb_le _ _) Hvalid).
Qed.

Lemma next_window_starts_at_checkpoint_witness :
  (0 < 3)%nat
  ∧ Job.getLastRun jobName (jobs ScenarioC.dbSettled)
    = Some (clock ScenarioC.env (3 - 1))
  ∧ (∀ name, name ≠ jobName →
       Job.getLastRun name (jobs ScenarioC.dbSettled)
       = Job.getLastRun name (jobs ScenarioC.dbPaid))
  ∧ readWindowStart misconfigured ScenarioC.dbSettled 9
    = (inr (clock ScenarioC.env (3 - 1)), 9%nat).
Proof.
  apply (next_window_starts_at_checkpoint 5 5 ScenarioC.env ScenarioC.dbPaid 0
           ScenarioC.dbSettled 1 3%nat misconfigured 9%nat).
  - vm_compute. reflexivity.
  - vm_compute. discriminate.
Defined.

(** ** [verifyBankAccount] *)

(** X17: [verifyBankAccount] answers with an account exactly when both
    fields of the body are present and not empty and the gateway resolves
    them with a true status and data, and then with status 200 and the
    name and number the gateway gave; every other answer is an error with
    status 400 or 500, and it is 400 without a call to the gateway when a
    field is missing. *)
Theorem verifyBankAccount_answers co accountNumber bankCode :
  (∀ code name number,
     verifyBankAccount co accountNumber bankCode
     = AccountVerified code name number
     ↔ code = 200
       ∧ ∃ a b, accountNumber = Some a ∧ a ≠ "" ∧ bankCode = Some b ∧ b ≠ ""
                ∧ bankResolve co a b
                  = inr (mkResolveResponse true (Some (name, number))))
  ∧ (∀ e, verifyBankAccount co accountNumber bankCode = BankNext e →
          statusCode e = 400 ∨ statusCode e = 500)
  ∧ (Js.falsy_str accountNumber = true ∨ Js.falsy_str bankCode = true →
     ∀ co', verifyBankAccount co' accountNumber bankCode
            = BankNext
                (mkAppError (Msg "Account number and bank code are required")
                   400)).
Proof.
  unfold verifyBankAccount. split_and!.
  - intros code name number.
    destruct accountNumber as [[|c a]|]; simpl.
    1,3: split; [done|intros (_ & ? & ? & ? & ? & _); congruence].
    destruct bankCode as [[|c' b]|]; simpl.
    1,3: split; [done|intros (_ & ? & ? & _ & _ & ? & ? & _); congruence].
    split.
    + destruct (bankResolve co _ _) as [e|[st [[n m]|]]] eqn:Hr; [done| |].
      * destruct st; [|done]. simpl. intros [= <- <- <-].
        split; [done|]. by exists (String c a), (String c' b).
      * by destruct st.
    + intros (-> & a' & b' & [= <-] & _ & [= <-] & _ & ->). done.
  - intros e. destruct (_ || _); [intros [= <-]; by left|].
    destruct (bankResolve co _ _) as [err|[st [[n m]|]]]; simpl.
    + intros [= <-]. by right.
    + by destruct st; [|intros [= <-]; left].
    + destruct st; intros [= <-]; [by right|by left].
  - intros Hmiss co'.
    assert (Js.falsy_str accountNumber || Js.falsy_str bankCode = true) as ->
      by (destruct Hmiss as [-> | ->]; [done|apply orb_true_r]).
    done.
Qed.

(** ** The two handlers in either order *)

(** Replacing an element that fails the test by another that fails it does
    not change what is found. *)
Lemma list_find_insert_other {A} (P : A → Prop) `{!∀ x, Decision (P x)}
    (l : list A) j x x' :
  l !! j = Some x → ¬ P x → ¬ P x' →
  list_find P (<[j := x']> l) = list_find P l.
Proof.
  revert j. induction l as [|y l IH]; intros j Hj Hx Hx'; [done|].
  destruct j as [|j]; simpl in *.
  - simplify_eq. by rewrite !decide_False.
  - destruct (decide (P y)); [done|]. by rewrite (IH j).
Qed.

Lemma completeOnce_donations ref gr db :
  donations (completeOnce ref gr db)
  = match Store.findOne (byReference ref) (donations db) with
    | Some (i, d) =>
        if Status_eqb (status d) completed then donations db
        else <[i := applyUpdate (completionUpdate ref gr) d]> (donations db)
    | None => donations db
    end
  ∧ completeOnce ref gr db = set_donations (donations (completeOnce ref gr db)) db.
Proof.
  unfold completeOnce.
  destruct (Store.findOne _ _) as [[i d]|] eqn:Hf; simpl.
  - destruct (Status_eqb (status d) completed); simpl.
    + by rewrite set_donations_id.
    + by destruct (completionWrite_found ref gr _ _ _ Hf) as [-> _].
  - by rewrite (completionWrite_missing _ _ _ Hf), set_donations_id.
Qed.

(** A completion for one reference does not change what is found under
    another. *)
Lemma findOne_completeOnce_other r1 r2 gr db :
  r1 ≠ r2 →
  Store.findOne (byReference r1) (donations (completeOnce r2 gr db))
  = Store.findOne (byReference r1) (donations db).
Proof.
  intros Hne. rewrite (proj1 (completeOnce_donations r2 gr db)).
  destruct (Store.findOne (byReference r2) (donations db)) as [[j x]|] eqn:Hf;
    [|done].
  destruct (Status_eqb (status x) completed); [done|].
  apply findOne_Some in Hf as [Hj Hm]. rewrite matches_byReference in Hm.
  assert (Hx : paymentReference x = Some r2).
  { destruct (paymentReference x) as [r|]; [|done].
    by apply str_is_Some in Hm as ->. }
  unfold Store.findOne. apply (list_find_insert_other _ _ _ x); [done| |].
  - rewrite matches_byReference, Hx; simpl.
    intros H%String.eqb_eq. congruence.
  - rewrite matches_byReference; simpl. rewrite Hx; simpl.
    intros H%String.eqb_eq. congruence.
Qed.

Lemma completeOnce_commute r1 g1 r2 g2 db :
  r1 ≠ r2 →
  completeOnce r1 g1 (completeOnce r2 g2 db)
  = completeOnce r2 g2 (completeOnce r1 g1 db).
Proof.
  intros Hne.
  assert (Hdb : ∀ l l' (x : Db), set_donations l (set_donations l' x)
                                 = set_donations l x) by done.
  rewrite (proj2 (completeOnce_donations r1 g1 (completeOnce r2 g2 db))).
  rewrite (proj2 (completeOnce_donations r2 g2 (completeOnce r1 g1 db))).
  rewrite (proj2 (completeOnce_donations r2 g2 db)) at 2.
  rewrite (proj2 (completeOnce_donations r1 g1 db)) at 2.
  rewrite !Hdb. f_equal.
  rewrite (proj1 (completeOnce_donations r1 g1 (completeOnce r2 g2 db))).
  rewrite (proj1 (completeOnce_donations r2 g2 (completeOnce r1 g1 db))).
  rewrite (findOne_completeOnce_other r1 r2 g2 db Hne).
  rewrite (findOne_completeOnce_other r2 r1 g1 db) by done.
  rewrite (proj1 (completeOnce_donations r1 g1 db)).
  rewrite (proj1 (completeOnce_donations r2 g2 db)).
  destruct (Store.findOne (byReference r1) (donations db)) as [[i d]|] eqn:H1;
    destruct (Store.findOne (byReference r2) (donations db)) as [[j x]|] eqn:H2;
    try done.
  destruct (Status_eqb (status d) completed);
    destruct (Status_eqb (status x) completed); try done.
  apply list_insert_insert_ne. intros ->.
  apply findOne_Some in H1 as [Hi Hm1]. apply findOne_Some in H2 as [Hj Hm2].
  rewrite Hi in Hj. injection Hj as ->.
  rewrite matches_byReference in Hm1, Hm2.
  destruct (paymentReference x) as [r|]; [|done].
  apply str_is_Some in Hm1. apply str_is_Some in Hm2. congruence.
Qed.

(** X7: the two handlers commute on the database.  Whatever the webhook
    request and whatever the reference given to verify-payment, the same or
    different, the database after both have run against one gateway does not
    depend on which ran first. *)
Theorem handlers_commute_on_any_requests rt gw req reference db :
  snd (paystackWebhook rt gw req (snd (verifyPayment gw reference db)))
  = snd (verifyPayment gw reference (snd (paystackWebhook rt gw req db))).
Proof.
  destruct (verifyPayment_decides gw reference)
    as [Hv|(r1 & pd1 & Hr1 & Hv1 & Hv)];
    destruct (paystackWebhook_decides rt gw req)
      as [Hw|(r2 & pd2 & Hr2 & Hv2 & Hw)];
    rewrite ?Hv, ?Hw; try done.
  destruct (decide (r1 = r2)) as [->|Hne].
  - rewrite Hv1 in Hv2. by injection Hv2 as <-.
  - symmetry. by apply completeOnce_commute.
Qed.

(** ** The status of an event *)

(** X18: the status of an event never goes back.  As time passes the status
    moves from upcoming to ongoing to completed and never the other way,
    also for an event whose end is before its start, which is never ongoing;
    an event is upcoming exactly before its start, which is when
    [deleteEvent] lets its creator delete it. *)
Theorem event_status_never_goes_back now now' startDate endDate :
  (now <= now')%Z →
  (statusRank (eventStatus now startDate endDate)
   <= statusRank (eventStatus now' startDate endDate))%Z
  ∧ (eventStatus now startDate endDate = upcoming ↔ (now < startDate)%Z)
  ∧ ((endDate < startDate)%Z → eventStatus now startDate endDate ≠ ongoing).
Proof.
  intros Hle. unfold eventStatus.
  destruct (now <? startDate)%Z eqn:E1; destruct (now' <? startDate)%Z eqn:E2;
    destruct (startDate <=? now)%Z eqn:E3;
    destruct (startDate <=? now')%Z eqn:E4;
    destruct (now <=? endDate)%Z eqn:E5;
    destruct (now' <=? endDate)%Z eqn:E6; simpl;
    rewrite ?Z.ltb_lt, ?Z.ltb_ge, ?Z.leb_le, ?Z.leb_gt in *;
    (split_and!; [lia| split; [done || lia | done || lia] | done || lia]).
Qed.

Lemma event_status_never_goes_back_witness :
  (statusRank (eventStatus 1000 5000 9000)
   <= statusRank (eventStatus 6000 5000 9000))%Z
  ∧ (eventStatus 1000 5000 9000 = upcoming ↔ (1000 < 5000)%Z)
  ∧ ((9000 < 5000)%Z → eventStatus 1000 5000 9000 ≠ ongoing).
Proof.
  apply (event_status_never_goes_back 1000 6000 5000 9000). lia.
Defined.

(** * Tokens *)

Module OnTokens.
Import Tokens.

Lemma token_freshId_above (l : list UserToken) x : x ∈ tk_id <$> l → x < freshId l.
Proof.
  unfold freshId. induction l as [|d l IH]; [by intros ?%elem_of_nil|].
  rewrite fmap_cons. simpl. intros [->|Hx]%elem_of_cons; [lia|].
  specialize (IH Hx). lia.
Qed.

Lemma findOne_deleteMany uid ty l :
  findOne uid ty (deleteMany (byUserType uid ty) l) = None.
Proof.
  unfold findOne, deleteMany. apply list_find_None, Forall_forall.
  intros d [Hd _]%list_elem_of_filter. congruence.
Qed.

Lemma byUserType_refl uid ty tok e a s i :
  byUserType uid ty (mkUserToken i uid tok ty e a s) = true.
Proof. unfold byUserType; simpl. rewrite Z.eqb_refl. by destruct ty. Qed.

(** What a successful [createToken] has stored. *)
Lemma createToken_Ok hash us uid ty minutes n1 n2 n3 raw l r l1 :
  createToken hash us uid ty minutes n1 n2 n3 raw l = (Ok r, l1) →
  let rest := deleteMany (byUserType uid ty) l in
  r = raw
  ∧ findById us uid = true
  ∧ recentlySent (snd <$> findOne uid ty l) n1 = false
  ∧ (Z.abs (n2 + minutes * 60 * 1000) <= maxTimeValue)%Z
  ∧ l1 = (rest ++ [mkUserToken (freshId rest) uid (hash raw) ty
                     (n2 + minutes * 60 * 1000) 0 (Some n3)])%list.
Proof.
  unfold createToken.
  destruct (findById us uid); [|done]. simpl.
  destruct (recentlySent _ _); [done|].
  destruct (Z.abs _ <=? maxTimeValue)%Z eqn:Hv; [|done]. simpl.
  destruct (String.eqb (hash raw) ""); [done|].
  destruct (existsb _ _); [done|].
  intros [= <- <-]. apply Z.leb_le in Hv. done.
Qed.

(** The expiry sweep keeps a token that has not expired, and leaves no
    token where there was none. *)
Lemma sweep_keeps sweep rest d :
  (sweep <= tk_expiresAt d)%Z →
  fst (cleanupExpired sweep (rest ++ [d]))
  = (deleteMany (λ x, (tk_expiresAt x <? sweep)%Z) rest ++ [d])%list.
Proof.
  intros Hle. unfold cleanupExpired, deleteMany; simpl.
  rewrite filter_app, filter_cons, filter_nil.
  rewrite decide_True; [done|]. by apply Z.ltb_ge.
Qed.

Lemma find_in_filtered {A} (P Q : A → Prop) `{!∀ x, Decision (P x)}
    `{!∀ x, Decision (Q x)} (l : list A) :
  list_find P l = None → list_find P (filter Q l) = None.
Proof.
  intros Hnone%list_find_None. apply list_find_None, Forall_forall.
  intros x [_ Hx]%list_elem_of_filter.
  by eapply Forall_forall in Hnone.
Qed.

(** X19: a token issued is accepted once.  When [createToken] has
    succeeded, the token it returned is accepted by [verifyToken] for the
    user's email and the type, at any time up to the expiry, also after an
    expiry sweep; the acceptance removes the token, and from then on every
    token is refused for this user and type, the accepted one included. *)
Theorem issued_token_verifies_once
    hash us uid ty minutes n1 n2 n3 raw l r l1 email sweep now :
  createToken hash us uid ty minutes n1 n2 n3 raw l = (Ok r, l1) →
  findByEmail us email = Some uid →
  (sweep <= now)%Z →
  (now <= n2 + minutes * 60 * 1000)%Z →
  r = raw
  ∧ ∃ l2,
      verifyToken hash us r ty email now (fst (cleanupExpired sweep l1))
      = (Ok tt, l2)
      ∧ findOne uid ty l2 = None
      ∧ ∀ tok now',
          verifyToken hash us tok ty email now' l2
          = (ThrowApp invalidOrExpired, l2).
Proof.
  intros Hc Hu Hs Hn.
  destruct (createToken_Ok _ _ _ _ _ _ _ _ _ _ _ _ Hc)
    as (-> & _ & _ & _ & ->).
  split; [done|].
  set (rest := deleteMany (byUserType uid ty) l).
  set (new := mkUserToken _ _ _ _ _ _ _).
  rewrite (sweep_keeps sweep rest new) by (simpl; lia).
  set (rest' := deleteMany _ rest).
  assert (Hnone : findOne uid ty rest' = None).
  { apply find_in_filtered, findOne_deleteMany. }
  assert (Hfind : findOne uid ty (rest' ++ [new])
                  = Some (length rest', new)).
  { unfold findOne. rewrite list_find_app_r by exact Hnone.
    simpl. rewrite decide_True by apply byUserType_refl.
    simpl. by rewrite ?Nat.add_0_r. }
  assert (Hid : list_find (λ d, tk_id d = tk_id new) (rest' ++ [new])
                = Some (length rest', new)).
  { rewrite list_find_app_r.
    - simpl. rewrite decide_True by done. simpl. by rewrite ?Nat.add_0_r.
    - apply list_find_None, Forall_forall. intros d Hd Heq.
      apply list_elem_of_filter in Hd as [_ Hd].
      assert (tk_id d < freshId rest)
        by (by apply token_freshId_above, list_elem_of_fmap_2).
      simpl in Heq. lia. }
  exists rest'. split_and!.
  - unfold verifyToken. rewrite Hu, Hfind.
    unfold isExpired, checkAttempts; simpl.
    rewrite (proj2 (Z.ltb_ge _ _) Hn); simpl.
    rewrite String.eqb_refl; simpl.
    unfold deleteOne. simpl in Hid. rewrite Hid.
    rewrite delete_take_drop.
    rewrite take_app_length, drop_app, drop_ge by lia.
    replace (S (length rest') - length rest')%nat with 1%nat by lia.
    by rewrite app_nil_r.
  - done.
  - intros tok now'. unfold verifyToken. by rewrite Hu, Hnone.
Qed.

Lemma issued_token_verifies_once_witness :
  "493817" = "493817"
  ∧ ∃ l2,
      verifyToken TokenScenario.hash TokenScenario.users "493817"
        email_verification "ada@example.com" 3000
        (fst (cleanupExpired 2000 [TokenScenario.otp]))
      = (Ok tt, l2)
      ∧ findOne 7 email_verification l2 = None
      ∧ ∀ tok now',
          verifyToken TokenScenario.hash TokenScenario.users tok
            email_verification "ada@example.com" now' l2
          = (ThrowApp invalidOrExpired, l2).
Proof.
  apply (issued_token_verifies_once TokenScenario.hash TokenScenario.users 7
           email_verification 10 1000 1001 1002 "493817" [] "493817"
           [TokenScenario.otp] "ada@example.com" 2000 3000).
  - reflexivity.
  - reflexivity.
  - lia.
  - lia.
Defined.

(** With unique identifiers, the first document with the identifier of a
    stored document is that document. *)
Lemma find_by_id (l : list UserToken) i d :
  NoDup (tk_id <$> l) → l !! i = Some d →
  list_find (λ x, tk_id x = tk_id d) l = Some (i, d).
Proof.
  intros Hnd Hi. apply list_find_Some. split_and!; [done..|].
  intros j y Hj Hlt Hid.
  assert (H1 : (tk_id <$> l) !! i = Some (tk_id d))
    by (by rewrite list_lookup_fmap, Hi).
  assert (H2 : (tk_id <$> l) !! j = Some (tk_id d))
    by (by rewrite list_lookup_fmap, Hj; simpl; rewrite Hid).
  pose proof (NoDup_lookup _ _ _ _ Hnd H1 H2). lia.
Qed.

Lemma token_findOne_Some uid ty l i d :
  findOne uid ty l = Some (i, d) → l !! i = Some d ∧ byUserType uid ty d = true.
Proof. unfold findOne. by intros (? & ? & _)%list_find_Some. Qed.

Lemma findOne_withAttempts uid ty l i d n :
  findOne uid ty l = Some (i, d) →
  findOne uid ty (<[i := withAttempts n d]> l) = Some (i, withAttempts n d).
Proof.
  unfold findOne. intros (Hi & Hm & Hleast)%list_find_Some.
  apply list_find_Some. split_and!.
  - rewrite list_lookup_insert_eq; [done|]. by eapply lookup_lt_Some.
  - done.
  - intros j y Hj Hlt. rewrite list_lookup_insert_ne in Hj by lia. eauto.
Qed.

(** An attempt with a wrong token, before the expiry and the fifth
    attempt, is counted and refused. *)
Lemma verifyToken_wrong hash us uid ty email l i d tok now :
  findByEmail us email = Some uid →
  NoDup (tk_id <$> l) →
  findOne uid ty l = Some (i, d) →
  hash tok ≠ tk_token d →
  (now <= tk_expiresAt d)%Z →
  (tk_attempts d < 5)%Z →
  verifyToken hash us tok ty email now l
  = (ThrowApp tokenInvalid, <[i := withAttempts (tk_attempts d + 1) d]> l).
Proof.
  intros Hu Hnd Hf Hw He Ha. unfold verifyToken. rewrite Hu, Hf.
  unfold isExpired, checkAttempts.
  rewrite (proj2 (Z.ltb_ge _ _) He), (proj2 (Z.leb_gt _ _) Ha); simpl.
  rewrite (proj2 (String.eqb_neq _ _)) by congruence. simpl.
  unfold save; simpl.
  apply token_findOne_Some in Hf as [Hi _].
  by rewrite (find_by_id _ _ _ Hnd Hi).
Qed.

(** A token with five attempts is refused whatever is presented. *)
Lemma verifyToken_locked hash us uid ty email l i d tok now :
  findByEmail us email = Some uid →
  findOne uid ty l = Some (i, d) →
  (5 <= tk_attempts d)%Z →
  verifyToken hash us tok ty email now l = (ThrowApp invalidOrExpired, l).
Proof.
  intros Hu Hf Ha. unfold verifyToken. rewrite Hu, Hf.
  unfold checkAttempts. rewrite (proj2 (Z.leb_le _ _) Ha).
  by rewrite orb_true_r.
Qed.

Lemma attempts_cons hash us ty email a tries l :
  attempts hash us ty email (a :: tries) l
  = attempts hash us ty email tries
      (snd (verifyToken hash us (fst a) ty email (snd a) l)).
Proof. done. Qed.

(** X20: wrong attempts lock a token.  Each attempt with a wrong token,
    made before the expiry, is counted on the token; once the count has
    reached five the token is locked: every later attempt is refused, the
    right token included, at any time, and changes nothing. *)
Theorem wrong_attempts_lock_token hash us uid ty email l i d tries :
  findByEmail us email = Some uid →
  NoDup (tk_id <$> l) →
  findOne uid ty l = Some (i, d) →
  Forall (λ a, hash (fst a) ≠ tk_token d ∧ (snd a <= tk_expiresAt d)%Z) tries →
  (tk_attempts d + Z.of_nat (length tries) = 5)%Z →
  attempts hash us ty email tries l = <[i := withAttempts 5 d]> l
  ∧ ∀ tok now,
      verifyToken hash us tok ty email now (attempts hash us ty email tries l)
      = (ThrowApp invalidOrExpired, attempts hash us ty email tries l).
Proof.
  intros Hu Hnd Hf Hwrong Hcount.
  assert (Hstore : attempts hash us ty email tries l
                   = <[i := withAttempts 5 d]> l).
  { revert l d Hnd Hf Hwrong Hcount.
    induction tries as [|a tries IH]; intros l d Hnd Hf Hwrong Hcount.
    - simpl in *. apply token_findOne_Some in Hf as [Hi _].
      symmetry. apply list_insert_id. rewrite Hi. f_equal.
      destruct d; unfold withAttempts; simpl in *. f_equal. lia.
    - apply Forall_cons in Hwrong as [[Hw He] Hrest].
      rewrite length_cons in Hcount.
      rewrite attempts_cons.
      rewrite (verifyToken_wrong hash us uid ty email l i d (fst a) (snd a))
        by (done || lia).
      simpl.
      rewrite (IH (<[i := withAttempts (tk_attempts d + 1) d]> l)
                 (withAttempts (tk_attempts d + 1) d)).
      + by rewrite list_insert_insert_eq.
      + rewrite list_fmap_insert; simpl. rewrite list_insert_id; [done|].
        apply token_findOne_Some in Hf as [Hi _]. by rewrite list_lookup_fmap, Hi.
      + by apply findOne_withAttempts.
      + done.
      + simpl. lia. }
  split; [done|]. intros tok now. rewrite Hstore.
  apply (verifyToken_locked hash us uid ty email _ i (withAttempts 5 d));
    [done| |simpl; lia].
  by apply findOne_withAttempts.
Qed.

Lemma wrong_attempts_lock_token_witness :
  attempts TokenScenario.hash TokenScenario.users email_verification
    "ada@example.com"
    [("000000", 2000); ("111111", 2001); ("222222", 2002); ("333333", 2003);
     ("444444", 2004)] [TokenScenario.otp]
  = <[0%nat := withAttempts 5 TokenScenario.otp]> [TokenScenario.otp]
  ∧ ∀ tok now,
      verifyToken TokenScenario.hash TokenScenario.users tok email_verification
        "ada@example.com" now
        (attempts TokenScenario.hash TokenScenario.users email_verification
           "ada@example.com"
           [("000000", 2000); ("111111", 2001); ("222222", 2002);
            ("333333", 2003); ("444444", 2004)] [TokenScenario.otp])
      = (ThrowApp invalidOrExpired,
         attempts TokenScenario.hash TokenScenario.users email_verification
           "ada@example.com"
           [("000000", 2000); ("111111", 2001); ("222222", 2002);
            ("333333", 2003); ("444444", 2004)] [TokenScenario.otp]).
Proof.
  apply (wrong_attempts_lock_token TokenScenario.hash TokenScenario.users 7
           email_verification "ada@example.com" [TokenScenario.otp] 0%nat
           TokenScenario.otp).
  - reflexivity.
  - apply NoDup_singleton.
  - reflexivity.
  - repeat (apply Forall_cons; split; [split; [discriminate|simpl; lia]|]).
    apply Forall_nil_2.
  - reflexivity.
Defined.

(** X21: a token is not issued twice within a minute.  After [createToken]
    has succeeded, a request for a token of the same user and type whose
    first reading of the clock is less than 60000 ms after the time the
    token was sent is refused with status 429 and changes nothing, so that
    the token issued stays the one in force; an expiry sweep that does not
    reach the token's expiry makes no difference. *)
Theorem createToken_rate_limited
    hash us uid ty minutes n1 n2 n3 raw l r l1 sweep minutes' m1 m2 m3 raw' :
  createToken hash us uid ty minutes n1 n2 n3 raw l = (Ok r, l1) →
  (sweep <= n2 + minutes * 60 * 1000)%Z →
  (m1 - n3 < 60000)%Z →
  createToken hash us uid ty minutes' m1 m2 m3 raw'
    (fst (cleanupExpired sweep l1))
  = (ThrowApp sentRecently, fst (cleanupExpired sweep l1))
  ∧ statusCode sentRecently = 429.
Proof.
  intros Hc Hs Hm.
  destruct (createToken_Ok _ _ _ _ _ _ _ _ _ _ _ _ Hc)
    as (-> & Hu & _ & _ & ->).
  split; [|done].
  set (rest := deleteMany (byUserType uid ty) l).
  set (new := mkUserToken _ _ _ _ _ _ _).
  rewrite (sweep_keeps sweep rest new) by (simpl; lia).
  set (rest' := deleteMany _ rest).
  assert (Hnone : findOne uid ty rest' = None).
  { apply find_in_filtered, findOne_deleteMany. }
  assert (Hfind : findOne uid ty (rest' ++ [new])
                  = Some (length rest', new)).
  { unfold findOne. rewrite list_find_app_r by exact Hnone.
    simpl. rewrite decide_True by apply byUserType_refl.
    simpl. by rewrite ?Nat.add_0_r. }
  unfold createToken. rewrite Hu, Hfind; simpl.
  by rewrite (proj2 (Z.ltb_lt _ _) Hm).
Qed.

Lemma createToken_rate_limited_witness :
  createToken TokenScenario.hash TokenScenario.users 7 email_verification 10
    50000 50001 50002 "271828" (fst (cleanupExpired 40000 [TokenScenario.otp]))
  = (ThrowApp sentRecently, fst (cleanupExpired 40000 [TokenScenario.otp]))
  ∧ statusCode sentRecently = 429.
Proof.
  apply (createToken_rate_limited TokenScenario.hash TokenScenario.users 7
           email_verification 10 1000 1001 1002 "493817" [] "493817"
           [TokenScenario.otp] 40000 10 50000 50001 50002 "271828").
  - reflexivity.
  - lia.
  - lia.
Defined.

(** ** The invariant of the token collection *)

Lemma tokensOf_filter uid ty (Q : UserToken → Prop) `{!∀ x, Decision (Q x)} l :
  (length (tokensOf uid ty (filter Q l)) ≤ length (tokensOf uid ty l))%nat.
Proof.
  unfold tokensOf. induction l as [|d l IH]; [done|].
  rewrite !filter_cons. destruct (decide (Q d)).
  - rewrite filter_cons. case_decide; simpl; lia.
  - case_decide; simpl; lia.
Qed.

Lemma consistent_filter (Q : UserToken → Prop) `{!∀ x, Decision (Q x)} l :
  tokensConsistent l → tokensConsistent (filter Q l).
Proof.
  intros [Hnd Hone]. split.
  - eapply sublist_NoDup; [exact Hnd|]. apply fmap_sublist, sublist_filter.
  - intros uid ty. specialize (Hone uid ty).
    pose proof (tokensOf_filter uid ty Q l). lia.
Qed.

Lemma tokensOf_delete uid ty i l :
  (length (tokensOf uid ty (delete i l)) ≤ length (tokensOf uid ty l))%nat.
Proof.
  unfold tokensOf. revert i. induction l as [|d l IH]; intros [|i]; simpl;
    try done.
  - rewrite filter_cons. case_decide; simpl; lia.
  - rewrite !filter_cons. specialize (IH i). case_decide; simpl; lia.
Qed.

Lemma tokensOf_insert uid ty i d d' l :
  l !! i = Some d →
  byUserType uid ty d' = byUserType uid ty d →
  length (tokensOf uid ty (<[i := d']> l)) = length (tokensOf uid ty l).
Proof.
  unfold tokensOf. intros Hi Hk.
  rewrite insert_take_drop by (by eapply lookup_lt_Some).
  rewrite <- (take_drop_middle l i d Hi) at 3.
  rewrite !filter_app, !filter_cons, !length_app, Hk.
  by case_decide.
Qed.

Lemma byUserType_eq uid ty d :
  byUserType uid ty d = true ↔ tk_user d = uid ∧ tk_type d = ty.
Proof.
  unfold byUserType. rewrite andb_true_iff, Z.eqb_eq.
  split; (intros [? ?]; split; [done|]).
  - by destruct (tk_type d), ty.
  - subst. by destruct (tk_type d).
Qed.

Lemma tokensOf_deleteMany uid ty l :
  tokensOf uid ty (deleteMany (byUserType uid ty) l) = [].
Proof.
  unfold tokensOf, deleteMany. induction l as [|d l IH]; [done|].
  rewrite filter_cons. destruct (byUserType uid ty d) eqn:Hk.
  - by rewrite decide_False by done.
  - rewrite decide_True by done. rewrite filter_cons.
    by rewrite decide_False by congruence.
Qed.

(** X22: no user ever holds two tokens of one type.  Identifiers unique and
    at most one token for each user and type is an invariant of the four
    operations of the model; and after [createToken] has succeeded the user
    has exactly one token of the type, the one created. *)
Theorem one_token_per_user_and_type hash us l :
  tokensConsistent l →
  (∀ uid ty minutes n1 n2 n3 raw,
     tokensConsistent
       (snd (createToken hash us uid ty minutes n1 n2 n3 raw l))
     ∧ ∀ r, fst (createToken hash us uid ty minutes n1 n2 n3 raw l) = Ok r →
            ∃ d, tokensOf uid ty
                   (snd (createToken hash us uid ty minutes n1 n2 n3 raw l))
                 = [d]
                 ∧ tk_token d = hash raw ∧ tk_attempts d = 0)
  ∧ (∀ tok ty email now,
       tokensConsistent (snd (verifyToken hash us tok ty email now l)))
  ∧ (∀ uid ty, tokensConsistent (deleteUserTokens uid ty l))
  ∧ (∀ now, tokensConsistent (fst (cleanupExpired now l))).
Proof.
  intros Hl. split_and!.
  - intros uid ty minutes n1 n2 n3 raw. unfold createToken.
    destruct (findById us uid); simpl; [|done].
    destruct (recentlySent _ _); [done|].
    set (rest := deleteMany (byUserType uid ty) l).
    assert (Hrest : tokensConsistent rest) by (by apply consistent_filter).
    destruct (_ || _); [done|].
    destruct (existsb _ _); [done|]. simpl.
    set (new := mkUserToken _ _ _ _ _ _ _).
    pose proof (tokensOf_deleteMany uid ty l) as Hnone. fold rest in Hnone.
    assert (Hnew : tokensOf uid ty [new] = [new]).
    { unfold tokensOf. rewrite filter_cons, filter_nil.
      by rewrite decide_True by apply byUserType_refl. }
    destruct Hrest as [Hnd Hone]. split; [split|].
    + rewrite fmap_app. apply NoDup_app. split_and!; [done| |apply NoDup_singleton].
      simpl. intros x Hx ->%list_elem_of_singleton.
      apply token_freshId_above in Hx. lia.
    + intros u t. unfold tokensOf. rewrite filter_app, length_app.
      fold (tokensOf u t rest). fold (tokensOf u t [new]).
      destruct (byUserType u t new) eqn:Hk.
      * apply byUserType_eq in Hk as [<- <-]. simpl.
        rewrite Hnone, Hnew. simpl. lia.
      * assert (tokensOf u t [new] = []) as ->.
        { unfold tokensOf. rewrite filter_cons, filter_nil.
          by rewrite decide_False by congruence. }
        specialize (Hone u t). simpl. lia.
    + intros r _. exists new. unfold tokensOf. rewrite filter_app.
      fold (tokensOf uid ty rest). fold (tokensOf uid ty [new]).
      by rewrite Hnone, Hnew.
  - intros tok ty email now. unfold verifyToken.
    destruct (findByEmail us email) as [uid|]; [|done].
    destruct (findOne uid ty l) as [[i d]|] eqn:Hf; [|done].
    destruct (_ || _); [done|].
    destruct Hl as [Hnd Hone].
    apply token_findOne_Some in Hf as [Hi Hm].
    destruct (negb _); simpl.
    + unfold save; simpl. rewrite (find_by_id _ _ _ Hnd Hi). split.
      * rewrite list_fmap_insert; simpl. rewrite list_insert_id; [done|].
        by rewrite list_lookup_fmap, Hi.
      * intros u t. by rewrite (tokensOf_insert u t i d).
    + unfold deleteOne. rewrite (find_by_id _ _ _ Hnd Hi). split.
      * eapply sublist_NoDup; [exact Hnd|].
        apply fmap_sublist, sublist_delete.
      * intros u t. specialize (Hone u t).
        pose proof (tokensOf_delete u t i l). lia.
  - intros uid ty. by apply consistent_filter.
  - intros now. by apply consistent_filter.
Qed.

Lemma one_token_per_user_and_type_witness :
  (∀ uid ty minutes n1 n2 n3 raw,
     tokensConsistent
       (snd (createToken TokenScenario.hash TokenScenario.users uid ty minutes
               n1 n2 n3 raw [TokenScenario.otp]))
     ∧ ∀ r, fst (createToken TokenScenario.hash TokenScenario.users uid ty
                   minutes n1 n2 n3 raw [TokenScenario.otp]) = Ok r →
            ∃ d, tokensOf uid ty
                   (snd (createToken TokenScenario.hash TokenScenario.users
                           uid ty minutes n1 n2 n3 raw [TokenScenario.otp]))
                 = [d]
                 ∧ tk_token d = TokenScenario.hash raw ∧ tk_attempts d = 0)
  ∧ (∀ tok ty email now,
       tokensConsistent
         (snd (verifyToken TokenScenario.hash TokenScenario.users tok ty email
                 now [TokenScenario.otp])))
  ∧ (∀ uid ty, tokensConsistent (deleteUserTokens uid ty [TokenScenario.otp]))
  ∧ (∀ now, tokensConsistent (fst (cleanupExpired now [TokenScenario.otp]))).
Proof.
  apply (one_token_per_user_and_type TokenScenario.hash TokenScenario.users
           [TokenScenario.otp]).
  split.
  - apply NoDup_singleton.
  - intros uid ty. unfold tokensOf. rewrite filter_cons, filter_nil.
    case_decide; simpl; lia.
Defined.

End OnTokens.
